(** * Saturn translation scripts: a shallow embedding and its properties

    The repository holds three Python scripts under [translations/]:
    - [crowdin.py]          forward converter (vendor zip -> generated Dart file),
    - [crowdin_to_dart.py]  forward converter with sorted entries and the
                            single-quote rewrite,
    - [dart_to_crowdin.py]  reverse converter (generated Dart file -> zip).

    Python values are modelled as follows.
    - A [str] is the list of its Unicode code points ([N]).
    - A [dict] whose iteration order is observed is an association list in
      insertion order with distinct keys; [dict_set] is [d[k] = v].
    - The static table [lang_crowdin], only ever used for lookups, is a [gmap].
    - Filesystem calls are recorded in a trace by a small writer/error monad.
    - A zip archive is what the scripts observe of it: [namelist()] and the
      decoded content of [open(name)]. *)

From Stdlib Require Import NArith Lia.
From stdpp Require Import base list sorting gmap strings.

Set Warnings "-register-all".

Local Open Scope N_scope.
Local Open Scope list_scope.

(** ** Strings *)

Abbreviation str := (list N).

(** Program constants are written as Rocq string literals and turned into
    code points by [str_of]. *)
Definition str_of (s : string) : str :=
  map (fun a => N.of_nat (Ascii.nat_of_ascii a)) (String.list_ascii_of_string s).

(** Test data needs double quotes and newlines inside literals: [lit] reads a
    backtick as a double quote (34) and a tilde as a line feed (10), and is
    [str_of] otherwise. It is used for examples only, never by the model. *)
Definition lit (s : string) : str :=
  map (fun c => if c =? 96 then 34 else if c =? 126 then 10 else c) (str_of s).

Definition DQUOTE : N := 34.
Definition SQUOTE : N := 39.
Definition BSLASH : N := 92.
Definition DOLLAR : N := 36.
Definition LF : N := 10.

Definition str_eqb (a b : str) : bool := bool_decide (a = b).

(** [s.startswith(p)] *)
Fixpoint startswith (p s : str) : bool :=
  match p, s with
  | [], _ => true
  | _ :: _, [] => false
  | a :: p', b :: s' => (a =? b) && startswith p' s'
  end.

(** [s.index(sub)]: lowest index of an occurrence; [None] is [ValueError]. *)
Fixpoint index_from (sub s : str) (i : nat) : option nat :=
  if startswith sub s then Some i
  else match s with
       | [] => None
       | _ :: s' => index_from sub s' (S i)
       end.

Definition index (sub s : str) : option nat := index_from sub s 0.

(** [s.rindex(sub)]: highest index of an occurrence; [None] is [ValueError]. *)
Fixpoint rindex_from (sub s : str) (i : nat) : option nat :=
  match s with
  | [] => if startswith sub [] then Some i else None
  | _ :: s' =>
      match rindex_from sub s' (S i) with
      | Some j => Some j
      | None => if startswith sub s then Some i else None
      end
  end.

Definition rindex (sub s : str) : option nat := rindex_from sub s 0.

(** [sub in s] *)
Definition contains (sub s : str) : bool :=
  match index sub s with Some _ => true | None => false end.

(** [s[a:b]] for non-negative [a], [b] *)
Definition slice (a b : nat) (s : str) : str := take (b - a) (drop a s).

(** [s.split(sep)[0]] for a non-empty separator *)
Definition split_head (sep s : str) : str :=
  match index sep s with
  | Some i => take i s
  | None => s
  end.

(** [s.replace(old, new)] for a non-empty [old]: leftmost occurrences, not
    overlapping. [skip] counts the characters of a match still to be passed. *)
Fixpoint replace_from (old new : str) (skip : nat) (s : str) : str :=
  match s with
  | [] => []
  | c :: s' =>
      match skip with
      | S k => replace_from old new k s'
      | O =>
          if startswith old s
          then new ++ replace_from old new (pred (length old)) s'
          else c :: replace_from old new 0 s'
      end
  end.

Definition str_replace (old new s : str) : str := replace_from old new 0 s.

(** Python compares strings by code point, lexicographically. *)
Fixpoint str_leb (a b : str) : bool :=
  match a, b with
  | [], _ => true
  | _ :: _, [] => false
  | x :: a', y :: b' => (x <? y) || ((x =? y) && str_leb a' b')
  end.

Definition str_le (a b : str) : Prop := str_leb a b = true.

Global Instance str_le_dec a b : Decision (str_le a b).
Proof. unfold str_le. apply _. Defined.

(** [sorted(names)] *)
Definition sorted (l : list str) : list str := merge_sort str_le l.

(** ** Dictionaries and literal values *)

(** [d[k] = v] on an insertion-ordered dictionary. *)
Fixpoint dict_set {V} (k : str) (v : V) (d : list (str * V)) : list (str * V) :=
  match d with
  | [] => [(k, v)]
  | (k', v') :: d' =>
      if str_eqb k k' then (k', v) :: d' else (k', v') :: dict_set k v d'
  end.

Fixpoint dict_get {V} (k : str) (d : list (str * V)) : option V :=
  match d with
  | [] => None
  | (k', v') :: d' => if str_eqb k k' then Some v' else dict_get k d'
  end.

(** [dict(pairs)]: later pairs overwrite earlier ones. *)
Definition dict_of_pairs {V} (pairs : list (str * V)) : list (str * V) :=
  fold_left (fun d kv => dict_set (fst kv) (snd kv) d) pairs [].

(** The values the scripts handle: strings and dictionaries keyed by strings. *)
Inductive pyval : Type :=
| PStr (s : str)
| PDict (items : list (str * pyval)).

(** ** [json.dumps(v, ensure_ascii=False, indent=...)] *)

Definition hex_digit (n : N) : N := if n <? 10 then 48 + n else 87 + n.

(** [json.encoder.ESCAPE_DCT]: the short escapes, and [\u00xx] for the other
    control characters; everything from U+0020 on is left as it is. *)
Definition json_escape_char (c : N) : str :=
  if c =? 34 then [92; 34]
  else if c =? 92 then [92; 92]
  else if c =? 10 then [92; 110]
  else if c =? 13 then [92; 114]
  else if c =? 9 then [92; 116]
  else if c =? 8 then [92; 98]
  else if c =? 12 then [92; 102]
  else if c <? 32 then [92; 117; 48; 48; hex_digit (c / 16); hex_digit (c mod 16)]
  else [c].

Definition json_escape (s : str) : str := flat_map json_escape_char s.

Definition encode_basestring (s : str) : str := DQUOTE :: json_escape s ++ [DQUOTE].

(** ['\n' + ' ' * (indent * level)] when an indent is given. *)
Definition newline_indent (indent : option nat) (level : nat) : str :=
  match indent with
  | Some k => LF :: List.repeat 32 (k * level)
  | None => []
  end.

(** The item separator is [', '] without indent and [','] followed by the
    newline and indentation with it; the key separator is [': ']. *)
Definition item_separator (indent : option nat) (level : nat) : str :=
  match indent with
  | Some _ => 44 :: newline_indent indent level
  | None => [44; 32]
  end.

Definition key_separator : str := [58; 32].

(** The members after the first one, each behind the item separator;
    [dumps] encodes the values. *)
Definition join_members (dumps : pyval -> str) (separator : str)
  : list (str * pyval) -> str :=
  fix members (l : list (str * pyval)) : str :=
    match l with
    | [] => []
    | (k, v) :: l' =>
        separator ++ encode_basestring k ++ key_separator ++ dumps v ++ members l'
    end.

Fixpoint json_dumps (indent : option nat) (level : nat) (v : pyval) : str :=
  match v with
  | PStr s => encode_basestring s
  | PDict [] => [123; 125]
  | PDict ((k, v1) :: rest) =>
      123 :: newline_indent indent (S level)
        ++ encode_basestring k ++ key_separator ++ json_dumps indent (S level) v1
        ++ join_members (json_dumps indent (S level)) (item_separator indent (S level)) rest
        ++ newline_indent indent level ++ [125]
  end.

(** ** Effects: a trace of filesystem calls and an error *)

Inductive exn : Type :=
| KeyError (k : str)      (* [d[k]] on a missing key *)
| ValueError              (* [str.index] / [str.rindex] without an occurrence *)
| LiteralError            (* [ast.literal_eval] rejects the text *)
| AttributeError.         (* [.items()] on a value that is not a dict *)

Inductive fs_op : Type :=
| WriteFile (path : str) (encoding : option str) (content : str)
| MakeDirs (path : str) (exist_ok : bool)
| MakeArchive (base format root : str)
| RmTree (path : str).

(** A computation returns the calls it made so far and either an exception
    or a result. *)
Definition M (A : Type) : Type := list fs_op * (exn + A).

Definition raise {A} (e : exn) : M A := ([], inl e).
Definition emit (op : fs_op) : M unit := ([op], inr tt).

Global Instance M_ret : MRet M := fun A a => ([], inr a).
Global Instance M_bind : MBind M := fun A B f m =>
  match m with
  | (t, inl e) => (t, inl e)
  | (t, inr a) => let (t', r) := f a in (t ++ t', r)
  end.

Definition trace {A} (m : M A) : list fs_op := fst m.
Definition outcome {A} (m : M A) : exn + A := snd m.

(** [None] of a lookup or search becomes the exception Python raises. *)
Definition or_raise {A} (e : exn) (o : option A) : M A :=
  match o with Some a => mret a | None => raise e end.

(** [for x in l: s = body(s, x)] *)
Fixpoint foldM {S A} (body : S -> A -> M S) (s : S) (l : list A) : M S :=
  match l with
  | [] => mret s
  | x :: l' => s' ← body s x; foldM body s' l'
  end.

(** [for x in l: body(x)] *)
Fixpoint forM {A} (l : list A) (body : A -> M unit) : M unit :=
  match l with
  | [] => mret tt
  | x :: l' => body x;; forM l' body
  end.

(** ** The input archive *)

(** [namelist] is [zip.namelist()], in the order the archive stores its
    entries. [read_pairs name] is the JSON object held by
    [zip.open(name).read()], as its members in document order; entries are
    flat objects from string keys to string values. *)
Record archive : Type := {
  namelist : list str;
  read_pairs : str -> list (str * str)
}.

(** [json.loads(data)] on a flat object: a dict built from the members, a
    repeated key keeping its first position and its last value. *)
Definition json_loads (pairs : list (str * str)) : pyval :=
  PDict (dict_of_pairs (map (fun kv => (fst kv, PStr (snd kv))) pairs)).

Definition MARKER : str := Eval cbv in str_of "saturn.json".
Definition SLASH : str := Eval cbv in str_of "/".
Definition PREFIX : str := Eval cbv in str_of "const crowdin = ".
Definition UTF8 : str := Eval cbv in str_of "utf-8".

(** The forward escape: [replace] of the sigil by a backslash and the sigil. *)
Definition escape_sigil (s : str) : str := str_replace [DOLLAR] [BSLASH; DOLLAR] s.

(** ** crowdin.py *)

Module crowdin.

Definition lang_entries : list (str * str) :=
  Eval cbv in map (fun kv => (str_of (fst kv), str_of (snd kv)))
    [("ar", "ar-ar"); ("bg", "bul-bg"); ("ast", "ast-es"); ("de", "de-de");
     ("el", "el-gr"); ("es-ES", "es-es"); ("fa", "fa-ir"); ("fil", "fil-ph");
     ("fr", "fr-fr"); ("he", "he-il"); ("hr", "hr-hr"); ("id", "id-id");
     ("it", "it-it"); ("ko", "ko-ko"); ("pt-BR", "pt-br"); ("ro", "ro-ro");
     ("ru", "ru-ru"); ("tr", "tr-tr"); ("pl", "pl-pl"); ("uk", "uk-ua");
     ("hu", "hu-hu"); ("ur-PK", "ur-pk"); ("hi", "hi-in"); ("sk", "sk-sk");
     ("cs", "cs-cz"); ("vi", "vi-vi"); ("nl", "nl-NL"); ("sl", "sl-SL");
     ("zh-CN", "zh-CN")]%string.

Definition lang_crowdin : gmap str str := list_to_map lang_entries.

Definition OUTPUT : str := Eval cbv in str_of "../lib/languages/crowdin.dart".

(** The body of the loop over [zip.namelist()]: [lang_crowdin[lang]] raises
    [KeyError] for a code that is not in the table. *)
Definition add_entry (z : archive) (out : list (str * pyval)) (file : str)
  : M (list (str * pyval)) :=
  if contains MARKER file then
    let data := read_pairs z file in
    let lang := split_head SLASH file in
    code ← or_raise (KeyError lang) (lang_crowdin !! lang);
    mret (dict_set code (json_loads data) out)
  else mret out.

Definition literal_of (out : list (str * pyval)) : str :=
  escape_sigil (json_dumps None 0 (PDict out)).

Definition generate_dart (z : archive) : M unit :=
  out ← foldM (add_entry z) [] (namelist z);
  let data := literal_of out in
  emit (WriteFile OUTPUT None (PREFIX ++ data ++ [59])).

End crowdin.

(** ** crowdin_to_dart.py *)

Module crowdin_to_dart.

Definition lang_entries : list (str * str) :=
  Eval cbv in map (fun kv => (str_of (fst kv), str_of (snd kv)))
    [("ar", "ar-ar"); ("ast", "ast-es"); ("bg", "bul-bg"); ("cs", "cs-cz");
     ("de", "de-de"); ("el", "el-gr"); ("es-ES", "es-es"); ("fa", "fa-ir");
     ("fil", "fil-ph"); ("fr", "fr-fr"); ("he", "he-il"); ("hi", "hi-in");
     ("hr", "hr-hr"); ("hu", "hu-hu"); ("id", "id-id"); ("it", "it-it");
     ("ko", "ko-ko"); ("nl", "nl-nl"); ("pl", "pl-pl"); ("pt-BR", "pt-br");
     ("ro", "ro-ro"); ("ru", "ru-ru"); ("sk", "sk-sk"); ("sl", "sl-sl");
     ("tr", "tr-tr"); ("uk", "uk-ua"); ("ur-PK", "ur-pk"); ("vi", "vi-vi");
     ("zh-CN", "zh-cn")]%string.

Definition lang_crowdin : gmap str str := list_to_map lang_entries.

Definition OUTPUT : str := Eval cbv in str_of "../lib/languages/crowdin_new.dart".

(** *** The regular expressions of [convert_to_single_quotes]

    Both patterns are matched by deterministic scanners. This agrees with
    the backtracking matcher of [re]: what follows each starred group is a
    single literal character that no iteration of the group can begin with,
    so giving back iterations never opens another match. *)

(** [\s] on [str] patterns: the Unicode white space. *)
Definition is_space (c : N) : bool :=
  ((9 <=? c) && (c <=? 13)) || ((28 <=? c) && (c <=? 32))
  || (c =? 133) || (c =? 160) || (c =? 5760)
  || ((8192 <=? c) && (c <=? 8202))
  || (c =? 8232) || (c =? 8233) || (c =? 8239) || (c =? 8287) || (c =? 12288).

(** [\s*], greedy: what is left after the white space. *)
Fixpoint skip_space (s : str) : str :=
  match s with
  | c :: s' => if is_space c then skip_space s' else s
  | [] => []
  end.

(** The group of the first pattern, a starred alternation of one character
    that is neither a double quote nor a backslash and of a backslash
    followed by any character but a line feed: greedy, giving the text
    matched and what is left. *)
Fixpoint scan_body (s : str) : str * str :=
  match s with
  | [] => ([], [])
  | c :: s' =>
      if c =? DQUOTE then ([], s)
      else if c =? BSLASH then
        match s' with
        | [] => ([], s)
        | d :: s'' =>
            if d =? LF then ([], s)
            else let (m, r) := scan_body s'' in (c :: d :: m, r)
        end
      else let (m, r) := scan_body s' in (c :: m, r)
  end.

(** The first pattern anchored at the head of [s]: a double quote, the
    group, a double quote, a colon, [\s*], a double quote, the group, a
    double quote. It gives the two groups and what is left after the match. *)
Definition match_pair (s : str) : option (str * str * str) :=
  match s with
  | q1 :: s1 =>
      if q1 =? DQUOTE then
        let (key, r1) := scan_body s1 in
        match r1 with
        | q2 :: c :: r2 =>
            if (q2 =? DQUOTE) && (c =? 58) then
              match skip_space r2 with
              | q3 :: r3 =>
                  if q3 =? DQUOTE then
                    let (value, r4) := scan_body r3 in
                    match r4 with
                    | q4 :: rest => if q4 =? DQUOTE then Some (key, value, rest) else None
                    | [] => None
                    end
                  else None
              | [] => None
              end
            else None
        | _ => None
        end
      else None
  | [] => None
  end.

(** [re.sub(pattern, repl, s)] for a pattern that matches no empty text:
    [attempt] is the anchored match, giving the replacement text and what is
    left after the match; [skip] counts the matched characters still to pass. *)
Fixpoint re_sub (attempt : str -> option (str * str)) (skip : nat) (s : str) : str :=
  match s with
  | [] => []
  | c :: s' =>
      match skip with
      | S k => re_sub attempt k s'
      | O =>
          match attempt s with
          | Some (repl, rest) => repl ++ re_sub attempt (length s' - length rest) s'
          | None => c :: re_sub attempt 0 s'
          end
      end
  end.

(** Whether an apostrophe is [in] the string. *)
Definition has_apostrophe (s : str) : bool := contains [SQUOTE] s.

(** The f-strings of [replace_quotes]. *)
Definition requote (s : str) : str :=
  if has_apostrophe s then DQUOTE :: s ++ [DQUOTE] else SQUOTE :: s ++ [SQUOTE].

Definition replace_quotes (key value : str) : str :=
  requote key ++ [58; 32] ++ requote value.

Definition replace_locale_quotes (locale : str) : str :=
  SQUOTE :: locale ++ [SQUOTE; 58; 32; 123].

Section Convert.

(** [\w] is the Unicode alphanumerics and the underscore. Outside ASCII the
    alphanumerics are Python's Unicode tables, taken as a parameter. *)
Variable unicode_alnum : N -> bool.

Definition is_word (c : N) : bool :=
  if c <? 128 then
    ((48 <=? c) && (c <=? 57)) || ((65 <=? c) && (c <=? 90))
    || (c =? 95) || ((97 <=? c) && (c <=? 122))
  else unicode_alnum c.

(** [\w*], greedy. *)
Fixpoint scan_word (s : str) : str * str :=
  match s with
  | [] => ([], [])
  | c :: s' =>
      if is_word c then let (m, r) := scan_word s' in (c :: m, r) else ([], s)
  end.

(** A run of word characters is in [\w+_\w+] when an underscore stands
    neither first nor last in it. *)
Definition word_underscore_word (w : str) : bool :=
  existsb (N.eqb 95) (removelast (tail w)).

(** The second pattern anchored at the head of [s]: a double quote, the
    group [\w+_\w+], a double quote, a colon, [\s*], an opening brace. *)
Definition match_locale (s : str) : option (str * str) :=
  match s with
  | q1 :: s1 =>
      if q1 =? DQUOTE then
        let (w, r1) := scan_word s1 in
        if word_underscore_word w then
          match r1 with
          | q2 :: c :: r2 =>
              if (q2 =? DQUOTE) && (c =? 58) then
                match skip_space r2 with
                | b :: rest => if b =? 123 then Some (w, rest) else None
                | [] => None
                end
              else None
          | _ => None
          end
        else None
      else None
  | [] => None
  end.

Definition sub_pairs (s : str) : str :=
  re_sub (fun t => match match_pair t with
                   | Some (key, value, rest) => Some (replace_quotes key value, rest)
                   | None => None
                   end) 0 s.

Definition sub_locales (s : str) : str :=
  re_sub (fun t => match match_locale t with
                   | Some (locale, rest) => Some (replace_locale_quotes locale, rest)
                   | None => None
                   end) 0 s.

Definition convert_to_single_quotes (json_str : str) : str :=
  let single_quote_json := sub_pairs json_str in
  let single_quote_json := sub_locales single_quote_json in
  single_quote_json.

(** The body of the loop: a code that is not in the table is passed over. *)
Definition add_entry (z : archive) (out : list (str * pyval)) (file : str)
  : list (str * pyval) :=
  if contains MARKER file then
    let data := read_pairs z file in
    let lang := split_head SLASH file in
    match lang_crowdin !! lang with
    | Some code => dict_set code (json_loads data) out
    | None => out
    end
  else out.

Definition collect (z : archive) : list (str * pyval) :=
  fold_left (add_entry z) (sorted (namelist z)) [].

Definition literal_of (out : list (str * pyval)) : str :=
  convert_to_single_quotes (escape_sigil (json_dumps (Some 2%nat) 0 (PDict out))).

Definition generate_dart (z : archive) : M unit :=
  let out := collect z in
  let single_quote_data := literal_of out in
  emit (WriteFile OUTPUT (Some UTF8) (PREFIX ++ single_quote_data ++ [59])).

End Convert.

End crowdin_to_dart.

(** ** [ast.literal_eval] *)

(** The Python literals the generated file is made of: dictionary displays
    whose keys are string literals and whose values are string literals or
    such displays again, with single or double quotes, the escape sequences
    of plain string literals and white space between tokens. [None] stands
    for the exception Python raises and also for a text outside this
    fragment (numbers, lists, prefixed or adjacent string literals, octal
    and named escapes, comments, text after the literal). *)
Module ast.

Definition is_quote (c : N) : bool := (c =? DQUOTE) || (c =? SQUOTE).

(** White space between the tokens inside a display. *)
Definition is_blank (c : N) : bool :=
  (c =? 32) || (c =? 9) || (c =? 10) || (c =? 13) || (c =? 12).

Fixpoint skip_blank (s : str) : str :=
  match s with
  | c :: s' => if is_blank c then skip_blank s' else s
  | [] => []
  end.

Definition hex_value (c : N) : option N :=
  if (48 <=? c) && (c <=? 57) then Some (c - 48)
  else if (97 <=? c) && (c <=? 102) then Some (c - 87)
  else if (65 <=? c) && (c <=? 70) then Some (c - 55)
  else None.

(** The one-letter escapes. *)
Definition simple_escape (e : N) : option N :=
  if e =? 92 then Some 92
  else if e =? 39 then Some 39
  else if e =? 34 then Some 34
  else if e =? 110 then Some 10
  else if e =? 114 then Some 13
  else if e =? 116 then Some 9
  else if e =? 98 then Some 8
  else if e =? 102 then Some 12
  else if e =? 97 then Some 7
  else if e =? 118 then Some 11
  else None.

(** Escapes the model does not decode: octal digits, [\N] and [\U]. *)
Definition unsupported_escape (e : N) : bool :=
  ((48 <=? e) && (e <=? 55)) || (e =? 78) || (e =? 85).

(** The body of a string literal opened by the quote [q]: the decoded text
    and what is left after the closing quote. A line break in the literal
    is an error; a backslash before a line feed continues the line; a
    backslash before any other character stays, with that character. *)
Fixpoint parse_string (q : N) (s : str) : option (str * str) :=
  match s with
  | [] => None
  | c :: s' =>
      if c =? q then Some ([], s')
      else if (c =? 10) || (c =? 13) then None
      else if c =? BSLASH then
        match s' with
        | [] => None
        | e :: s'' =>
            match simple_escape e with
            | Some d =>
                match parse_string q s'' with
                | Some (t, r) => Some (d :: t, r)
                | None => None
                end
            | None =>
                if e =? 117 then
                  match s'' with
                  | h1 :: h2 :: h3 :: h4 :: s5 =>
                      match hex_value h1, hex_value h2, hex_value h3, hex_value h4 with
                      | Some a, Some b, Some c', Some d =>
                          match parse_string q s5 with
                          | Some (t, r) => Some (((a * 16 + b) * 16 + c') * 16 + d :: t, r)
                          | None => None
                          end
                      | _, _, _, _ => None
                      end
                  | _ => None
                  end
                else if e =? 120 then
                  match s'' with
                  | h1 :: h2 :: s3 =>
                      match hex_value h1, hex_value h2 with
                      | Some a, Some b =>
                          match parse_string q s3 with
                          | Some (t, r) => Some (a * 16 + b :: t, r)
                          | None => None
                          end
                      | _, _ => None
                      end
                  | _ => None
                  end
                else if e =? 10 then parse_string q s''
                else if (e =? 13) || unsupported_escape e then None
                else
                  match parse_string q s'' with
                  | Some (t, r) => Some (BSLASH :: e :: t, r)
                  | None => None
                  end
            end
        end
      else
        match parse_string q s' with
        | Some (t, r) => Some (c :: t, r)
        | None => None
        end
  end.

(** A value, and the members of a display after its opening brace or after
    a comma. A repeated key keeps its position and takes the later value. *)
Fixpoint parse_value (fuel : nat) (s : str) : option (pyval * str) :=
  match fuel with
  | O => None
  | S n =>
      match skip_blank s with
      | [] => None
      | c :: r =>
          if is_quote c then
            match parse_string c r with
            | Some (t, r') => Some (PStr t, r')
            | None => None
            end
          else if c =? 123 then parse_members n r []
          else None
      end
  end
with parse_members (fuel : nat) (s : str) (acc : list (str * pyval))
  : option (pyval * str) :=
  match fuel with
  | O => None
  | S n =>
      match skip_blank s with
      | [] => None
      | c :: r =>
          if c =? 125 then Some (PDict acc, r)
          else if is_quote c then
            match parse_string c r with
            | Some (k, r1) =>
                match skip_blank r1 with
                | c1 :: r2 =>
                    if c1 =? 58 then
                      match parse_value n r2 with
                      | Some (v, r3) =>
                          match skip_blank r3 with
                          | c3 :: r4 =>
                              if c3 =? 44 then parse_members n r4 (dict_set k v acc)
                              else if c3 =? 125 then Some (PDict (dict_set k v acc), r4)
                              else None
                          | [] => None
                          end
                      | None => None
                      end
                    else None
                | [] => None
                end
            | None => None
            end
          else None
      end
  end.

(** The [lstrip] of blanks and tabs that [literal_eval] applies first. *)
Fixpoint lstrip (s : str) : str :=
  match s with
  | c :: s' => if (c =? 32) || (c =? 9) then lstrip s' else s
  | [] => []
  end.

Definition literal_eval (text : str) : option pyval :=
  if existsb (N.eqb 0) text then None
  else
    match parse_value (S (length text)) (lstrip text) with
    | Some (v, []) => Some v
    | _ => None
    end.

End ast.

(** ** dart_to_crowdin.py *)

Module dart_to_crowdin.

Definition START : str := PREFIX.
Definition END_MARK : str := Eval cbv in str_of "};".
Definition ROOT : str := Eval cbv in str_of "./saturn".
Definition FILE_NAME : str := Eval cbv in str_of "saturn.json".
Definition ARCHIVE_BASE : str := Eval cbv in str_of "saturn".
Definition ARCHIVE_FORMAT : str := Eval cbv in str_of "zip".

(** [os.path.join(a, b)] of [posixpath]. *)
Definition path_join (a b : str) : str :=
  if startswith SLASH b then b
  else if bool_decide (a = []) || bool_decide (last a = Some 47) then a ++ b
  else a ++ SLASH ++ b.

(** The reverse unescape: [replace] of a backslash and the sigil by the sigil. *)
Definition unescape_sigil (s : str) : str := str_replace [BSLASH; DOLLAR] [DOLLAR] s.

Section Reverse.

Variable literal_eval : str -> option pyval.

(** The statements up to and including [ast.literal_eval]. *)
Definition parse_stage (content : str) : M pyval :=
  start ← or_raise ValueError (index START content);
  end_ ← or_raise ValueError (rindex END_MARK content);
  let crowdin_json := slice (start + length START) (end_ + 1) content in
  let crowdin_json := unescape_sigil crowdin_json in
  or_raise LiteralError (literal_eval crowdin_json).

(** [crowdin_dict.items()] *)
Definition items (v : pyval) : M (list (str * pyval)) :=
  match v with
  | PDict d => mret d
  | PStr _ => raise AttributeError
  end.

(** The body of the loop over the locales. *)
Definition write_locale (entry : str * pyval) : M unit :=
  let (locale, translations) := entry in
  let json_content := json_dumps (Some 2%nat) 0 translations in
  let output_dir := path_join ROOT locale in
  emit (MakeDirs output_dir true);;
  let output_file := path_join output_dir FILE_NAME in
  emit (WriteFile output_file (Some UTF8) json_content).

(** [content] is the text read from [input_file]. *)
Definition process_dart_file (content : str) : M unit :=
  crowdin_dict ← parse_stage content;
  entries ← items crowdin_dict;
  forM entries write_locale;;
  emit (MakeArchive ARCHIVE_BASE ARCHIVE_FORMAT ROOT);;
  emit (RmTree ROOT).

End Reverse.

End dart_to_crowdin.

(** * Properties *)

(** ** The model on the examples of the specification *)

Example dumps_compact :
  json_dumps None 0
    (PDict [(lit "de-de", PDict [(lit "hello", PStr (lit "Hallo"))]);
            (lit "fr-fr", PDict [(lit "hello", PStr (lit "Bonjour")); (lit "x", PStr [1; 233; 36])])])
  = lit "{`de-de`: {`hello`: `Hallo`}, `fr-fr`: {`hello`: `Bonjour`, `x`: `\u0001" ++ [233; 36] ++ lit "`}}".
Proof. vm_compute. reflexivity. Qed.

Example dumps_indent :
  json_dumps (Some 2%nat) 0
    (PDict [(lit "de-de", PDict [(lit "hello", PStr (lit "Hallo")); (lit "a", PStr [])]);
            (lit "fr-fr", PDict [])])
  = lit "{~  `de-de`: {~    `hello`: `Hallo`,~    `a`: ``~  },~  `fr-fr`: {}~}".
Proof. vm_compute. reflexivity. Qed.

Example convert_hello :
  crowdin_to_dart.convert_to_single_quotes (fun _ => false) (lit "{~  `de-de`: {~    `hello`: `Hallo`~  }~}")
  = lit "{~  `de-de`: {~    'hello': 'Hallo'~  }~}".
Proof. vm_compute. reflexivity. Qed.

Example convert_mixed :
  crowdin_to_dart.convert_to_single_quotes (fun _ => false)
    (lit "{~  `de-de`: {~    `a`: `it's \$5`,~    `b'c`: `x\`y`,~    `k`: `\u0001\n\\\$`~  }~}")
  = lit "{~  `de-de`: {~    'a': `it's \$5`,~    `b'c`: 'x\`y',~    'k': '\u0001\n\\\$'~  }~}".
Proof. vm_compute. reflexivity. Qed.

Example convert_underscore :
  crowdin_to_dart.convert_to_single_quotes (fun _ => false) (lit "{~  `de_de`: {~    `a`: `b`~  }~}")
  = lit "{~  'de_de': {~    'a': 'b'~  }~}".
Proof. vm_compute. reflexivity. Qed.

Example convert_colon_key :
  crowdin_to_dart.convert_to_single_quotes (fun _ => false) (lit "{~  `de-de`: {~    `:`: `it's`~  }~}")
  = lit "{~  `de-de': {~    ': ': 'it's`~  }~}".
Proof. vm_compute. reflexivity. Qed.

Example eval_mixed :
  ast.literal_eval (lit " {'a':~`b`, 'a': 'c\$\q\x41\u00e9' , `d`: {}, 'e': {'f': 'g',},}")
  = Some (PDict [(lit "a", PStr (lit "c\$\qA" ++ [233])); (lit "d", PDict []);
                 (lit "e", PDict [(lit "f", PStr (lit "g"))])]).
Proof. vm_compute. reflexivity. Qed.

Example eval_line_break : ast.literal_eval (lit "{`de-de': {~ 'a': 'b'}") = None.
Proof. vm_compute. reflexivity. Qed.

Example reverse_hello :
  dart_to_crowdin.process_dart_file ast.literal_eval (lit "const crowdin = {'de-de': {'hello': `Hallo`}};")
  = ([MakeDirs (lit "./saturn/de-de") true;
      WriteFile (lit "./saturn/de-de/saturn.json") (Some UTF8) (lit "{~  `hello`: `Hallo`~}");
      MakeArchive (lit "saturn") (lit "zip") (lit "./saturn");
      RmTree (lit "./saturn")], inr tt).
Proof. vm_compute. reflexivity. Qed.

(** ** Strings *)

Lemma startswith_true p s : startswith p s = true <-> exists r, s = p ++ r.
Proof.
  revert s. induction p as [|a p IH]; intros s; simpl.
  - split; [intros _; by exists s | done].
  - destruct s as [|b s]; simpl.
    + split; [done | intros [r Hr]; discriminate].
    + rewrite andb_true_iff, N.eqb_eq, IH. split.
      * intros [-> [r ->]]. by exists r.
      * intros [r Hr]. injection Hr as -> ->. split; [done | by exists r].
Qed.

Lemma startswith_app p r : startswith p (p ++ r) = true.
Proof. apply startswith_true. by exists r. Qed.

Lemma startswith_length p s : startswith p s = true -> (length p <= length s)%nat.
Proof. intros [r ->]%startswith_true. rewrite length_app. lia. Qed.

(** [sub] occurs in [s]. *)
Definition occurs (sub s : str) : Prop := exists a b, s = a ++ sub ++ b.

Lemma index_from_Some sub s i j :
  index_from sub s i = Some j ->
  (i <= j)%nat /\ startswith sub (drop (j - i) s) = true /\ (j - i <= length s)%nat.
Proof.
  revert i. induction s as [|c s IH]; intros i; simpl.
  - destruct (startswith sub []) eqn:E; [|done]. intros [= <-].
    rewrite Nat.sub_diag. simpl. done.
  - destruct (startswith sub (c :: s)) eqn:E.
    + intros [= <-]. rewrite Nat.sub_diag. simpl. split; [lia | split; [done | lia]].
    + intros H. apply IH in H as (Hle & Hs & Hlen).
      replace (j - i)%nat with (S (j - S i)) by lia. simpl. split; [lia | split; [done | lia]].
Qed.

Lemma index_from_None sub s i :
  index_from sub s i = None <-> ~ occurs sub s.
Proof.
  revert i. induction s as [|c s IH]; intros i; simpl.
  - destruct (startswith sub []) eqn:E.
    + split; [done | intros H; exfalso; apply H].
      apply startswith_true in E as [r Hr]. exists [], r. done.
    + split; [intros _ | done]. intros (a & b & Hab).
      destruct a; [|done]. simpl in Hab.
      assert (startswith sub [] = true) by (apply startswith_true; eauto). congruence.
  - destruct (startswith sub (c :: s)) eqn:E.
    + split; [done | intros H; exfalso; apply H].
      apply startswith_true in E as [r Hr]. exists [], r. done.
    + rewrite IH. split; intros H (a & b & Hab); apply H.
      * destruct a as [|x a]; simpl in Hab.
        -- assert (startswith sub (c :: s) = true) by (apply startswith_true; eauto). congruence.
        -- injection Hab as -> ->. by exists a, b.
      * exists (c :: a), b. by rewrite Hab.
Qed.

Lemma contains_false sub s : contains sub s = false <-> ~ occurs sub s.
Proof.
  unfold contains, index. rewrite <- (index_from_None sub s 0).
  destruct (index_from sub s 0); split; congruence.
Qed.

Lemma contains_true sub s : contains sub s = true <-> occurs sub s.
Proof.
  pose proof (contains_false sub s) as H.
  destruct (contains sub s); split; try done.
  - intros _. unfold contains, index in *.
    destruct (index_from sub s 0) as [j|] eqn:E.
    + apply index_from_Some in E as (_ & [r Hr]%startswith_true & _).
      rewrite Nat.sub_0_r in Hr. exists (take j s), r.
      by rewrite <- Hr, take_drop.
    + apply index_from_None in E. by apply H in E.
  - intros Ho. exfalso. by apply H.
Qed.

Lemma index_None sub s : index sub s = None <-> ~ occurs sub s.
Proof. apply index_from_None. Qed.

Lemma rindex_from_Some sub s i j :
  rindex_from sub s i = Some j ->
  (i <= j)%nat /\ startswith sub (drop (j - i) s) = true /\ (j - i <= length s)%nat.
Proof.
  revert i. induction s as [|c s IH]; intros i; simpl.
  - destruct (startswith sub []) eqn:E; [|done]. intros [= <-].
    rewrite Nat.sub_diag. simpl. done.
  - destruct (rindex_from sub s (S i)) as [j'|] eqn:E.
    + intros [= <-]. apply IH in E as (Hle & Hs & Hlen).
      replace (j' - i)%nat with (S (j' - S i)) by lia. simpl.
      split; [lia | split; [done | lia]].
    + destruct (startswith sub (c :: s)) eqn:E2; [|done]. intros [= <-].
      rewrite Nat.sub_diag. simpl. split; [lia | split; [done | lia]].
Qed.

Lemma rindex_from_ge sub s i k :
  (k <= length s)%nat -> startswith sub (drop k s) = true ->
  exists j, rindex_from sub s i = Some j /\ (i + k <= j)%nat.
Proof.
  revert i k. induction s as [|c s IH]; intros i k Hk Hs; simpl in *.
  - assert (k = 0%nat) as -> by lia. simpl in Hs. rewrite Hs.
    exists i. split; [done | lia].
  - destruct k as [|k]; simpl in Hs.
    + destruct (rindex_from sub s (S i)) as [j'|] eqn:E.
      * apply rindex_from_Some in E as (Hle & _). exists j'. split; [done | lia].
      * rewrite Hs. exists i. split; [done | lia].
    + destruct (IH (S i) k) as (j & -> & Hj); [lia | done |].
      exists j. split; [done | lia].
Qed.

Lemma rindex_None sub s : rindex sub s = None <-> ~ occurs sub s.
Proof.
  unfold rindex. split.
  - intros H (a & b & ->).
    destruct (rindex_from_ge sub (a ++ sub ++ b) 0 (length a)) as (j & Hj & _).
    + rewrite length_app. lia.
    + rewrite drop_app_length. apply startswith_app.
    + congruence.
  - intros H. destruct (rindex_from sub s 0) as [j|] eqn:E; [|done].
    exfalso. apply H. apply rindex_from_Some in E as (_ & [r Hr]%startswith_true & _).
    rewrite Nat.sub_0_r in Hr. exists (take j s), r. by rewrite <- Hr, take_drop.
Qed.

(** The last occurrence of a text that ends the string. *)
Lemma rindex_suffix sub p :
  sub <> [] -> rindex sub (p ++ sub) = Some (length p).
Proof.
  intros Hne. unfold rindex.
  destruct (rindex_from_ge sub (p ++ sub) 0 (length p)) as (j & Hj & Hle).
  - rewrite length_app. lia.
  - rewrite drop_app_length. rewrite <- (app_nil_r sub) at 2. apply startswith_app.
  - rewrite Hj. f_equal.
    apply rindex_from_Some in Hj as (_ & Hs%startswith_length & _).
    rewrite Nat.sub_0_r, length_drop, length_app in Hs.
    destruct sub; [done|]. simpl in *. lia.
Qed.

Lemma index_prefix sub r : index sub (sub ++ r) = Some 0%nat.
Proof.
  unfold index. pose proof (startswith_app sub r) as H.
  destruct (sub ++ r); simpl; by rewrite H.
Qed.

(** Replacing one character is a [flat_map]. *)
Lemma replace_char c new s :
  str_replace [c] new s = flat_map (fun x => if x =? c then new else [x]) s.
Proof.
  unfold str_replace. induction s as [|x s IH]; simpl; [done|].
  rewrite N.eqb_sym. destruct (x =? c) eqn:E; simpl.
  - by rewrite IH.
  - by rewrite IH.
Qed.

(** What the forward escape writes for one character: a backslash and the
    sigil for the sigil, the character itself otherwise. *)
Definition escape_char (x : N) : str := if x =? DOLLAR then [BSLASH; DOLLAR] else [x].

Lemma escape_sigil_flat s : escape_sigil s = flat_map escape_char s.
Proof. apply replace_char. Qed.

Lemma escape_sigil_app a b : escape_sigil (a ++ b) = escape_sigil a ++ escape_sigil b.
Proof. rewrite !escape_sigil_flat. apply flat_map_app. Qed.

Lemma escape_sigil_head s : head (escape_sigil s) <> Some DOLLAR.
Proof.
  rewrite escape_sigil_flat. destruct s as [|x s]; simpl; [done|].
  unfold escape_char. destruct (N.eqb_spec x DOLLAR); simpl; [done|]. congruence.
Qed.

Lemma unescape_match t :
  dart_to_crowdin.unescape_sigil (BSLASH :: DOLLAR :: t)
  = DOLLAR :: dart_to_crowdin.unescape_sigil t.
Proof. reflexivity. Qed.

Lemma unescape_other x t :
  x <> BSLASH \/ head t <> Some DOLLAR ->
  dart_to_crowdin.unescape_sigil (x :: t) = x :: dart_to_crowdin.unescape_sigil t.
Proof.
  intros H. unfold dart_to_crowdin.unescape_sigil, str_replace.
  cbn [replace_from startswith].
  destruct (N.eqb_spec BSLASH x) as [<-|Hb]; [|done].
  destruct t as [|y t]; [done|]. cbn [startswith].
  destruct (N.eqb_spec DOLLAR y) as [<-|Hy]; [|done].
  destruct H; done.
Qed.

(** The reverse unescape undoes the forward escape on every text. *)
Lemma unescape_escape s : dart_to_crowdin.unescape_sigil (escape_sigil s) = s.
Proof.
  induction s as [|x s IH]; [done|].
  change (x :: s) with ([x] ++ s). rewrite escape_sigil_app.
  pose proof (escape_sigil_head s) as Hh.
  rewrite escape_sigil_flat at 1. cbn [flat_map app]. unfold escape_char at 1.
  destruct (N.eqb_spec x DOLLAR) as [->|Hx]; cbn [app].
  - by rewrite unescape_match, IH.
  - rewrite unescape_other by (by right). by rewrite IH.
Qed.

(** ** The effect monad *)

Lemma bind_raise {A B} (e : exn) (f : A -> M B) : (raise e ≫= f) = raise e.
Proof. reflexivity. Qed.

Lemma bind_ret {A B} (a : A) (f : A -> M B) : (mret a ≫= f) = f a.
Proof. unfold mret, mbind, M_ret, M_bind. destruct (f a). reflexivity. Qed.

Lemma bind_pure {A B} (t : list fs_op) (a : A) (f : A -> M B) :
  ((t, inr a) ≫= f) = (t ++ trace (f a), outcome (f a)).
Proof. unfold mbind, M_bind. by destruct (f a). Qed.

Lemma bind_fail {A B} (t : list fs_op) (e : exn) (f : A -> M B) :
  (((t, inl e) : M A) ≫= f) = (t, inl e).
Proof. reflexivity. Qed.

(** A loop whose body only makes calls makes them in order. *)
Lemma forM_calls {A} (l : list A) (body : A -> M unit) (calls : A -> list fs_op) :
  (forall x, body x = (calls x, inr tt)) ->
  forM l body = (flat_map calls l, inr tt).
Proof.
  intros Hb. induction l as [|x l IH]; [done|].
  simpl. rewrite Hb, bind_pure, IH. reflexivity.
Qed.

(** A loop whose body makes no call and raises nothing is a fold. *)
Lemma foldM_pure {S A} (body : S -> A -> M S) (f : S -> A -> S) (s : S) (l : list A) :
  (forall s x, body s x = mret (f s x)) ->
  foldM body s l = mret (fold_left f l s).
Proof.
  intros Hb. revert s. induction l as [|x l IH]; intros s; [done|].
  simpl. by rewrite Hb, bind_ret, IH.
Qed.

(** ** C4: the two mapping tables *)

Definition ascii_lower (c : N) : N := if (65 <=? c) && (c <=? 90) then c + 32 else c.

Definition NL : str := Eval cbv in str_of "nl".
Definition SL : str := Eval cbv in str_of "sl".
Definition ZH_CN : str := Eval cbv in str_of "zh-CN".

(** C4, as stated, fails: the tables of crowdin.py and crowdin_to_dart.py
    give different app-side codes for the vendor code nl, so they are not
    equal as mappings. *)
Lemma C4_tables_differ :
  crowdin.lang_crowdin !! NL = Some (str_of "nl-NL") /\
  crowdin_to_dart.lang_crowdin !! NL = Some (str_of "nl-nl") /\
  crowdin.lang_crowdin <> crowdin_to_dart.lang_crowdin.
Proof.
  assert (crowdin.lang_crowdin !! NL = Some (str_of "nl-NL")) as H1
    by (vm_compute; reflexivity).
  assert (crowdin_to_dart.lang_crowdin !! NL = Some (str_of "nl-nl")) as H2
    by (vm_compute; reflexivity).
  split; [done | split; [done|]].
  intros H. rewrite H, H2 in H1. vm_compute in H1. discriminate.
Qed.

(** C4, amended: the two tables have the same set of vendor codes; they give
    the same app-side code for every vendor code but nl, sl and zh-CN; and
    there the codes differ in letter case only, the table of crowdin_to_dart.py
    being the one of crowdin.py in lower case. *)
Theorem C4_tables_agree_up_to_case :
  dom crowdin.lang_crowdin = dom crowdin_to_dart.lang_crowdin /\
  delete NL (delete SL (delete ZH_CN crowdin.lang_crowdin))
    = delete NL (delete SL (delete ZH_CN crowdin_to_dart.lang_crowdin)) /\
  (map ascii_lower <$> crowdin.lang_crowdin) = crowdin_to_dart.lang_crowdin.
Proof. split; [|split]; vm_compute; reflexivity. Qed.

(** ** The reverse converter *)

Section ReverseFacts.

Import dart_to_crowdin.

Variable literal_eval : str -> option pyval.

(** The text handed to [ast.literal_eval], when both markers are found. *)
Definition extracted (content : str) : option str :=
  match index START content, rindex END_MARK content with
  | Some start, Some end_ =>
      Some (unescape_sigil (slice (start + length START) (end_ + 1) content))
  | _, _ => None
  end.

(** The parse stage fails: a marker is missing, or the text between the
    markers is rejected by the literal parser. *)
Definition parse_fails (content : str) : Prop :=
  contains START content = false \/
  contains END_MARK content = false \/
  exists text, extracted content = Some text /\ literal_eval text = None.

Lemma contains_index_None sub s : contains sub s = false -> index sub s = None.
Proof. unfold contains. by destruct (index sub s). Qed.

Lemma contains_rindex_None sub s : contains sub s = false -> rindex sub s = None.
Proof. intros H%contains_false. by apply rindex_None. Qed.

Lemma parse_stage_fails content :
  parse_fails content ->
  parse_stage literal_eval content = raise ValueError \/
  parse_stage literal_eval content = raise LiteralError.
Proof.
  unfold parse_fails, extracted, parse_stage.
  intros [H|[H|(text & Ht & He)]].
  - left. by rewrite (contains_index_None _ _ H).
  - left. rewrite (contains_rindex_None _ _ H).
    destruct (index START content); cbn [or_raise]; [by rewrite bind_ret | done].
  - right. destruct (index START content) as [start|]; [|done].
    destruct (rindex END_MARK content) as [end_|]; [|done].
    injection Ht as <-. cbn [or_raise]. rewrite !bind_ret.
    change (length START) with 16%nat. by rewrite He.
Qed.

Lemma parse_stage_ok content text v :
  extracted content = Some text -> literal_eval text = Some v ->
  parse_stage literal_eval content = mret v.
Proof.
  unfold extracted, parse_stage. intros Ht He.
  destruct (index START content) as [start|]; [|done].
  destruct (rindex END_MARK content) as [end_|]; [|done].
  injection Ht as <-. cbn [or_raise]. rewrite !bind_ret.
    change (length START) with 16%nat. by rewrite He.
Qed.

(** The calls made for one locale. *)
Definition locale_calls (entry : str * pyval) : list fs_op :=
  [MakeDirs (path_join ROOT (fst entry)) true;
   WriteFile (path_join (path_join ROOT (fst entry)) FILE_NAME) (Some UTF8)
     (json_dumps (Some 2%nat) 0 (snd entry))].

Lemma write_locale_calls entry : write_locale entry = (locale_calls entry, inr tt).
Proof. by destruct entry. Qed.

Lemma process_ok content d :
  parse_stage literal_eval content = mret (PDict d) ->
  process_dart_file literal_eval content
  = (flat_map locale_calls d
       ++ [MakeArchive ARCHIVE_BASE ARCHIVE_FORMAT ROOT; RmTree ROOT], inr tt).
Proof.
  intros H. unfold process_dart_file. rewrite H, bind_ret. cbn [items]. rewrite bind_ret.
  rewrite (forM_calls _ _ locale_calls write_locale_calls).
  rewrite bind_pure. reflexivity.
Qed.

Lemma process_fails content :
  parse_fails content ->
  process_dart_file literal_eval content = raise ValueError \/
  process_dart_file literal_eval content = raise LiteralError.
Proof.
  intros H. unfold process_dart_file.
  destruct (parse_stage_fails content H) as [-> | ->]; [by left | by right].
Qed.

End ReverseFacts.

Ltac case_eqb :=
  match goal with
  | |- context [N.eqb ?a ?b] => destruct (N.eqb_spec a b)
  end.

(** Every code point from U+0080 on is written as it is. *)
Lemma json_escape_non_ascii c : 128 <= c -> json_escape_char c = [c].
Proof.
  intros H. unfold json_escape_char.
  repeat case_eqb; try lia.
  destruct (N.ltb_spec c 32); [lia | done].
Qed.

(** The layout of a flat bundle with indent 2: every member on a line of its
    own behind exactly two blanks, the closing brace on the last line. *)
Definition bundle_line (kv : str * str) : str :=
  encode_basestring (fst kv) ++ [58; 32] ++ encode_basestring (snd kv).

Fixpoint bundle_lines (indent : str) (l : list (str * str)) : str :=
  match l with
  | [] => []
  | kv :: l' => 44 :: LF :: indent ++ bundle_line kv ++ bundle_lines indent l'
  end.

Definition flat (pairs : list (str * str)) : list (str * pyval) :=
  map (fun kv => (fst kv, PStr (snd kv))) pairs.

Lemma join_members_flat level l :
  join_members (json_dumps (Some 2%nat) (S level))
    (item_separator (Some 2%nat) (S level)) (flat l)
  = bundle_lines (List.repeat 32 (2 * S level)) l.
Proof.
  induction l as [|[k v] l IH]; [done|].
  cbn [flat map join_members bundle_lines fst snd]. unfold flat in IH. rewrite IH.
  unfold item_separator, newline_indent, bundle_line, key_separator.
  cbn [json_dumps fst snd]. by rewrite <- !app_assoc.
Qed.

Lemma json_dumps_flat level kv l :
  json_dumps (Some 2%nat) level (PDict (flat (kv :: l)))
  = 123 :: LF :: List.repeat 32 (2 * S level) ++ bundle_line kv
      ++ bundle_lines (List.repeat 32 (2 * S level)) l
      ++ LF :: List.repeat 32 (2 * level) ++ [125].
Proof.
  destruct kv as [k v]. cbn [flat map fst snd json_dumps].
  pose proof (join_members_flat level l) as H. unfold flat in H. rewrite H.
  unfold newline_indent, bundle_line, key_separator. cbn [fst snd app].
  by rewrite <- !app_assoc.
Qed.

Lemma path_join_plain a b :
  a <> [] -> last a <> Some 47 -> head b <> Some 47 ->
  dart_to_crowdin.path_join a b = a ++ SLASH ++ b.
Proof.
  intros Ha Hl Hb. unfold dart_to_crowdin.path_join.
  assert (startswith SLASH b = false) as ->.
  { destruct b as [|c b]; [done|]. cbn [SLASH startswith].
    destruct (N.eqb_spec 47 c) as [<-|]; done. }
  by rewrite !bool_decide_eq_false_2.
Qed.







(** ** The order of names *)

Lemma str_leb_total a b : str_leb a b = true \/ str_leb b a = true.
Proof.
  revert b. induction a as [|x a IH]; intros [|y b]; simpl; auto.
  destruct (N.ltb_spec x y), (N.ltb_spec y x); simpl; auto; try lia.
  assert (x = y) as -> by lia. rewrite !N.eqb_refl. simpl. apply IH.
Qed.

Lemma str_leb_trans a b c : str_leb a b = true -> str_leb b c = true -> str_leb a c = true.
Proof.
  revert b c. induction a as [|x a IH]; intros [|y b] [|z c]; simpl; try done.
  rewrite !orb_true_iff, !andb_true_iff, !N.ltb_lt, !N.eqb_eq.
  intros [H1|[-> H1]] [H2|[-> H2]]; eauto; try (left; lia).
Qed.

Lemma str_leb_antisym a b : str_leb a b = true -> str_leb b a = true -> a = b.
Proof.
  revert b. induction a as [|x a IH]; intros [|y b]; simpl; try done.
  rewrite !orb_true_iff, !andb_true_iff, !N.ltb_lt, !N.eqb_eq.
  intros [H1|[-> H1]] [H2|[H2' H2]]; try lia. f_equal. by apply IH.
Qed.

Global Instance str_le_total : Total str_le.
Proof. intros a b. apply str_leb_total. Qed.
Global Instance str_le_trans : Transitive str_le.
Proof. intros a b c. apply str_leb_trans. Qed.
Global Instance str_le_antisym : AntiSymm (=) str_le.
Proof. intros a b. apply str_leb_antisym. Qed.

Lemma Sorted_sorted l : Sorted str_le (sorted l).
Proof. apply (Sorted_merge_sort str_le). Qed.

Lemma sorted_Permutation l : sorted l ≡ₚ l.
Proof. apply (merge_sort_Permutation str_le). Qed.

(** [sorted] does not depend on the order of its argument. *)
Lemma sorted_perm l1 l2 : l1 ≡ₚ l2 -> sorted l1 = sorted l2.
Proof.
  intros H. apply (Sorted_unique str_le); try apply Sorted_sorted.
  by rewrite !sorted_Permutation.
Qed.

Lemma StronglySorted_filter (P : str -> Prop) `{forall x, Decision (P x)} l :
  StronglySorted str_le l -> StronglySorted str_le (filter P l).
Proof.
  induction 1 as [|x l Hs IH Hx]; [constructor|].
  rewrite filter_cons. destruct (decide (P x)); [|done].
  constructor; [done|]. rewrite Forall_forall in *.
  intros y [_ Hy]%list_elem_of_filter. by apply Hx.
Qed.

Lemma sorted_filter (P : str -> Prop) `{forall x, Decision (P x)} l :
  sorted (filter P l) = filter P (sorted l).
Proof.
  apply (Sorted_unique str_le).
  - apply Sorted_sorted.
  - apply StronglySorted_Sorted, StronglySorted_filter.
    apply (Sorted_StronglySorted str_le), Sorted_sorted.
  - by rewrite !sorted_Permutation.
Qed.

(** ** The forward converters *)

(** The aggregate built from the names [names] with the table [table],
    codes outside the table being passed over. *)
Definition add_mapped (table : gmap str str) (z : archive)
  (out : list (str * pyval)) (file : str) : list (str * pyval) :=
  if contains MARKER file then
    match table !! split_head SLASH file with
    | Some code => dict_set code (json_loads (read_pairs z file)) out
    | None => out
    end
  else out.

Definition aggregate (table : gmap str str) (z : archive) (names : list str)
  : list (str * pyval) :=
  fold_left (add_mapped table z) names [].

(** A name the forward converter reads whose locale is not in the table. *)
Definition unmapped (table : gmap str str) (file : str) : Prop :=
  contains MARKER file = true /\ table !! split_head SLASH file = None.

Global Instance unmapped_dec table file : Decision (unmapped table file).
Proof. unfold unmapped. apply _. Defined.

Definition keys {V} (d : list (str * V)) : list str := map fst d.

Lemma str_eqb_eq a b : str_eqb a b = true <-> a = b.
Proof. unfold str_eqb. apply bool_decide_eq_true. Qed.

Lemma str_eqb_refl a : str_eqb a a = true.
Proof. by apply str_eqb_eq. Qed.

Lemma str_eqb_neq a b : a <> b -> str_eqb a b = false.
Proof. unfold str_eqb. apply bool_decide_eq_false_2. Qed.

Lemma keys_dict_set {V} k (v : V) d x :
  x ∈ keys (dict_set k v d) <-> x = k \/ x ∈ keys d.
Proof.
  induction d as [|[k' v'] d IH]; simpl.
  - unfold keys. simpl. rewrite list_elem_of_singleton, elem_of_nil. tauto.
  - destruct (str_eqb k k') eqn:E; unfold keys in *; simpl.
    + apply str_eqb_eq in E as ->. rewrite !elem_of_cons. tauto.
    + rewrite !elem_of_cons, IH. tauto.
Qed.

Lemma collect_is_aggregate z :
  crowdin_to_dart.collect z
  = aggregate crowdin_to_dart.lang_crowdin z (sorted (namelist z)).
Proof. reflexivity. Qed.

Lemma aggregate_keys table z names out code :
  code ∈ keys (fold_left (add_mapped table z) names out) ->
  code ∈ keys out \/
  exists file, file ∈ names /\ contains MARKER file = true
               /\ table !! split_head SLASH file = Some code.
Proof.
  revert out. induction names as [|f names IH]; intros out; simpl; [auto|].
  intros H. apply IH in H as [H | (file & Hin & Hm & Ht)].
  - unfold add_mapped in H. destruct (contains MARKER f) eqn:Hm; [|auto].
    destruct (table !! split_head SLASH f) as [c|] eqn:Ht; [|auto].
    apply keys_dict_set in H as [-> | H]; [|auto].
    right. exists f. split; [left | done].
  - right. exists file. split; [by right | done].
Qed.

Lemma fold_left_ext_in {A B} (f g : A -> B -> A) (l : list B) (a : A) :
  (forall x, x ∈ l -> forall a, f a x = g a x) -> fold_left f l a = fold_left g l a.
Proof.
  revert a. induction l as [|x l IH]; intros a H; [done|].
  simpl. rewrite (H x) by left. apply IH. intros y Hy. apply H. by right.
Qed.

Lemma fold_left_filter_skip {A B} (f : A -> B -> A) (P : B -> Prop)
  `{forall x, Decision (P x)} (l : list B) (a : A) :
  (forall x a, ~ P x -> f a x = a) -> fold_left f (filter P l) a = fold_left f l a.
Proof.
  intros Hskip. revert a. induction l as [|x l IH]; intros a; [done|].
  rewrite filter_cons. destruct (decide (P x)); simpl; [by rewrite IH|].
  by rewrite Hskip, IH.
Qed.

Lemma add_mapped_skip table z out file :
  ~ ~ unmapped table file -> add_mapped table z out file = out.
Proof.
  intros H. destruct (decide (unmapped table file)) as [[Hm Ht]|]; [|done].
  unfold add_mapped. by rewrite Hm, Ht.
Qed.

Lemma crowdin_add_entry_cases z out f :
  (~ unmapped crowdin.lang_crowdin f /\
   crowdin.add_entry z out f = mret (add_mapped crowdin.lang_crowdin z out f))
  \/ (unmapped crowdin.lang_crowdin f /\
      crowdin.add_entry z out f = raise (KeyError (split_head SLASH f))).
Proof.
  unfold crowdin.add_entry, add_mapped, unmapped.
  destruct (contains MARKER f).
  - destruct (crowdin.lang_crowdin !! split_head SLASH f) as [code|].
    + left. split; [by intros [_ ?] | cbn [or_raise]; by rewrite bind_ret].
    + right. done.
  - left. split; [by intros [? _] | done].
Qed.

(** The loop of crowdin.py: it builds the aggregate when every locale met is
    in the table and raises [KeyError] at the first one that is not. *)
Lemma crowdin_loop z names out :
  (Forall (fun file => ~ unmapped crowdin.lang_crowdin file) names /\
   foldM (crowdin.add_entry z) out names
   = mret (fold_left (add_mapped crowdin.lang_crowdin z) names out))
  \/ (exists file, file ∈ names /\ unmapped crowdin.lang_crowdin file /\
      foldM (crowdin.add_entry z) out names
      = raise (KeyError (split_head SLASH file))).
Proof.
  revert out. induction names as [|f names IH]; intros out.
  - left. split; [constructor | done].
  - cbn [foldM fold_left].
    destruct (crowdin_add_entry_cases z out f) as [[Hn ->] | [Hu ->]].
    + rewrite bind_ret.
      destruct (IH (add_mapped crowdin.lang_crowdin z out f))
        as [[Hall ->] | (file & Hin & Hu & ->)].
      * left. split; [by constructor | done].
      * right. exists file. split; [by right | done].
    + right. exists f. split; [left | done].
Qed.

Lemma crowdin_generate_mapped z :
  Forall (fun file => ~ unmapped crowdin.lang_crowdin file) (namelist z) ->
  crowdin.generate_dart z
  = ([WriteFile crowdin.OUTPUT None
        (PREFIX ++ crowdin.literal_of (aggregate crowdin.lang_crowdin z (namelist z)) ++ [59])],
     inr tt).
Proof.
  intros Hall. unfold crowdin.generate_dart.
  destruct (crowdin_loop z (namelist z) []) as [[_ ->] | (file & Hin & Hu & _)].
  - by rewrite bind_ret.
  - rewrite Forall_forall in Hall. by destruct (Hall file Hin).
Qed.

Lemma crowdin_generate_unmapped z :
  ~ Forall (fun file => ~ unmapped crowdin.lang_crowdin file) (namelist z) ->
  exists file, file ∈ namelist z /\ unmapped crowdin.lang_crowdin file /\
    crowdin.generate_dart z = raise (KeyError (split_head SLASH file)).
Proof.
  intros Hnot. unfold crowdin.generate_dart.
  destruct (crowdin_loop z (namelist z) []) as [[Hall _] | (file & Hin & Hu & ->)].
  - done.
  - exists file. done.
Qed.

(** ** C9: determinism of crowdin_to_dart.py *)

Lemma add_entry_read z1 z2 out file :
  read_pairs z1 file = read_pairs z2 file ->
  crowdin_to_dart.add_entry z1 out file = crowdin_to_dart.add_entry z2 out file.
Proof. intros H. unfold crowdin_to_dart.add_entry. by rewrite H. Qed.

(** C9: the forward converter of crowdin_to_dart.py is a function of the
    archive, and its result, the file written and its content, is the same
    for two archives that hold the same entries under the same names in a
    different order. *)
Theorem C9_forward_deterministic (unicode_alnum : N -> bool) (z1 z2 : archive) :
  namelist z1 ≡ₚ namelist z2 ->
  (forall name, name ∈ namelist z1 -> read_pairs z1 name = read_pairs z2 name) ->
  crowdin_to_dart.generate_dart unicode_alnum z1
  = crowdin_to_dart.generate_dart unicode_alnum z2.
Proof.
  intros Hperm Hread. unfold crowdin_to_dart.generate_dart.
  assert (crowdin_to_dart.collect z1 = crowdin_to_dart.collect z2) as ->; [|done].
  unfold crowdin_to_dart.collect. rewrite <- (sorted_perm _ _ Hperm).
  apply fold_left_ext_in. intros file Hin out.
  apply add_entry_read. apply Hread.
  by rewrite <- (sorted_Permutation (namelist z1)).
Qed.

Definition two_locales (names : list str) : archive :=
  {| namelist := names;
     read_pairs := fun name =>
       if str_eqb name (lit "de/saturn.json") then [(lit "hello", lit "Hallo")]
       else [(lit "hello", lit "Bonjour")] |}.

Lemma C9_witness :
  crowdin_to_dart.generate_dart (fun _ => false)
    (two_locales [lit "fr/saturn.json"; lit "de/saturn.json"])
  = crowdin_to_dart.generate_dart (fun _ => false)
    (two_locales [lit "de/saturn.json"; lit "fr/saturn.json"]).
Proof.
  apply C9_forward_deterministic.
  - simpl. apply Permutation_swap.
  - intros name _. reflexivity.
Defined.

(** ** C2: locale codes outside the table *)

Definition unmapped_archive : archive :=
  {| namelist := [lit "xx/saturn.json"];
     read_pairs := fun _ => [(lit "hello", lit "Hallo")] |}.


(** The archive without the entries whose locale is not in the table. *)
Definition drop_unmapped (table : gmap str str) (z : archive) : archive :=
  {| namelist := filter (fun file => ~ unmapped table file) (namelist z);
     read_pairs := read_pairs z |}.

Lemma collect_drop_unmapped z :
  crowdin_to_dart.collect (drop_unmapped crowdin_to_dart.lang_crowdin z)
  = crowdin_to_dart.collect z.
Proof.
  rewrite !collect_is_aggregate. unfold aggregate, drop_unmapped. cbn [namelist].
  rewrite sorted_filter.
  rewrite (fold_left_ext_in _ (add_mapped crowdin_to_dart.lang_crowdin z)) by done.
  apply fold_left_filter_skip. intros file out. apply add_mapped_skip.
Qed.



(** ** C3: the quote rewrite and the locale keys *)

(** C3 fails on the code: the second pattern of [convert_to_single_quotes]
    asks for an underscore inside the locale key, and every app-side code
    of the table is written with a hyphen, so that the pattern matches at
    none of them and the locale keys of the generated file stay in double
    quotes, as for the archive with de/saturn.json and fr/saturn.json. *)
Theorem C3_locale_keys_stay_double_quoted (unicode_alnum : N -> bool) :
  crowdin_to_dart.generate_dart unicode_alnum
    (two_locales [lit "de/saturn.json"; lit "fr/saturn.json"])
  = ([WriteFile (lit "../lib/languages/crowdin_new.dart") (Some (lit "utf-8"))
        (lit "const crowdin = {~  `de-de`: {~    'hello': 'Hallo'~  },~  `fr-fr`: {~    'hello': 'Bonjour'~  }~};")],
     inr tt)
  /\ Forall (fun kv => forall rest,
               crowdin_to_dart.match_locale unicode_alnum (DQUOTE :: snd kv ++ rest) = None)
       crowdin_to_dart.lang_entries.
Proof.
  split; [vm_compute; reflexivity|].
  unfold crowdin_to_dart.lang_entries.
  repeat (constructor; [intros rest; vm_compute; reflexivity|]). constructor.
Qed.

(** ** The sigil in the generated text *)

(** Every sigil of [s] stands directly behind a backslash. *)
Definition every_sigil_escaped (s : str) : Prop :=
  forall a b, s = a ++ DOLLAR :: b -> exists a', a = a' ++ [BSLASH].

(** The same as a scan that remembers the previous character. *)
Fixpoint escaped_after (prev : N) (s : str) : bool :=
  match s with
  | [] => true
  | c :: s' => (negb (c =? DOLLAR) || (prev =? BSLASH)) && escaped_after c s'
  end.

Lemma escaped_after_last s prev a b :
  escaped_after prev s = true -> s = a ++ DOLLAR :: b -> last (prev :: a) = Some BSLASH.
Proof.
  revert prev a. induction s as [|c s IH]; intros prev a H Hab.
  - by destruct a.
  - simpl in H. apply andb_true_iff in H as [Hc Hs].
    destruct a as [|x a]; simpl in Hab; injection Hab as -> Hab.
    + rewrite N.eqb_refl in Hc. simpl in Hc. by apply N.eqb_eq in Hc as ->.
    + rewrite last_cons_cons. by apply IH.
Qed.

Lemma escaped_after_sound s :
  escaped_after 0 s = true -> every_sigil_escaped s.
Proof.
  intros H a b Hab. pose proof (escaped_after_last s 0 a b H Hab) as Hl.
  destruct a as [|x a] using rev_ind; [done|].
  rewrite app_comm_cons, last_snoc in Hl. injection Hl as ->. by exists a.
Qed.

Lemma escaped_prev p p' s :
  (p =? BSLASH) = (p' =? BSLASH) -> escaped_after p s = escaped_after p' s.
Proof. intros H. destruct s; cbn [escaped_after]; by rewrite ?H. Qed.

Lemma escaped_app p a b :
  escaped_after p (a ++ b) = escaped_after p a && escaped_after (default p (last a)) b.
Proof.
  revert p. induction a as [|c a IH]; intros p; [done|].
  cbn [app escaped_after]. rewrite IH, andb_assoc.
  assert (default c (last a) = default p (last (c :: a))) as ->; [|done].
  destruct a as [|x a]; [done|]. rewrite last_cons_cons.
  destruct (last (x :: a)) eqn:E; [done|]. by apply last_None in E.
Qed.

(** Behind a character that is no sigil the previous one is forgotten. *)
Lemma escaped_cons p c s :
  c <> DOLLAR -> escaped_after p (c :: s) = escaped_after c s.
Proof. intros H. simpl. by destruct (N.eqb_spec c DOLLAR). Qed.

Lemma escaped_snoc p a c b :
  c <> DOLLAR ->
  escaped_after p (a ++ c :: b) = escaped_after p a && escaped_after c b.
Proof. intros H. by rewrite escaped_app, escaped_cons. Qed.

Lemma escape_sigil_escaped p s : escaped_after p (escape_sigil s) = true.
Proof.
  rewrite escape_sigil_flat. revert p. induction s as [|c s IH]; intros p; [done|].
  cbn [flat_map]. unfold escape_char at 1.
  destruct (N.eqb_spec c DOLLAR) as [->|Hc].
  - change ([BSLASH; DOLLAR] ++ flat_map escape_char s)
      with (BSLASH :: DOLLAR :: flat_map escape_char s).
    rewrite escaped_cons by done. simpl. apply IH.
  - cbn [app]. rewrite escaped_cons by done. apply IH.
Qed.

(** Appends brought into right-nested form. *)
Ltac norm_app := repeat (progress (cbn [app]; rewrite <- ?app_assoc)).

(** *** [re.sub] *)

Section SubFacts.

Import crowdin_to_dart.

Lemma re_sub_skip attempt k s :
  (k <= length s)%nat -> re_sub attempt k s = re_sub attempt 0 (drop k s).
Proof.
  revert k. induction s as [|c s IH]; intros k Hk.
  - by destruct k.
  - destruct k as [|k]; [done|]. simpl in *. apply IH. lia.
Qed.

Lemma re_sub_match attempt m rest repl :
  m <> [] -> attempt (m ++ rest) = Some (repl, rest) ->
  re_sub attempt 0 (m ++ rest) = repl ++ re_sub attempt 0 rest.
Proof.
  intros Hm H. destruct m as [|c m]; [done|].
  cbn [app re_sub]. cbn [app] in H. rewrite H. f_equal.
  rewrite re_sub_skip by lia.
  rewrite length_app, Nat.add_sub. by rewrite drop_app_length.
Qed.

Lemma re_sub_no_match attempt c s :
  attempt (c :: s) = None -> re_sub attempt 0 (c :: s) = c :: re_sub attempt 0 s.
Proof. intros H. simpl. by rewrite H. Qed.

(** A replacement that keeps sigils escaped and ends, like the match, in a
    character that is no backslash. *)
Definition keeps_escaped (attempt : str -> option (str * str)) : Prop :=
  forall s repl rest, attempt s = Some (repl, rest) ->
  exists m x r y, s = (m ++ [x]) ++ rest /\ repl = r ++ [y]
    /\ x <> BSLASH /\ y <> BSLASH
    /\ forall p, escaped_after p (m ++ [x]) = true -> escaped_after p (r ++ [y]) = true.

Lemma re_sub_escaped attempt :
  keeps_escaped attempt ->
  forall s p, escaped_after p s = true -> escaped_after p (re_sub attempt 0 s) = true.
Proof.
  intros Hk s. remember (length s) as n eqn:Hn. revert s Hn.
  induction n as [n IH] using lt_wf_ind. intros s Hn p H.
  destruct s as [|c s]; [done|].
  destruct (attempt (c :: s)) as [[repl rest]|] eqn:Ha.
  - destruct (Hk _ _ _ Ha) as (m & x & r & y & Hs & -> & Hx & Hy & Hkeep).
    rewrite Hs in Ha |- *. rewrite Hs in H.
    rewrite (re_sub_match attempt (m ++ [x]) rest (r ++ [y])); [|by destruct m|done].
    rewrite escaped_app in H |- *. apply andb_true_iff in H as [H1 H2].
    rewrite Hkeep by done. rewrite !last_snoc in *. cbn [default andb] in *.
    rewrite (escaped_prev y x).
    + eapply IH; [|done|done]. subst n. rewrite Hs, !length_app. simpl. lia.
    + destruct (N.eqb_spec y BSLASH), (N.eqb_spec x BSLASH); done.
  - rewrite re_sub_no_match by done. simpl in *.
    apply andb_true_iff in H as [H1 H2]. rewrite H1. simpl.
    eapply IH; [|done|done]. subst n. simpl. lia.
Qed.

Lemma scan_body_app s m r : scan_body s = (m, r) -> s = m ++ r.
Proof.
  remember (length s) as n eqn:Hn. revert s Hn m r.
  induction n as [n IH] using lt_wf_ind. intros s Hn m r.
  destruct s as [|c s]; [by intros [= <- <-]|]. cbn [scan_body].
  destruct (c =? DQUOTE); [by intros [= <- <-]|].
  destruct (c =? BSLASH).
  - destruct s as [|d s]; [by intros [= <- <-]|].
    destruct (d =? LF); [by intros [= <- <-]|].
    destruct (scan_body s) as [m' r'] eqn:E. intros [= <- <-].
    rewrite (IH (length s)) with (s := s) (m := m') (r := r'); subst; simpl; try done; lia.
  - destruct (scan_body s) as [m' r'] eqn:E. intros [= <- <-].
    rewrite (IH (length s)) with (s := s) (m := m') (r := r'); subst; simpl; try done; lia.
Qed.

Lemma skip_space_app s : exists ws, s = ws ++ skip_space s.
Proof.
  induction s as [|c s [ws IH]]; [by exists []|]. simpl.
  destruct (is_space c); [|by exists []]. exists (c :: ws). simpl. by f_equal.
Qed.

Lemma match_pair_shape s key value rest :
  match_pair s = Some (key, value, rest) ->
  exists ws, s = DQUOTE :: key ++ DQUOTE :: 58 :: ws ++ DQUOTE :: value ++ DQUOTE :: rest.
Proof.
  unfold match_pair. destruct s as [|q1 s1]; [done|].
  destruct (N.eqb_spec q1 DQUOTE) as [->|]; [|done].
  destruct (scan_body s1) as [key' r1] eqn:E1. apply scan_body_app in E1 as ->.
  destruct r1 as [|q2 [|c r2]]; [done..|].
  destruct (N.eqb_spec q2 DQUOTE) as [->|]; [|done].
  destruct (N.eqb_spec c 58) as [->|]; [|done]. cbn [andb].
  destruct (skip_space_app r2) as [ws Hws].
  destruct (skip_space r2) as [|q3 r3] eqn:E3; [done|].
  destruct (N.eqb_spec q3 DQUOTE) as [->|]; [|done].
  destruct (scan_body r3) as [value' r4] eqn:E2. apply scan_body_app in E2 as ->.
  destruct r4 as [|q4 rest']; [done|].
  destruct (N.eqb_spec q4 DQUOTE) as [->|]; [|done].
  intros [= -> -> ->]. exists ws. by rewrite Hws.
Qed.

Lemma requote_shape s : exists q, (q = DQUOTE \/ q = SQUOTE) /\ requote s = q :: s ++ [q].
Proof.
  unfold requote. destruct (has_apostrophe s); [exists DQUOTE | exists SQUOTE]; auto.
Qed.

Lemma quote_plain q : q = DQUOTE \/ q = SQUOTE -> q <> DOLLAR /\ q <> BSLASH.
Proof. by intros [-> | ->]. Qed.

Definition attempt_pair (t : str) : option (str * str) :=
  match match_pair t with
  | Some (key, value, rest) => Some (replace_quotes key value, rest)
  | None => None
  end.

Lemma attempt_pair_keeps : keeps_escaped attempt_pair.
Proof.
  intros s repl rest. unfold attempt_pair.
  destruct (match_pair s) as [[[key value] rest']|] eqn:E; [|done].
  intros [= <- <-]. apply match_pair_shape in E as [ws ->].
  destruct (requote_shape key) as (q1 & Hq1 & Hk).
  destruct (requote_shape value) as (q2 & Hq2 & Hv).
  destruct (quote_plain _ Hq1) as [Hq1d Hq1b], (quote_plain _ Hq2) as [Hq2d Hq2b].
  exists (DQUOTE :: key ++ DQUOTE :: 58 :: ws ++ DQUOTE :: value), DQUOTE,
         (q1 :: key ++ q1 :: 58 :: 32 :: q2 :: value), q2.
  split; [|split; [|split; [done | split; [done|]]]].
  - by norm_app.
  - unfold replace_quotes. rewrite Hk, Hv. by norm_app.
  - intros p. norm_app.
    rewrite !escaped_cons by done. rewrite !escaped_snoc by done.
    rewrite !escaped_cons by done. rewrite !escaped_snoc by done.
    rewrite !andb_true_iff. intros (Hkey & _ & Hval & _).
    rewrite (escaped_prev q1 DQUOTE), (escaped_prev q2 DQUOTE), Hkey, Hval; [done|..].
    + by destruct Hq2 as [-> | ->].
    + by destruct Hq1 as [-> | ->].
Qed.

Lemma sub_pairs_escaped p s :
  escaped_after p s = true -> escaped_after p (sub_pairs s) = true.
Proof. apply (re_sub_escaped attempt_pair), attempt_pair_keeps. Qed.

Section LocaleFacts.

Variable unicode_alnum : N -> bool.

Lemma scan_word_app s m r : scan_word unicode_alnum s = (m, r) -> s = m ++ r.
Proof.
  revert m r. induction s as [|c s IH]; intros m r; [by intros [= <- <-]|].
  cbn [scan_word]. destruct (is_word unicode_alnum c); [|by intros [= <- <-]].
  destruct (scan_word unicode_alnum s) as [m' r'] eqn:E. intros [= <- <-].
  by rewrite (IH m' r').
Qed.

Lemma match_locale_shape s w rest :
  match_locale unicode_alnum s = Some (w, rest) ->
  exists ws, s = DQUOTE :: w ++ DQUOTE :: 58 :: ws ++ 123 :: rest.
Proof.
  unfold match_locale. destruct s as [|q1 s1]; [done|].
  destruct (N.eqb_spec q1 DQUOTE) as [->|]; [|done].
  destruct (scan_word unicode_alnum s1) as [w' r1] eqn:E1. apply scan_word_app in E1 as ->.
  destruct (word_underscore_word w'); [|done].
  destruct r1 as [|q2 [|c r2]]; [done..|].
  destruct (N.eqb_spec q2 DQUOTE) as [->|]; [|done].
  destruct (N.eqb_spec c 58) as [->|]; [|done]. cbn [andb].
  destruct (skip_space_app r2) as [ws Hws].
  destruct (skip_space r2) as [|b r3] eqn:E3; [done|].
  destruct (N.eqb_spec b 123) as [->|]; [|done].
  intros [= -> ->]. exists ws. by rewrite Hws.
Qed.

Definition attempt_locale (t : str) : option (str * str) :=
  match match_locale unicode_alnum t with
  | Some (locale, rest) => Some (replace_locale_quotes locale, rest)
  | None => None
  end.

Lemma attempt_locale_keeps : keeps_escaped attempt_locale.
Proof.
  intros s repl rest. unfold attempt_locale.
  destruct (match_locale unicode_alnum s) as [[w rest']|] eqn:E; [|done].
  intros [= <- <-]. apply match_locale_shape in E as [ws ->].
  exists (DQUOTE :: w ++ DQUOTE :: 58 :: ws), 123, (SQUOTE :: w ++ [SQUOTE; 58; 32]), 123.
  split; [|split; [|split; [done | split; [done|]]]].
  - by norm_app.
  - unfold replace_locale_quotes. by norm_app.
  - intros p. norm_app.
    rewrite !escaped_cons by done. rewrite !escaped_snoc by done.
    rewrite !andb_true_iff. intros (Hw & _).
    by rewrite (escaped_prev SQUOTE DQUOTE), Hw.
Qed.

Lemma sub_locales_escaped p s :
  escaped_after p s = true -> escaped_after p (sub_locales unicode_alnum s) = true.
Proof. apply (re_sub_escaped attempt_locale), attempt_locale_keeps. Qed.

Lemma convert_escaped p s :
  escaped_after p s = true ->
  escaped_after p (convert_to_single_quotes unicode_alnum s) = true.
Proof. intros H. by apply sub_locales_escaped, sub_pairs_escaped. Qed.

End LocaleFacts.

End SubFacts.

(** ** C6: the generated file *)

Lemma wrapped_escaped literal :
  (forall p, escaped_after p literal = true) ->
  every_sigil_escaped (PREFIX ++ literal ++ [59]).
Proof.
  intros H. apply escaped_after_sound.
  rewrite escaped_app, escaped_app, H. reflexivity.
Qed.



Definition priced : archive :=
  {| namelist := [lit "de/saturn.json"];
     read_pairs := fun _ => [(lit "price", lit "5 $")] |}.


(** ** Dictionaries *)

Lemma dict_set_fresh {V} k (v : V) d :
  k ∉ keys d -> dict_set k v d = d ++ [(k, v)].
Proof.
  induction d as [|[k' v'] d IH]; intros H; [done|]. simpl.
  unfold keys in H. simpl in H. apply not_elem_of_cons in H as [Hne H].
  rewrite str_eqb_neq by done. by rewrite IH.
Qed.

Lemma keys_dict_set_NoDup {V} k (v : V) d : NoDup (keys d) -> NoDup (keys (dict_set k v d)).
Proof.
  induction d as [|[k' v'] d IH]; intros H; simpl.
  - unfold keys. simpl. apply NoDup_singleton.
  - unfold keys in *. simpl in *. apply NoDup_cons in H as [Hk H].
    destruct (str_eqb k k') eqn:E; simpl.
    + by apply NoDup_cons.
    + apply NoDup_cons. split; [|by apply IH].
      intros Hin. apply (keys_dict_set k v d k') in Hin as [-> | Hin]; [|done].
      by rewrite str_eqb_refl in E.
Qed.

Lemma fold_dict_set_NoDup {V} (l acc : list (str * V)) :
  NoDup (keys acc) ->
  NoDup (keys (fold_left (fun d kv => dict_set (fst kv) (snd kv) d) l acc)).
Proof.
  revert acc. induction l as [|[k v] l IH]; intros acc H; [done|].
  simpl. by apply IH, keys_dict_set_NoDup.
Qed.

Lemma dict_of_pairs_NoDup {V} (l : list (str * V)) : NoDup (keys (dict_of_pairs l)).
Proof. apply fold_dict_set_NoDup. constructor. Qed.

(** Reading a dictionary with distinct keys back member by member gives
    the dictionary. *)
Lemma fold_dict_set_id {V} (l acc : list (str * V)) :
  NoDup (keys (acc ++ l)) ->
  fold_left (fun d kv => dict_set (fst kv) (snd kv) d) l acc = acc ++ l.
Proof.
  revert acc. induction l as [|[k v] l IH]; intros acc H; simpl.
  - by rewrite app_nil_r.
  - rewrite dict_set_fresh.
    + rewrite IH; [by rewrite <- app_assoc | by rewrite <- app_assoc].
    + unfold keys in H. rewrite map_app in H. apply NoDup_app in H as (_ & H & _).
      intros Hin. apply (H k Hin). left.
Qed.

Lemma dict_get_set_eq {V} k (v : V) d : dict_get k (dict_set k v d) = Some v.
Proof.
  induction d as [|[k' v'] d IH]; simpl; [by rewrite str_eqb_refl|].
  destruct (str_eqb k k') eqn:E; simpl; by rewrite E.
Qed.

Lemma dict_get_set_ne {V} k k' (v : V) d :
  k <> k' -> dict_get k (dict_set k' v d) = dict_get k d.
Proof.
  intros Hne. induction d as [|[k2 v2] d IH]; simpl.
  - by rewrite str_eqb_neq.
  - destruct (str_eqb k' k2) eqn:E; simpl.
    + apply str_eqb_eq in E as <-. by rewrite str_eqb_neq.
    + by rewrite IH.
Qed.

(** ** Catalogs: the aggregates the forward converters build *)

(** A bundle is a dictionary from keys to texts, a catalog a dictionary
    from app-side codes to bundles. *)
Abbreviation bundle := (list (str * str)).
Abbreviation catalog := (list (str * list (str * str))).

Definition items_of (cat : catalog) : list (str * pyval) :=
  map (fun e => (fst e, PDict (flat (snd e)))) cat.

Lemma flat_dict_set k v (d : bundle) :
  dict_set k (PStr v) (flat d) = flat (dict_set k v d).
Proof.
  induction d as [|[k' v'] d IH]; [done|]. simpl.
  destruct (str_eqb k k'); simpl; [done | by rewrite IH].
Qed.

Lemma json_loads_flat pairs : json_loads pairs = PDict (flat (dict_of_pairs pairs)).
Proof.
  unfold json_loads, dict_of_pairs. f_equal.
  change (@nil (str * pyval)) with (flat []). generalize (@nil (str * str)).
  induction pairs as [|[k v] pairs IH]; intros acc; [done|].
  simpl. rewrite flat_dict_set. apply IH.
Qed.

Lemma items_dict_set code (b : bundle) (cat : catalog) :
  dict_set code (PDict (flat b)) (items_of cat) = items_of (dict_set code b cat).
Proof.
  induction cat as [|[c' b'] cat IH]; [done|]. simpl.
  destruct (str_eqb code c'); simpl; [done | by rewrite IH].
Qed.

Lemma keys_items cat : keys (items_of cat) = keys cat.
Proof. unfold keys, items_of. rewrite map_map. done. Qed.

Lemma keys_flat (b : bundle) : keys (flat b) = keys b.
Proof. unfold keys, flat. rewrite map_map. done. Qed.

Definition add_catalog (table : gmap str str) (z : archive) (cat : catalog) (file : str)
  : catalog :=
  if contains MARKER file then
    match table !! split_head SLASH file with
    | Some code => dict_set code (dict_of_pairs (read_pairs z file)) cat
    | None => cat
    end
  else cat.

Definition aggregate_catalog (table : gmap str str) (z : archive) (names : list str)
  : catalog :=
  fold_left (add_catalog table z) names [].

(** A catalog as the forward converters build it: distinct codes, all from
    the table, and distinct keys in every bundle. *)
Definition catalog_wf (table : gmap str str) (cat : catalog) : Prop :=
  NoDup (keys cat) /\
  Forall (fun e => NoDup (keys (snd e)) /\ exists lang, table !! lang = Some (fst e)) cat.

Lemma dict_set_Forall {V} (P : str * V -> Prop) k v d :
  P (k, v) -> Forall P d -> Forall P (dict_set k v d).
Proof.
  intros Hkv. induction 1 as [|[k' v'] d Hx Hd IH]; simpl.
  - by constructor.
  - destruct (str_eqb k k') eqn:E.
    + apply str_eqb_eq in E as <-. by constructor.
    + by constructor.
Qed.

Lemma aggregate_is_catalog table z names :
  aggregate table z names = items_of (aggregate_catalog table z names)
  /\ catalog_wf table (aggregate_catalog table z names).
Proof.
  unfold aggregate, aggregate_catalog.
  change (@nil (str * pyval)) with (items_of []).
  assert (catalog_wf table []) as Hwf by (split; constructor).
  revert Hwf. generalize (@nil (str * list (str * str))).
  induction names as [|f names IH]; intros cat Hwf; [done|].
  cbn [fold_left]. unfold add_mapped at 2, add_catalog at 2 4.
  destruct (contains MARKER f); [|by apply IH].
  destruct (table !! split_head SLASH f) as [code|] eqn:Ht; [|by apply IH].
  rewrite json_loads_flat, items_dict_set. apply IH.
  destruct Hwf as [Hk Hall]. split.
  - by apply keys_dict_set_NoDup.
  - apply dict_set_Forall; [|done]. cbn [fst snd].
    split; [apply dict_of_pairs_NoDup | by exists (split_head SLASH f)].
Qed.

(** ** The text of a catalog *)

Section Text.

(** [enc] encodes the body of a string, [qloc] and [q] choose the quote of a
    locale key and of a key or value of a bundle, [ind] is the indent. *)
Variable enc : str -> str.
Variables qloc q : str -> N.
Variable ind : option nat.

Definition quoted (c : N) (s : str) : str := c :: enc s ++ [c].

Definition member_text (kv : str * str) : str :=
  quoted (q (fst kv)) (fst kv) ++ key_separator ++ quoted (q (snd kv)) (snd kv).

Fixpoint members_tail (level : nat) (l : list (str * str)) : str :=
  match l with
  | [] => []
  | kv :: l' => item_separator ind level ++ member_text kv ++ members_tail level l'
  end.

Definition bundle_text (level : nat) (b : list (str * str)) : str :=
  match b with
  | [] => [123; 125]
  | kv :: l =>
      123 :: newline_indent ind (S level) ++ member_text kv
        ++ members_tail (S level) l ++ newline_indent ind level ++ [125]
  end.

Definition entry_text (e : str * list (str * str)) : str :=
  quoted (qloc (fst e)) (fst e) ++ key_separator ++ bundle_text 1 (snd e).

Fixpoint entries_tail (l : catalog) : str :=
  match l with
  | [] => []
  | e :: l' => item_separator ind 1 ++ entry_text e ++ entries_tail l'
  end.

Definition catalog_text (cat : catalog) : str :=
  match cat with
  | [] => [123; 125]
  | e :: l =>
      123 :: newline_indent ind 1 ++ entry_text e
        ++ entries_tail l ++ newline_indent ind 0 ++ [125]
  end.

End Text.

Definition dq (_ : str) : N := DQUOTE.

(** [json.dumps] of a catalog is its text in double quotes. *)
Lemma join_members_bundle ind level (l : list (str * str)) :
  join_members (json_dumps ind level) (item_separator ind level) (flat l)
  = members_tail json_escape dq ind level l.
Proof.
  induction l as [|[k v] l IH]; [done|].
  cbn [flat map join_members members_tail fst snd json_dumps].
  unfold flat in IH. rewrite IH.
  unfold member_text, quoted, encode_basestring, dq. cbn [fst snd]. by norm_app.
Qed.

Lemma json_dumps_bundle ind level (b : list (str * str)) :
  json_dumps ind level (PDict (flat b)) = bundle_text json_escape dq ind level b.
Proof.
  destruct b as [|[k v] l]; [done|].
  cbn [flat map fst snd json_dumps bundle_text].
  pose proof (join_members_bundle ind (S level) l) as H. unfold flat in H. rewrite H.
  unfold member_text, quoted, encode_basestring, dq. cbn [fst snd]. by norm_app.
Qed.

Lemma json_dumps_cons ind level k v rest :
  json_dumps ind level (PDict ((k, v) :: rest))
  = 123 :: newline_indent ind (S level)
      ++ encode_basestring k ++ key_separator ++ json_dumps ind (S level) v
      ++ join_members (json_dumps ind (S level)) (item_separator ind (S level)) rest
      ++ newline_indent ind level ++ [125].
Proof. reflexivity. Qed.

Lemma join_members_cons dumps sep k v l :
  join_members dumps sep ((k, v) :: l)
  = sep ++ encode_basestring k ++ key_separator ++ dumps v ++ join_members dumps sep l.
Proof. reflexivity. Qed.

Lemma join_members_catalog ind (l : catalog) :
  join_members (json_dumps ind 1) (item_separator ind 1) (items_of l)
  = entries_tail json_escape dq dq ind l.
Proof.
  induction l as [|[c b] l IH]; [done|].
  cbn [items_of map fst snd]. rewrite join_members_cons. unfold items_of in IH.
  rewrite IH, json_dumps_bundle. cbn [entries_tail].
  unfold entry_text, quoted, encode_basestring, dq. cbn [fst snd]. by norm_app.
Qed.

Lemma json_dumps_catalog ind (cat : catalog) :
  json_dumps ind 0 (PDict (items_of cat)) = catalog_text json_escape dq dq ind cat.
Proof.
  destruct cat as [|[c b] l]; [done|].
  cbn [items_of map fst snd]. rewrite json_dumps_cons.
  pose proof (join_members_catalog ind l) as H. unfold items_of in H.
  rewrite H, json_dumps_bundle. cbn [catalog_text].
  unfold entry_text, quoted, encode_basestring, dq. cbn [fst snd]. by norm_app.
Qed.

(** ** Reading the text back *)

Section ParseFacts.

Import ast.

Definition cons_result (c : N) (o : option (str * str)) : option (str * str) :=
  match o with
  | Some (u, r) => Some (c :: u, r)
  | None => None
  end.

Lemma parse_string_plain q c t :
  c <> q -> c <> 10 -> c <> 13 -> c <> BSLASH ->
  parse_string q (c :: t) = cons_result c (parse_string q t).
Proof.
  intros H1 H2 H3 H4. cbn [parse_string].
  destruct (N.eqb_spec c q); [done|].
  destruct (N.eqb_spec c 10); [done|].
  destruct (N.eqb_spec c 13); [done|]. cbn [orb].
  destruct (N.eqb_spec c BSLASH); [done|]. reflexivity.
Qed.

Lemma parse_string_simple q e d t :
  q <> BSLASH -> simple_escape e = Some d ->
  parse_string q (BSLASH :: e :: t) = cons_result d (parse_string q t).
Proof.
  intros Hq He. cbn [parse_string].
  destruct (N.eqb_spec BSLASH q); [done|]. cbn [N.eqb BSLASH orb Pos.eqb].
  rewrite He. reflexivity.
Qed.

Lemma parse_string_hex q h1 h2 a b t :
  q <> BSLASH -> hex_value h1 = Some a -> hex_value h2 = Some b ->
  parse_string q (BSLASH :: 117 :: 48 :: 48 :: h1 :: h2 :: t)
  = cons_result (a * 16 + b) (parse_string q t).
Proof.
  intros Hq H1 H2. cbn [parse_string].
  destruct (N.eqb_spec BSLASH q); [done|]. cbn [N.eqb BSLASH orb Pos.eqb].
  change (simple_escape 117) with (@None N). cbn [N.eqb Pos.eqb].
  change (hex_value 48) with (Some 0). rewrite H1, H2. reflexivity.
Qed.

Lemma hex_value_digit n : n < 16 -> hex_value (hex_digit n) = Some n.
Proof.
  intros H. unfold hex_digit, hex_value.
  destruct (N.ltb_spec n 10).
  - destruct (N.leb_spec 48 (48 + n)); [|lia].
    destruct (N.leb_spec (48 + n) 57); [|lia]. cbn [andb]. f_equal. lia.
  - destruct (N.leb_spec (87 + n) 57); [lia|]. rewrite andb_false_r.
    destruct (N.leb_spec 97 (87 + n)); [|lia].
    destruct (N.leb_spec (87 + n) 102); [|lia]. cbn [andb]. f_equal. lia.
Qed.

(** The quote [c] can hold the text [s] as [json.dumps] escapes it. *)
Definition quote_ok (c : N) (s : str) : Prop :=
  c = DQUOTE \/ (c = SQUOTE /\ SQUOTE ∉ s).

Lemma parse_string_escape_char c0 c t :
  c0 = DQUOTE \/ (c0 = SQUOTE /\ c <> SQUOTE) ->
  parse_string c0 (json_escape_char c ++ t) = cons_result c (parse_string c0 t).
Proof.
  intros Hq.
  assert (c0 <> BSLASH) as Hb by (destruct Hq as [-> | [-> _]]; done).
  unfold json_escape_char.
  destruct (N.eqb_spec c 34) as [->|H34]; [by apply parse_string_simple|].
  destruct (N.eqb_spec c 92) as [->|H92]; [by apply parse_string_simple|].
  destruct (N.eqb_spec c 10) as [->|H10]; [by apply parse_string_simple|].
  destruct (N.eqb_spec c 13) as [->|H13]; [by apply parse_string_simple|].
  destruct (N.eqb_spec c 9) as [->|H9]; [by apply parse_string_simple|].
  destruct (N.eqb_spec c 8) as [->|H8]; [by apply parse_string_simple|].
  destruct (N.eqb_spec c 12) as [->|H12]; [by apply parse_string_simple|].
  destruct (N.ltb_spec c 32) as [Hlt|Hge].
  - cbn [app].
    rewrite (parse_string_hex c0 _ _ (c / 16) (c mod 16)); [|done|..].
    + f_equal. pose proof (N.div_mod c 16). lia.
    + apply hex_value_digit. apply N.Div0.div_lt_upper_bound. lia.
    + apply hex_value_digit. apply N.mod_lt. lia.
  - cbn [app]. apply parse_string_plain; try done.
    destruct Hq as [-> | [-> Hc]]; done.
Qed.

Lemma parse_string_escape c0 s rest :
  quote_ok c0 s -> parse_string c0 (json_escape s ++ c0 :: rest) = Some (s, rest).
Proof.
  intros Hq. induction s as [|c s IH].
  - cbn [json_escape flat_map app parse_string]. by rewrite N.eqb_refl.
  - unfold json_escape. cbn [flat_map]. rewrite <- app_assoc.
    rewrite parse_string_escape_char.
    + fold (json_escape s). rewrite IH; [done|].
      destruct Hq as [-> | [-> Hs]]; [by left | right]. split; [done|].
      intros Hin. apply Hs. by right.
    + destruct Hq as [-> | [-> Hs]]; [by left | right]. split; [done|].
      intros ->. apply Hs. left.
Qed.

End ParseFacts.

Section LoopFacts.

Import ast.

Definition all_blank (b : str) : Prop := forallb is_blank b = true.

Lemma skip_blank_app b s : all_blank b -> skip_blank (b ++ s) = skip_blank s.
Proof.
  unfold all_blank. induction b as [|c b IH]; [done|]. cbn [forallb app skip_blank].
  intros [Hc Hb]%andb_true_iff. rewrite Hc. by apply IH.
Qed.

Lemma skip_blank_cons c s : is_blank c = false -> skip_blank (c :: s) = c :: s.
Proof. intros H. cbn [skip_blank]. by rewrite H. Qed.

Lemma newline_indent_blank ind level : all_blank (newline_indent ind level).
Proof.
  unfold all_blank. destruct ind as [k|]; [|done]. cbn [newline_indent forallb].
  induction (k * level)%nat; [done|]. cbn [List.repeat forallb]. done.
Qed.

Lemma item_separator_shape ind level :
  exists b, item_separator ind level = 44 :: b /\ all_blank b.
Proof.
  destruct ind as [k|].
  - exists (newline_indent (Some k) level). split; [done | apply newline_indent_blank].
  - by exists [32].
Qed.

Lemma is_quote_cases c : is_quote c = true -> c = DQUOTE \/ c = SQUOTE.
Proof.
  unfold is_quote. intros [H|H]%orb_true_iff; apply N.eqb_eq in H; auto.
Qed.

Lemma quote_ok_is_quote c s : quote_ok c s -> is_quote c = true.
Proof. by intros [-> | [-> _]]. Qed.

Lemma parse_value_quoted n b c s rest :
  all_blank b -> quote_ok c s -> (0 < n)%nat ->
  parse_value n (b ++ quoted json_escape c s ++ rest) = Some (PStr s, rest).
Proof.
  intros Hb Hq Hn. destruct n as [|n]; [lia|]. cbn [parse_value].
  pose proof (quote_ok_is_quote _ _ Hq) as Hc.
  rewrite skip_blank_app by done. unfold quoted. cbn [app].
  rewrite skip_blank_cons by (by destruct (is_quote_cases c Hc) as [-> | ->]).
  rewrite Hc. rewrite <- app_assoc. cbn [app]. by rewrite parse_string_escape.
Qed.

(** The loop over the members of a display, whatever the values are. *)
Section Loop.

Context {A : Type}.
Variables (key : A -> str) (kq : A -> N) (vtext : A -> str) (val : A -> pyval).
Variable sepb : str.

Definition loop_member (x : A) : str :=
  quoted json_escape (kq x) (key x) ++ key_separator ++ vtext x.

Fixpoint loop_tail (l : list A) : str :=
  match l with
  | [] => []
  | x :: l' => (44 :: sepb) ++ loop_member x ++ loop_tail l'
  end.

Definition member_ok (x : A) : Prop :=
  quote_ok (kq x) (key x) /\
  forall n T, (length (vtext x ++ T) < n)%nat ->
              parse_value n (32 :: vtext x ++ T) = Some (val x, T).

Lemma parse_members_step x acc n b T :
  all_blank b -> member_ok x ->
  (length (b ++ loop_member x ++ T) < S n)%nat ->
  parse_members (S n) (b ++ loop_member x ++ T) acc
  = match skip_blank T with
    | c3 :: r4 =>
        if c3 =? 44 then parse_members n r4 (dict_set (key x) (val x) acc)
        else if c3 =? 125 then Some (PDict (dict_set (key x) (val x) acc), r4)
        else None
    | [] => None
    end.
Proof.
  intros Hb [Hq Hv] Hlen. cbn [parse_members].
  pose proof (quote_ok_is_quote _ _ Hq) as Hc.
  rewrite skip_blank_app by done. unfold loop_member, quoted. norm_app.
  rewrite skip_blank_cons by (by destruct (is_quote_cases _ Hc) as [-> | ->]).
  replace (kq x =? 125) with false by (by destruct (is_quote_cases _ Hc) as [-> | ->]).
  rewrite Hc, parse_string_escape by done.
  unfold key_separator. cbn [app skip_blank is_blank N.eqb Pos.eqb orb].
  rewrite Hv; [done|].
  unfold loop_member, quoted, key_separator in Hlen.
  repeat (rewrite ?length_app, ?length_cons in Hlen).
  rewrite length_app. lia.
Qed.

Lemma parse_members_loop l x acc n b nl0 rest :
  all_blank sepb -> all_blank b -> all_blank nl0 ->
  Forall member_ok (x :: l) ->
  (length (b ++ loop_member x ++ loop_tail l ++ nl0 ++ 125%N :: rest) < n)%nat ->
  parse_members n (b ++ loop_member x ++ loop_tail l ++ nl0 ++ 125 :: rest) acc
  = Some (PDict (fold_left (fun d y => dict_set (key y) (val y) d) (x :: l) acc), rest).
Proof.
  intros Hsep. revert x acc n b.
  induction l as [|y l IH]; intros x acc n b Hb Hnl Hok Hlen;
    apply Forall_cons in Hok as [Hx Hok];
    (destruct n as [|n]; [lia|]); rewrite parse_members_step by done.
  - cbn [loop_tail app]. rewrite skip_blank_app by done.
    cbn [skip_blank is_blank N.eqb Pos.eqb orb]. reflexivity.
  - cbn [loop_tail]. norm_app. cbn [skip_blank is_blank N.eqb Pos.eqb orb].
    rewrite IH; [done..|].
    cbn [loop_tail] in Hlen. revert Hlen. norm_app.
    repeat (rewrite ?length_app, ?length_cons). lia.
Qed.

End Loop.

End LoopFacts.

Section CatalogParse.

Import ast.

Variables qloc q : str -> N.
Variable ind : option nat.

(** The quotes chosen can hold the texts. *)
Definition bundle_quotes_ok (b : list (str * str)) : Prop :=
  Forall (fun kv => quote_ok (q (fst kv)) (fst kv) /\ quote_ok (q (snd kv)) (snd kv)) b.

Definition catalog_quotes_ok (cat : catalog) : Prop :=
  Forall (fun e => quote_ok (qloc (fst e)) (fst e) /\ bundle_quotes_ok (snd e)) cat.

Lemma members_tail_loop level sepb (l : list (str * str)) :
  item_separator ind level = 44 :: sepb ->
  members_tail json_escape q ind level l
  = loop_tail fst (fun kv => q (fst kv))
      (fun kv => quoted json_escape (q (snd kv)) (snd kv)) sepb l.
Proof.
  intros Hs. induction l as [|kv l IH]; [done|].
  cbn [members_tail loop_tail]. by rewrite Hs, IH.
Qed.

Lemma fold_flat (l : list (str * str)) (acc : list (str * pyval)) :
  fold_left (fun d y => dict_set (fst y) (PStr (snd y)) d) l acc
  = fold_left (fun d kv => dict_set (fst kv) (snd kv) d) (flat l) acc.
Proof. revert acc. induction l as [|kv l IH]; intros acc; [done|]. apply IH. Qed.

Lemma parse_value_bundle n b0 level (b : list (str * str)) T :
  all_blank b0 -> bundle_quotes_ok b -> NoDup (keys b) ->
  (length (bundle_text json_escape q ind level b ++ T) < n)%nat ->
  parse_value n (b0 ++ bundle_text json_escape q ind level b ++ T)
  = Some (PDict (flat b), T).
Proof.
  intros Hb0 Hq Hnd Hlen. destruct n as [|n]; [lia|]. cbn [parse_value].
  rewrite skip_blank_app by done.
  destruct b as [|kv l].
  - cbn [bundle_text app skip_blank is_blank N.eqb Pos.eqb orb is_quote DQUOTE SQUOTE].
    cbn [bundle_text catalog_text] in Hlen. rewrite ?length_app in Hlen.
    cbn [length app] in Hlen. destruct n as [|n]; [lia|]. reflexivity.
  - cbn [bundle_text app skip_blank is_blank N.eqb Pos.eqb orb is_quote DQUOTE SQUOTE].
    destruct (item_separator_shape ind (S level)) as (sepb & Hs & Hsb).
    rewrite (members_tail_loop _ sepb) by done. norm_app.
    change (member_text json_escape q kv)
      with (loop_member fst (fun kv => q (fst kv))
              (fun kv => quoted json_escape (q (snd kv)) (snd kv)) kv).
    rewrite (parse_members_loop fst (fun kv => q (fst kv))
               (fun kv => quoted json_escape (q (snd kv)) (snd kv))
               (fun kv => PStr (snd kv)) sepb).
    + rewrite fold_flat, fold_dict_set_id; [done|]. by rewrite app_nil_l, keys_flat.
    + done.
    + apply newline_indent_blank.
    + apply newline_indent_blank.
    + eapply Forall_impl; [exact Hq|]. intros [k v] [Hk Hv]. split; [done|].
      intros m T' Hm. apply (parse_value_quoted m [32]); [done | done | lia].
    + cbn [bundle_text] in Hlen. rewrite (members_tail_loop _ sepb) in Hlen by done.
      change (member_text json_escape q kv)
        with (loop_member fst (fun kv => q (fst kv))
                (fun kv => quoted json_escape (q (snd kv)) (snd kv)) kv) in Hlen.
      revert Hlen. norm_app. repeat (rewrite ?length_app, ?length_cons). lia.
Qed.

Lemma entries_tail_loop sepb (l : catalog) :
  item_separator ind 1 = 44 :: sepb ->
  entries_tail json_escape qloc q ind l
  = loop_tail fst (fun e => qloc (fst e))
      (fun e => bundle_text json_escape q ind 1 (snd e)) sepb l.
Proof.
  intros Hs. induction l as [|e l IH]; [done|].
  cbn [entries_tail loop_tail]. by rewrite Hs, IH.
Qed.

Lemma fold_items (l : catalog) (acc : list (str * pyval)) :
  fold_left (fun d e => dict_set (fst e) (PDict (flat (snd e))) d) l acc
  = fold_left (fun d kv => dict_set (fst kv) (snd kv) d) (items_of l) acc.
Proof. revert acc. induction l as [|e l IH]; intros acc; [done|]. apply IH. Qed.

Lemma parse_value_catalog n (cat : catalog) :
  catalog_quotes_ok cat -> NoDup (keys cat) ->
  Forall (fun e => NoDup (keys (snd e))) cat ->
  (length (catalog_text json_escape qloc q ind cat) < n)%nat ->
  parse_value n (catalog_text json_escape qloc q ind cat) = Some (PDict (items_of cat), []).
Proof.
  intros Hq Hnd Hbs Hlen. destruct n as [|n]; [lia|]. cbn [parse_value].
  destruct cat as [|e l].
  - cbn [catalog_text app skip_blank is_blank N.eqb Pos.eqb orb is_quote DQUOTE SQUOTE].
    cbn [bundle_text catalog_text] in Hlen. rewrite ?length_app in Hlen.
    cbn [length app] in Hlen. destruct n as [|n]; [lia|]. reflexivity.
  - cbn [catalog_text app skip_blank is_blank N.eqb Pos.eqb orb is_quote DQUOTE SQUOTE].
    destruct (item_separator_shape ind 1) as (sepb & Hs & Hsb).
    rewrite (entries_tail_loop sepb) by done.
    change (entry_text json_escape qloc q ind e)
      with (loop_member fst (fun e => qloc (fst e))
              (fun e => bundle_text json_escape q ind 1 (snd e)) e).
    norm_app.
    rewrite (parse_members_loop fst (fun e => qloc (fst e))
               (fun e => bundle_text json_escape q ind 1 (snd e))
               (fun e => PDict (flat (snd e))) sepb).
    + rewrite fold_items, fold_dict_set_id; [done|]. by rewrite app_nil_l, keys_items.
    + done.
    + apply newline_indent_blank.
    + apply newline_indent_blank.
    + unfold catalog_quotes_ok in Hq. rewrite Forall_forall in *. intros x Hx.
      destruct (Hq x Hx) as [Hqx Hqb]. split; [done|].
      intros m T' Hm. apply (parse_value_bundle m [32]); [done | done | by apply Hbs | done].
    + cbn [catalog_text] in Hlen. rewrite (entries_tail_loop sepb) in Hlen by done.
      change (entry_text json_escape qloc q ind e)
        with (loop_member fst (fun e => qloc (fst e))
                (fun e => bundle_text json_escape q ind 1 (snd e)) e) in Hlen.
      revert Hlen. norm_app. repeat (rewrite ?length_app, ?length_cons). lia.
Qed.

End CatalogParse.

(** *** No NUL in the text *)

Definition no_nul (s : str) : Prop := Forall (fun c => c <> 0) s.

Lemma no_nul_existsb s : no_nul s -> existsb (N.eqb 0) s = false.
Proof.
  induction 1 as [|c s Hc Hs IH]; [done|]. cbn [existsb].
  destruct (N.eqb_spec 0 c); [done|]. done.
Qed.

Lemma no_nul_escape_char c : no_nul (json_escape_char c).
Proof.
  unfold json_escape_char, no_nul, hex_digit.
  repeat case_eqb; try (by repeat constructor).
  destruct (N.ltb_spec c 32).
  - repeat apply List.Forall_cons; try apply List.Forall_nil; try done;
      match goal with
      | |- (if ?b then 48 + ?x else 87 + ?x) <> 0 => destruct b; generalize x; lia
      end.
  - constructor; [lia | constructor].
Qed.

Lemma no_nul_escape s : no_nul (json_escape s).
Proof.
  induction s as [|c s IH]; [constructor|].
  unfold json_escape. cbn [flat_map]. apply Forall_app. split; [apply no_nul_escape_char | done].
Qed.

Lemma no_nul_quoted c s : quote_ok c s -> no_nul (quoted json_escape c s).
Proof.
  intros Hq. assert (c <> 0) by (by destruct Hq as [-> | [-> _]]).
  unfold quoted. constructor; [done|]. apply Forall_app. split; [apply no_nul_escape|].
  by constructor.
Qed.

Lemma no_nul_newline ind level : no_nul (newline_indent ind level).
Proof.
  destruct ind as [k|]; [|constructor]. cbn [newline_indent]. constructor; [done|].
  induction (k * level)%nat; by constructor.
Qed.

Lemma no_nul_separator ind level : no_nul (item_separator ind level).
Proof.
  destruct ind as [k|]; [|by repeat constructor].
  constructor; [done | apply no_nul_newline].
Qed.

Section NoNul.

Variables qloc q : str -> N.
Variable ind : option nat.

Lemma no_nul_member kv :
  quote_ok (q (fst kv)) (fst kv) /\ quote_ok (q (snd kv)) (snd kv) ->
  no_nul (member_text json_escape q kv).
Proof.
  intros [Hk Hv]. unfold member_text. apply Forall_app. split; [by apply no_nul_quoted|].
  apply Forall_app. split; [by repeat constructor | by apply no_nul_quoted].
Qed.

Lemma no_nul_members level l :
  bundle_quotes_ok q l -> no_nul (members_tail json_escape q ind level l).
Proof.
  induction 1 as [|kv l Hkv Hl IH]; [constructor|]. cbn [members_tail].
  apply Forall_app. split; [apply no_nul_separator|].
  apply Forall_app. split; [by apply no_nul_member | done].
Qed.

Lemma no_nul_bundle level b :
  bundle_quotes_ok q b -> no_nul (bundle_text json_escape q ind level b).
Proof.
  intros Hb. destruct b as [|kv l]; [by repeat constructor|].
  apply Forall_cons in Hb as [Hkv Hl]. cbn [bundle_text]. constructor; [done|].
  apply Forall_app. split; [apply no_nul_newline|].
  apply Forall_app. split; [by apply no_nul_member|].
  apply Forall_app. split; [by apply no_nul_members|].
  apply Forall_app. split; [apply no_nul_newline | by repeat constructor].
Qed.

Lemma no_nul_entry e :
  quote_ok (qloc (fst e)) (fst e) /\ bundle_quotes_ok q (snd e) ->
  no_nul (entry_text json_escape qloc q ind e).
Proof.
  intros [Hk Hb]. unfold entry_text. apply Forall_app. split; [by apply no_nul_quoted|].
  apply Forall_app. split; [by repeat constructor | by apply no_nul_bundle].
Qed.

Lemma no_nul_entries l :
  catalog_quotes_ok qloc q l -> no_nul (entries_tail json_escape qloc q ind l).
Proof.
  induction 1 as [|e l He Hl IH]; [constructor|]. cbn [entries_tail].
  apply Forall_app. split; [apply no_nul_separator|].
  apply Forall_app. split; [by apply no_nul_entry | done].
Qed.

Lemma no_nul_catalog cat :
  catalog_quotes_ok qloc q cat -> no_nul (catalog_text json_escape qloc q ind cat).
Proof.
  intros Hc. destruct cat as [|e l]; [by repeat constructor|].
  apply Forall_cons in Hc as [He Hl]. cbn [catalog_text]. constructor; [done|].
  apply Forall_app. split; [apply no_nul_newline|].
  apply Forall_app. split; [by apply no_nul_entry|].
  apply Forall_app. split; [by apply no_nul_entries|].
  apply Forall_app. split; [apply no_nul_newline | by repeat constructor].
Qed.

(** A catalog with distinct codes and keys, written with quotes that can
    hold its texts, is read back by [ast.literal_eval]. *)
Lemma literal_eval_catalog cat :
  catalog_quotes_ok qloc q cat -> NoDup (keys cat) ->
  Forall (fun e => NoDup (keys (snd e))) cat ->
  ast.literal_eval (catalog_text json_escape qloc q ind cat) = Some (PDict (items_of cat)).
Proof.
  intros Hq Hnd Hbs. unfold ast.literal_eval.
  rewrite no_nul_existsb by (by apply no_nul_catalog).
  assert (ast.lstrip (catalog_text json_escape qloc q ind cat)
          = catalog_text json_escape qloc q ind cat) as -> by (by destruct cat).
  by rewrite parse_value_catalog by (try done; lia).
Qed.

End NoNul.

(** ** C1: the round trip through crowdin.py and dart_to_crowdin.py *)

Lemma escape_sigil_snoc s c : c <> DOLLAR -> escape_sigil (s ++ [c]) = escape_sigil s ++ [c].
Proof.
  intros H. rewrite escape_sigil_app. f_equal. rewrite escape_sigil_flat.
  cbn [flat_map]. unfold escape_char. by destruct (N.eqb_spec c DOLLAR).
Qed.

(** The text between the markers of a file [const crowdin = <literal>;]
    whose literal ends with a closing brace is the literal. *)
Lemma extracted_wrapped body :
  extracted (PREFIX ++ (body ++ [125]) ++ [59])
  = Some (dart_to_crowdin.unescape_sigil (body ++ [125])).
Proof.
  unfold extracted, dart_to_crowdin.START.
  rewrite index_prefix.
  replace (PREFIX ++ (body ++ [125]) ++ [59])
    with ((PREFIX ++ body) ++ dart_to_crowdin.END_MARK) at 1
    by (unfold dart_to_crowdin.END_MARK; by norm_app).
  rewrite rindex_suffix by done. f_equal. f_equal.
  unfold slice. rewrite Nat.add_0_l, drop_app_length.
  rewrite length_app.
  replace (length PREFIX + length body + 1 - length PREFIX)%nat
    with (length (body ++ [125])) by (rewrite length_app; cbn [length]; lia).
  by rewrite take_app_length.
Qed.

Lemma catalog_text_closed enc qloc q ind cat :
  exists body, catalog_text enc qloc q ind cat = body ++ [125].
Proof.
  destruct cat as [|e l]; [by exists [123]|]. cbn [catalog_text].
  exists (123 :: newline_indent ind 1 ++ entry_text enc qloc q ind e
            ++ entries_tail enc qloc q ind l ++ newline_indent ind 0).
  by norm_app.
Qed.

Lemma quotes_ok_dq cat : catalog_quotes_ok dq dq cat.
Proof.
  unfold catalog_quotes_ok, bundle_quotes_ok, dq.
  apply Forall_forall. intros e _. split; [by left|].
  apply Forall_forall. intros kv _. split; by left.
Qed.

Lemma catalog_wf_bundles table cat :
  catalog_wf table cat -> Forall (fun e => NoDup (keys (snd e))) cat.
Proof. intros [_ H]. eapply Forall_impl; [exact H|]. by intros e [? _]. Qed.

(** What crowdin.py writes is read back by the parse stage of the reverse
    converter as the aggregate it was made from. *)
Lemma crowdin_literal_read_back z names :
  dart_to_crowdin.parse_stage ast.literal_eval
    (PREFIX ++ crowdin.literal_of (aggregate crowdin.lang_crowdin z names) ++ [59])
  = mret (PDict (aggregate crowdin.lang_crowdin z names)).
Proof.
  destruct (aggregate_is_catalog crowdin.lang_crowdin z names) as [-> Hwf].
  set (cat := aggregate_catalog crowdin.lang_crowdin z names) in *.
  unfold crowdin.literal_of. rewrite json_dumps_catalog.
  destruct (catalog_text_closed json_escape dq dq None cat) as [body Hbody].
  apply parse_stage_ok with (text := catalog_text json_escape dq dq None cat).
  - rewrite Hbody, escape_sigil_snoc by done.
    rewrite extracted_wrapped. by rewrite <- escape_sigil_snoc, unescape_escape.
  - apply literal_eval_catalog; [apply quotes_ok_dq | apply Hwf | by eapply catalog_wf_bundles].
Qed.

(** Later entries for other codes leave the bundle of a code as it is. *)
Lemma aggregate_last table z before file after code :
  contains MARKER file = true ->
  table !! split_head SLASH file = Some code ->
  (forall f, f ∈ after -> contains MARKER f = true ->
             table !! split_head SLASH f <> Some code) ->
  dict_get code (aggregate table z (before ++ file :: after))
  = Some (json_loads (read_pairs z file)).
Proof.
  intros Hm Ht Hafter. unfold aggregate. rewrite fold_left_app. cbn [fold_left].
  generalize (fold_left (add_mapped table z) before []). intros out.
  assert (dict_get code (add_mapped table z out file)
          = Some (json_loads (read_pairs z file))) as H.
  { unfold add_mapped. rewrite Hm, Ht. apply dict_get_set_eq. }
  revert H. generalize (add_mapped table z out file). clear out.
  induction after as [|f after IH]; intros out H; [done|].
  cbn [fold_left]. apply IH.
  - intros g Hg. apply Hafter. by right.
  - unfold add_mapped. destruct (contains MARKER f) eqn:Hf; [|done].
    destruct (table !! split_head SLASH f) as [c|] eqn:Hc; [|done].
    rewrite dict_get_set_ne; [done|]. intros <-.
    apply (Hafter f); [left | done | done].
Qed.

Lemma lookup_entries (entries : list (str * str)) k v :
  (list_to_map entries : gmap str str) !! k = Some v -> (k, v) ∈ entries.
Proof. apply elem_of_list_to_map_2. Qed.

Lemma entries_injective (entries : list (str * str)) k1 k2 v :
  NoDup (map snd entries) -> (k1, v) ∈ entries -> (k2, v) ∈ entries -> k1 = k2.
Proof.
  induction entries as [|[k v'] entries IH]; intros Hnd H1 H2.
  - by apply elem_of_nil in H1.
  - cbn [map snd] in Hnd. apply NoDup_cons in Hnd as [Hv Hnd].
    apply elem_of_cons in H1 as [H1 | H1]; apply elem_of_cons in H2 as [H2 | H2].
    + congruence.
    + injection H1 as -> ->. exfalso. apply Hv. apply list_elem_of_fmap. by exists (k2, v').
    + injection H2 as -> ->. exfalso. apply Hv. apply list_elem_of_fmap. by exists (k1, v').
    + by apply IH.
Qed.

Lemma crowdin_table_injective l1 l2 code :
  crowdin.lang_crowdin !! l1 = Some code -> crowdin.lang_crowdin !! l2 = Some code -> l1 = l2.
Proof.
  intros H1%lookup_entries H2%lookup_entries.
  apply (entries_injective crowdin.lang_entries l1 l2 code); [|done..].
  apply (bool_decide_unpack _). vm_compute. exact I.
Qed.

(** The file the reverse converter writes for a bundle reads back as the
    bundle. *)
Lemma literal_eval_bundle ind (b : list (str * str)) :
  NoDup (keys b) ->
  ast.literal_eval (json_dumps ind 0 (PDict (flat b))) = Some (PDict (flat b)).
Proof.
  intros Hnd. rewrite json_dumps_bundle.
  assert (bundle_quotes_ok dq b) as Hq.
  { apply Forall_forall. intros kv _. split; by left. }
  unfold ast.literal_eval.
  rewrite no_nul_existsb by (by apply no_nul_bundle).
  assert (ast.lstrip (bundle_text json_escape dq ind 0 b)
          = bundle_text json_escape dq ind 0 b) as -> by (by destruct b).
  pose proof (parse_value_bundle dq ind (S (length (bundle_text json_escape dq ind 0 b)))
                [] 0 b [] eq_refl Hq Hnd) as H.
  rewrite app_nil_r in H. cbn [app] in H. by rewrite H by lia.
Qed.

Lemma aggregate_values_read_back table z names ind code v :
  (code, v) ∈ aggregate table z names ->
  ast.literal_eval (json_dumps ind 0 v) = Some v.
Proof.
  destruct (aggregate_is_catalog table z names) as [-> Hwf].
  intros (e & [= -> ->] & He)%list_elem_of_fmap.
  apply literal_eval_bundle.
  apply catalog_wf_bundles in Hwf. rewrite Forall_forall in Hwf. by apply Hwf.
Qed.

Lemma json_loads_distinct pairs : NoDup (keys pairs) -> json_loads pairs = PDict (flat pairs).
Proof.
  intros H. rewrite json_loads_flat. unfold dict_of_pairs.
  by rewrite fold_dict_set_id.
Qed.



(** ** The quote rewrite on the text of a catalog *)

Section RewriteFacts.

Import crowdin_to_dart.

(** The body of a string in the text handed to the rewrite: escaped by
    [json.dumps], then the sigil escaped. *)
Definition enc2_char (c : N) : str := escape_sigil (json_escape_char c).
Definition enc2 (s : str) : str := escape_sigil (json_escape s).

Lemma enc2_flat s : enc2 s = flat_map enc2_char s.
Proof.
  unfold enc2, json_escape. induction s as [|c s IH]; [done|].
  cbn [flat_map]. by rewrite escape_sigil_app, IH.
Qed.

Lemma enc2_cons c s : enc2 (c :: s) = enc2_char c ++ enc2 s.
Proof. by rewrite !enc2_flat. Qed.

Lemma escape_sigil_plain s : Forall (fun c => c <> DOLLAR) s -> escape_sigil s = s.
Proof.
  rewrite escape_sigil_flat. induction 1 as [|c s Hc Hs IH]; [done|].
  cbn [flat_map]. unfold escape_char at 1. destruct (N.eqb_spec c DOLLAR); [done|].
  by rewrite IH.
Qed.

Definition is_hex (x : N) : Prop := (48 <= x /\ x <= 57) \/ (97 <= x /\ x <= 102).

Lemma hex_digit_range n : n < 16 -> is_hex (hex_digit n).
Proof. intros H. unfold hex_digit, is_hex. destruct (N.ltb_spec n 10); lia. Qed.

(** A character that goes into the text as it is. *)
Definition kept (c : N) : Prop :=
  c <> DQUOTE /\ c <> BSLASH /\ c <> DOLLAR /\ 32 <= c.

(** What an escape is made of behind its backslash: a character that is no
    line feed, then hexadecimal digits if any. *)
Definition escape_tail (y : N) (t : str) : Prop :=
  y <> LF /\ y <> SQUOTE /\ Forall is_hex t.

Lemma enc2_char_cases c :
  (kept c /\ enc2_char c = [c])
  \/ (~ kept c /\ exists y t, enc2_char c = BSLASH :: y :: t /\ escape_tail y t).
Proof.
  unfold enc2_char, json_escape_char, kept, escape_tail.
  destruct (N.eqb_spec c 34) as [->|H34].
  { right. split; [by intros [? _]|]. exists 34, []. by repeat split. }
  destruct (N.eqb_spec c 92) as [->|H92].
  { right. split; [by intros (_ & ? & _)|]. exists 92, []. by repeat split. }
  destruct (N.eqb_spec c 10) as [->|H10].
  { right. split; [intros (_ & _ & _ & ?); lia|]. exists 110, []. by repeat split. }
  destruct (N.eqb_spec c 13) as [->|H13].
  { right. split; [intros (_ & _ & _ & ?); lia|]. exists 114, []. by repeat split. }
  destruct (N.eqb_spec c 9) as [->|H9].
  { right. split; [intros (_ & _ & _ & ?); lia|]. exists 116, []. by repeat split. }
  destruct (N.eqb_spec c 8) as [->|H8].
  { right. split; [intros (_ & _ & _ & ?); lia|]. exists 98, []. by repeat split. }
  destruct (N.eqb_spec c 12) as [->|H12].
  { right. split; [intros (_ & _ & _ & ?); lia|]. exists 102, []. by repeat split. }
  destruct (N.ltb_spec c 32) as [Hlt|Hge].
  - right. split; [intros (_ & _ & _ & ?); lia|].
    assert (c / 16 < 16) by (apply N.Div0.div_lt_upper_bound; lia).
    assert (c mod 16 < 16) by (apply N.mod_lt; lia).
    pose proof (hex_digit_range _ H). pose proof (hex_digit_range _ H0).
    set (h1 := hex_digit (c / 16)) in *. set (h2 := hex_digit (c mod 16)) in *.
    clearbody h1 h2. clear H H0.
    exists 117, [48; 48; h1; h2].
    split.
    + apply escape_sigil_plain. unfold DOLLAR.
      unfold is_hex in *.
      repeat apply List.Forall_cons; try apply List.Forall_nil; cbv beta;
        first [done | lia].
    + split; [done | split; [done|]].
      repeat apply List.Forall_cons; try apply List.Forall_nil; try done;
        unfold is_hex; lia.
  - destruct (N.eq_dec c 36) as [->|H36].
    + right. split; [by intros (_ & _ & ? & _)|]. exists 36, []. by repeat split.
    + left. split; [done|]. apply escape_sigil_plain. by repeat constructor.
Qed.

Lemma scan_body_kept c t :
  c <> DQUOTE -> c <> BSLASH ->
  scan_body (c :: t) = (c :: fst (scan_body t), snd (scan_body t)).
Proof.
  intros H1 H2. cbn [scan_body].
  destruct (N.eqb_spec c DQUOTE); [done|]. destruct (N.eqb_spec c BSLASH); [done|].
  by destruct (scan_body t).
Qed.

Lemma scan_body_plain p t :
  Forall (fun x => x <> DQUOTE /\ x <> BSLASH) p ->
  scan_body (p ++ t) = (p ++ fst (scan_body t), snd (scan_body t)).
Proof.
  induction 1 as [|c p [H1 H2] Hp IH]; [cbn [app]; by destruct (scan_body t)|].
  cbn [app]. rewrite scan_body_kept, IH by done. done.
Qed.

Lemma scan_body_escape y t :
  y <> LF ->
  scan_body (BSLASH :: y :: t) = (BSLASH :: y :: fst (scan_body t), snd (scan_body t)).
Proof.
  intros H. cbn [scan_body]. cbn [N.eqb BSLASH DQUOTE Pos.eqb].
  destruct (N.eqb_spec y LF); [done|]. by destruct (scan_body t).
Qed.

Lemma digits_plain t :
  Forall is_hex t ->
  Forall (fun x => x <> DQUOTE /\ x <> BSLASH) t.
Proof.
  intros H. eapply Forall_impl; [exact H|].
  unfold DQUOTE, BSLASH, is_hex. intros x ?. cbv beta. lia.
Qed.

Lemma scan_body_enc2_char c t :
  scan_body (enc2_char c ++ t) = (enc2_char c ++ fst (scan_body t), snd (scan_body t)).
Proof.
  destruct (enc2_char_cases c) as [[(H1 & H2 & _) ->] | [_ (y & u & -> & Hy & _ & Hu)]].
  - cbn [app]. by apply scan_body_kept.
  - cbn [app]. rewrite scan_body_escape by done.
    rewrite scan_body_plain by (by apply digits_plain). done.
Qed.

(** The group of the first pattern takes a body up to its closing quote. *)
Lemma scan_body_enc2 s rest :
  scan_body (enc2 s ++ DQUOTE :: rest) = (enc2 s, DQUOTE :: rest).
Proof.
  induction s as [|c s IH]; [done|].
  rewrite enc2_cons, <- app_assoc, scan_body_enc2_char, IH. cbn [fst snd].
  by rewrite app_nil_r || done.
Qed.

End RewriteFacts.

Section PairFacts.

Import crowdin_to_dart.

Lemma contains_single c s : contains [c] s = true <-> c ∈ s.
Proof.
  rewrite contains_true. unfold occurs. split.
  - intros (a & b & ->). apply elem_of_app. right. left.
  - intros (a & b & ->)%list_elem_of_split. by exists a, b.
Qed.

Lemma has_apostrophe_elem s : has_apostrophe s = true <-> SQUOTE ∈ s.
Proof. apply contains_single. Qed.

Lemma apostrophe_enc2_char c : SQUOTE ∈ enc2_char c <-> c = SQUOTE.
Proof.
  destruct (enc2_char_cases c) as [[_ ->] | [Hn (y & t & -> & _ & Hy & Ht)]].
  - rewrite list_elem_of_singleton. split; congruence.
  - split.
    + rewrite !elem_of_cons. intros [H | [H | H]]; [done | congruence |].
      rewrite Forall_forall in Ht. apply Ht in H. unfold is_hex, SQUOTE in H. lia.
    + intros ->. exfalso. apply Hn. unfold kept, SQUOTE, DQUOTE, BSLASH, DOLLAR. lia.
Qed.

Lemma apostrophe_enc2 s : SQUOTE ∈ enc2 s <-> SQUOTE ∈ s.
Proof.
  induction s as [|c s IH]; [done|].
  rewrite enc2_cons, elem_of_app, elem_of_cons, apostrophe_enc2_char, IH.
  split; intros [H | H]; auto.
Qed.

Lemma has_apostrophe_enc2 s : has_apostrophe (enc2 s) = has_apostrophe s.
Proof.
  pose proof (has_apostrophe_elem (enc2 s)) as H1.
  pose proof (has_apostrophe_elem s) as H2.
  pose proof (apostrophe_enc2 s) as H3.
  destruct (has_apostrophe (enc2 s)), (has_apostrophe s); try done.
  - assert (false = true) by (apply H2, H3, H1; done). done.
  - assert (false = true) by (apply H1, H3, H2; done). done.
Qed.

(** The quote the rewrite gives a text: double with an apostrophe in it,
    single without. *)
Definition choose (s : str) : N := if has_apostrophe s then DQUOTE else SQUOTE.

Lemma requote_enc2 s : requote (enc2 s) = quoted enc2 (choose s) s.
Proof.
  unfold requote, choose, quoted. rewrite has_apostrophe_enc2.
  by destruct (has_apostrophe s).
Qed.

Lemma choose_ok s : quote_ok (choose s) s.
Proof.
  unfold choose, quote_ok. destruct (has_apostrophe s) eqn:E; [by left | right].
  split; [done|]. intros H%has_apostrophe_elem. congruence.
Qed.

Lemma attempt_pair_other c s : c <> DQUOTE -> attempt_pair (c :: s) = None.
Proof.
  intros H. unfold attempt_pair, match_pair. by destruct (N.eqb_spec c DQUOTE).
Qed.

Lemma sub_pairs_fail c s :
  attempt_pair (c :: s) = None -> sub_pairs (c :: s) = c :: sub_pairs s.
Proof. apply re_sub_no_match. Qed.

Lemma sub_pairs_other c s : c <> DQUOTE -> sub_pairs (c :: s) = c :: sub_pairs s.
Proof. intros H. by apply sub_pairs_fail, attempt_pair_other. Qed.

Lemma sub_pairs_plain p s :
  Forall (fun x => x <> DQUOTE) p -> sub_pairs (p ++ s) = p ++ sub_pairs s.
Proof.
  induction 1 as [|c p Hc Hp IH]; [done|]. cbn [app].
  rewrite sub_pairs_fail by (by apply attempt_pair_other). by rewrite IH.
Qed.

Lemma match_pair_member k v rest :
  match_pair (DQUOTE :: enc2 k ++ DQUOTE :: 58 :: 32 :: DQUOTE :: enc2 v ++ DQUOTE :: rest)
  = Some (enc2 k, enc2 v, rest).
Proof.
  unfold match_pair. rewrite (N.eqb_refl DQUOTE), scan_body_enc2.
  rewrite (N.eqb_refl DQUOTE), (N.eqb_refl 58). cbn [andb skip_space].
  change (is_space 32) with true. change (is_space DQUOTE) with false. cbn iota.
  rewrite (N.eqb_refl DQUOTE), scan_body_enc2. by rewrite (N.eqb_refl DQUOTE).
Qed.

Lemma sub_pairs_member kv rest :
  sub_pairs (member_text enc2 dq kv ++ rest)
  = member_text enc2 choose kv ++ sub_pairs rest.
Proof.
  destruct kv as [k v].
  assert (member_text enc2 dq (k, v) ++ rest
          = (DQUOTE :: enc2 k ++ DQUOTE :: 58 :: 32 :: DQUOTE :: enc2 v ++ [DQUOTE]) ++ rest)
    as -> by (unfold member_text, quoted, dq, key_separator; cbn [fst snd]; by norm_app).
  unfold sub_pairs.
  rewrite (re_sub_match _ _ rest (replace_quotes (enc2 k) (enc2 v))); [|done|].
  - unfold replace_quotes. rewrite !requote_enc2.
    unfold member_text, key_separator. cbn [fst snd]. by norm_app.
  - norm_app. by rewrite match_pair_member.
Qed.

Lemma newline_indent_plain ind level :
  Forall (fun x => x <> DQUOTE /\ x <> BSLASH) (newline_indent ind level).
Proof.
  destruct ind as [k|]; [|constructor]. cbn [newline_indent]. constructor; [done|].
  induction (k * level)%nat; by constructor.
Qed.

Lemma item_separator_plain ind level :
  Forall (fun x => x <> DQUOTE /\ x <> BSLASH) (item_separator ind level).
Proof.
  destruct ind as [k|]; [|by repeat constructor].
  constructor; [done | apply newline_indent_plain].
Qed.

Lemma plain_no_quote p :
  Forall (fun x => x <> DQUOTE /\ x <> BSLASH) p -> Forall (fun x => x <> DQUOTE) p.
Proof. intros H. eapply Forall_impl; [exact H|]. by intros x [? _]. Qed.

Lemma sub_pairs_members ind level l rest :
  sub_pairs (members_tail enc2 dq ind level l ++ rest)
  = members_tail enc2 choose ind level l ++ sub_pairs rest.
Proof.
  induction l as [|kv l IH]; [done|]. cbn [members_tail]. rewrite <- !app_assoc.
  rewrite sub_pairs_plain by apply plain_no_quote, item_separator_plain.
  by rewrite sub_pairs_member, IH.
Qed.

Lemma sub_pairs_bundle ind level b rest :
  sub_pairs (bundle_text enc2 dq ind level b ++ rest)
  = bundle_text enc2 choose ind level b ++ sub_pairs rest.
Proof.
  destruct b as [|kv l].
  - cbn [bundle_text app]. by rewrite !sub_pairs_other by done.
  - cbn [bundle_text]. norm_app. rewrite sub_pairs_other by done.
    rewrite sub_pairs_plain by apply plain_no_quote, newline_indent_plain.
    rewrite sub_pairs_member, sub_pairs_members.
    rewrite sub_pairs_plain by apply plain_no_quote, newline_indent_plain.
    by rewrite sub_pairs_other by done.
Qed.

End PairFacts.

Section EntryFacts.

Import crowdin_to_dart.

(** White space that [json.dumps] writes as it is. *)
Definition raw_space (x : N) : bool := is_space x && (32 <=? x).

(** A key made of a colon and of nothing else but such white space. *)
Definition colon_blank (k : str) : bool :=
  match k with
  | c :: k' => (c =? 58) && forallb raw_space k'
  | [] => false
  end.

(** The characters of the app-side codes of the table, and a code with a
    hyphen in it. *)
Definition code_char (c : N) : bool :=
  ((48 <=? c) && (c <=? 57)) || ((65 <=? c) && (c <=? 90))
  || ((97 <=? c) && (c <=? 122)) || (c =? 45).

Definition hyphenated (loc : str) : bool :=
  forallb code_char loc && existsb (N.eqb 45) loc.

Lemma code_char_range c :
  code_char c = true ->
  (48 <= c /\ c <= 57) \/ (65 <= c /\ c <= 90) \/ (97 <= c /\ c <= 122) \/ c = 45.
Proof.
  unfold code_char. rewrite !orb_true_iff, !andb_true_iff, !N.leb_le, N.eqb_eq. tauto.
Qed.

Lemma code_char_kept c : code_char c = true -> kept c /\ c <> 58.
Proof.
  intros H%code_char_range. unfold kept, DQUOTE, BSLASH, DOLLAR. lia.
Qed.

Lemma kept_enc2_char c : kept c -> enc2_char c = [c].
Proof. intros H. by destruct (enc2_char_cases c) as [[_ ?] | [? _]]. Qed.

Lemma code_chars_enc2 loc : forallb code_char loc = true -> enc2 loc = loc.
Proof.
  induction loc as [|c loc IH]; [done|]. cbn [forallb].
  intros [Hc Hl]%andb_true_iff. rewrite enc2_cons, IH by done.
  by rewrite kept_enc2_char by (by apply code_char_kept).
Qed.

Lemma code_chars_plain loc :
  forallb code_char loc = true -> Forall (fun x => x <> DQUOTE /\ x <> BSLASH) loc.
Proof.
  induction loc as [|c loc IH]; [constructor|]. cbn [forallb].
  intros [Hc Hl]%andb_true_iff. constructor; [|by apply IH].
  apply code_char_kept in Hc as [(? & ? & _) _]. done.
Qed.

Lemma code_chars_colon_blank loc : forallb code_char loc = true -> colon_blank loc = false.
Proof.
  destruct loc as [|c loc]; [done|]. cbn [forallb colon_blank].
  intros [Hc _]%andb_true_iff. apply code_char_kept in Hc as [_ Hc].
  by destruct (N.eqb_spec c 58).
Qed.

Lemma is_space_ascii c :
  is_space c = true -> c <> DQUOTE /\ c <> BSLASH /\ c <> DOLLAR.
Proof.
  unfold is_space, DQUOTE, BSLASH, DOLLAR.
  rewrite !orb_true_iff, !andb_true_iff, !N.leb_le, !N.eqb_eq. lia.
Qed.

Lemma skip_space_key k u :
  forallb raw_space k = false ->
  exists y r, skip_space (enc2 k ++ DQUOTE :: u) = y :: r /\ y <> DQUOTE.
Proof.
  induction k as [|x k IH]; [done|]. cbn [forallb].
  rewrite enc2_cons, <- app_assoc.
  destruct (raw_space x) eqn:Hx.
  - cbn [andb]. intros Hk. unfold raw_space in Hx.
    apply andb_true_iff in Hx as [Hs Hge%N.leb_le].
    destruct (is_space_ascii x Hs) as (H1 & H2 & H3).
    rewrite kept_enc2_char by done. cbn [app skip_space]. rewrite Hs. by apply IH.
  - intros _. destruct (enc2_char_cases x) as [[(H1 & H2 & H3 & H4) ->] | [_ (y & t & -> & _)]].
    + cbn [app skip_space]. unfold raw_space in Hx.
      apply N.leb_le in H4. rewrite H4, andb_true_r in Hx. rewrite Hx. by exists x, (enc2 k ++ DQUOTE :: u).
    + cbn [app skip_space]. change (is_space BSLASH) with false. cbn iota.
      by exists BSLASH, (y :: t ++ enc2 k ++ DQUOTE :: u).
Qed.

(** The first pattern does not match at a quote behind which, after text
    without quote or backslash, a key opens that is no blank colon key. *)
Lemma attempt_fail_key p k u :
  Forall (fun x => x <> DQUOTE /\ x <> BSLASH) p -> colon_blank k = false ->
  attempt_pair (DQUOTE :: p ++ DQUOTE :: enc2 k ++ DQUOTE :: u) = None.
Proof.
  intros Hp Hk. unfold attempt_pair, match_pair. rewrite (N.eqb_refl DQUOTE).
  rewrite scan_body_plain by done.
  change (scan_body (DQUOTE :: enc2 k ++ DQUOTE :: u))
    with (@nil N, DQUOTE :: enc2 k ++ DQUOTE :: u).
  cbn [fst snd]. rewrite (N.eqb_refl DQUOTE).
  destruct k as [|x k].
  - cbn [enc2 json_escape flat_map app]. change (escape_sigil []) with (@nil N).
    cbn [app]. by change (DQUOTE =? 58) with false.
  - rewrite enc2_cons, <- app_assoc. cbn [colon_blank] in Hk.
    destruct (enc2_char_cases x) as [[Hkept ->] | [_ (y & t & -> & _)]].
    + cbn [app]. destruct (N.eqb_spec x 58) as [->|]; [|done]. cbn [andb] in Hk |- *.
      destruct (skip_space_key k u Hk) as (y & r & -> & Hy).
      by destruct (N.eqb_spec y DQUOTE).
    + cbn [app]. by change (BSLASH =? 58) with false.
Qed.

Lemma attempt_fail_end p :
  Forall (fun x => x <> DQUOTE /\ x <> BSLASH) p -> attempt_pair (DQUOTE :: p) = None.
Proof.
  intros Hp. unfold attempt_pair, match_pair. rewrite (N.eqb_refl DQUOTE).
  rewrite <- (app_nil_r p), scan_body_plain by done. done.
Qed.

(** Text in front of which a quote cannot open a match of the first pattern. *)
Definition quiet (rest : str) : Prop :=
  exists p t, rest = p ++ t
    /\ Forall (fun x => x <> DQUOTE /\ x <> BSLASH) p
    /\ (t = [] \/ exists k u, t = DQUOTE :: enc2 k ++ DQUOTE :: u /\ colon_blank k = false).

Lemma attempt_fail_quiet p rest :
  Forall (fun x => x <> DQUOTE /\ x <> BSLASH) p -> quiet rest ->
  attempt_pair (DQUOTE :: p ++ rest) = None.
Proof.
  intros Hp (p' & t & -> & Hp' & [-> | (k & u & -> & Hk)]).
  - rewrite app_nil_r. apply attempt_fail_end. by apply Forall_app.
  - rewrite app_assoc. apply attempt_fail_key; [by apply Forall_app | done].
Qed.

Lemma attempt_fail_open loc rest :
  Forall (fun x => x <> DQUOTE /\ x <> BSLASH) loc ->
  attempt_pair (DQUOTE :: loc ++ DQUOTE :: 58 :: 32 :: 123 :: rest) = None.
Proof.
  intros Hp. unfold attempt_pair, match_pair. rewrite (N.eqb_refl DQUOTE).
  rewrite scan_body_plain by done.
  change (scan_body (DQUOTE :: 58 :: 32 :: 123 :: rest))
    with (@nil N, DQUOTE :: 58 :: 32 :: 123 :: rest).
  cbn [fst snd]. rewrite app_nil_r. rewrite (N.eqb_refl DQUOTE), (N.eqb_refl 58).
  cbn [andb skip_space]. change (is_space 32) with true. change (is_space 123) with false.
  cbn iota. by change (123 =? DQUOTE) with false.
Qed.

(** An entry the rewrite handles: a hyphenated code, and a first key that
    is no blank colon key. *)
Definition first_key_ok (b : list (str * str)) : Prop :=
  match b with
  | (k, _) :: _ => colon_blank k = false
  | [] => True
  end.

Definition entry_ok (e : str * list (str * str)) : Prop :=
  hyphenated (fst e) = true /\ first_key_ok (snd e).

Lemma bundle_text_open enc q ind level b :
  exists t, bundle_text enc q ind level b = 123 :: t.
Proof. destruct b as [|kv l]; cbn [bundle_text]; eauto. Qed.

Lemma sub_pairs_entry ind e rest :
  entry_ok e -> quiet rest ->
  sub_pairs (entry_text enc2 dq dq ind e ++ rest)
  = entry_text enc2 dq choose ind e ++ sub_pairs rest.
Proof.
  destruct e as [loc b]. intros [Hloc Hb] Hq. cbn [fst snd] in *.
  apply andb_true_iff in Hloc as [Hchars _].
  pose proof (code_chars_plain loc Hchars) as Hplain.
  unfold entry_text, quoted, key_separator. cbn [fst snd].
  change (dq loc) with DQUOTE.
  rewrite (code_chars_enc2 loc) by done. norm_app.
  destruct (bundle_text_open enc2 dq ind 1 b) as [t Ht].
  rewrite sub_pairs_fail by (rewrite Ht; cbn [app]; by apply attempt_fail_open).
  rewrite sub_pairs_plain by (by apply plain_no_quote).
  rewrite sub_pairs_fail.
  - rewrite !sub_pairs_other by done. by rewrite sub_pairs_bundle.
  - destruct b as [|[k v] l].
    + cbn [bundle_text app].
      apply (attempt_fail_quiet [58; 32; 123; 125]); [by repeat constructor | done].
    + cbn [bundle_text]. unfold member_text, quoted. cbn [fst snd].
      change (dq k) with DQUOTE. norm_app.
      apply (attempt_fail_key (58 :: 32 :: 123 :: newline_indent ind 2)); [|done].
      repeat (constructor; [done|]). apply newline_indent_plain.
Qed.

Lemma quiet_entries ind l rest :
  Forall entry_ok l -> quiet rest ->
  quiet (entries_tail enc2 dq dq ind l ++ rest).
Proof.
  intros Hl Hq. destruct l as [|[loc b] l]; [done|].
  apply Forall_cons in Hl as [[Hloc _] _]. cbn [fst] in Hloc.
  apply andb_true_iff in Hloc as [Hchars _].
  cbn [entries_tail]. unfold entry_text, quoted. cbn [fst snd].
  change (dq loc) with DQUOTE. norm_app.
  exists (item_separator ind 1), (DQUOTE :: enc2 loc ++ DQUOTE :: key_separator
            ++ bundle_text enc2 dq ind 1 b ++ entries_tail enc2 dq dq ind l ++ rest).
  split; [done | split; [apply item_separator_plain | right]].
  eexists loc, _. split; [reflexivity | by apply code_chars_colon_blank].
Qed.

Lemma sub_pairs_entries ind l rest :
  Forall entry_ok l -> quiet rest ->
  sub_pairs (entries_tail enc2 dq dq ind l ++ rest)
  = entries_tail enc2 dq choose ind l ++ sub_pairs rest.
Proof.
  intros Hl Hq. induction Hl as [|e l He Hl IH]; [done|].
  cbn [entries_tail]. rewrite <- !app_assoc.
  rewrite sub_pairs_plain by apply plain_no_quote, item_separator_plain.
  rewrite sub_pairs_entry by (try done; by apply quiet_entries).
  by rewrite IH.
Qed.

Lemma sub_pairs_catalog ind cat :
  Forall entry_ok cat ->
  sub_pairs (catalog_text enc2 dq dq ind cat) = catalog_text enc2 dq choose ind cat.
Proof.
  intros Hc. destruct cat as [|e l].
  - cbn [catalog_text]. by rewrite !sub_pairs_other by done.
  - apply Forall_cons in Hc as [He Hl].
    assert (quiet (newline_indent ind 0 ++ [125])) as Hq.
    { exists (newline_indent ind 0 ++ [125]), []. split; [by rewrite app_nil_r|].
      split; [|by left]. apply Forall_app. split; [apply newline_indent_plain|].
      by repeat constructor. }
    cbn [catalog_text]. rewrite sub_pairs_other by done.
    rewrite sub_pairs_plain by apply plain_no_quote, newline_indent_plain.
    rewrite sub_pairs_entry by (try done; by apply quiet_entries).
    rewrite sub_pairs_entries by done.
    rewrite sub_pairs_plain by apply plain_no_quote, newline_indent_plain.
    by rewrite sub_pairs_other by done.
Qed.

End EntryFacts.

(** ** The second pattern on the rewritten text *)

Section LocalePattern.

Import crowdin_to_dart.

Variable unicode_alnum : N -> bool.

Abbreviation is_word := (is_word unicode_alnum).

(** All the ways a match of a double quote, word characters, a double
    quote, a colon, white space and an opening brace can be under way:
    just behind an opening quote, inside the word, behind the closing
    quote, behind the colon. The underscore the pattern also asks for is
    left out, so that whatever the pattern matches is seen here. *)
Record progress : Type := {
  opened : bool;
  in_word : bool;
  closed : bool;
  at_colon : bool
}.

Definition step (st : progress) (x : N) : progress :=
  {| opened := x =? DQUOTE;
     in_word := is_word x && (opened st || in_word st);
     closed := (x =? DQUOTE) && in_word st;
     at_colon := ((x =? 58) && closed st) || (is_space x && at_colon st) |}.

(** The character completes a match. *)
Definition completes (st : progress) (x : N) : bool := (x =? 123) && at_colon st.

Fixpoint safe (st : progress) (s : str) : bool :=
  match s with
  | [] => true
  | x :: s' => negb (completes st x) && safe (step st x) s'
  end.

Definition run (st : progress) (s : str) : progress := fold_left step s st.

Lemma safe_app st a b : safe st (a ++ b) = safe st a && safe (run st a) b.
Proof.
  revert st. induction a as [|x a IH]; intros st; [done|].
  cbn [app safe run fold_left]. rewrite IH. by rewrite andb_assoc.
Qed.

Lemma run_app st a b : run st (a ++ b) = run (run st a) b.
Proof. apply fold_left_app. Qed.

Lemma scan_word_words s m r : scan_word unicode_alnum s = (m, r) -> forallb is_word m = true.
Proof.
  revert m r. induction s as [|c s IH]; intros m r; [by intros [= <- <-]|].
  cbn [scan_word]. destruct (is_word c) eqn:Hc; [|by intros [= <- <-]].
  destruct (scan_word unicode_alnum s) as [m' r'] eqn:E. intros [= <- <-].
  cbn [forallb]. rewrite Hc. by apply (IH m' r').
Qed.

Lemma skip_space_spaces s :
  exists ws, s = ws ++ skip_space s /\ forallb is_space ws = true.
Proof.
  induction s as [|c s (ws & IH & Hws)]; [by exists []|]. cbn [skip_space].
  destruct (is_space c) eqn:Hc; [|by exists []].
  exists (c :: ws). cbn [app forallb]. rewrite Hc. split; [by f_equal | done].
Qed.

Lemma match_locale_parts s w rest :
  match_locale unicode_alnum s = Some (w, rest) ->
  exists ws, s = DQUOTE :: w ++ DQUOTE :: 58 :: ws ++ 123 :: rest
    /\ w <> [] /\ forallb is_word w = true /\ forallb is_space ws = true.
Proof.
  unfold match_locale. destruct s as [|q1 s1]; [done|].
  destruct (N.eqb_spec q1 DQUOTE) as [->|]; [|done].
  destruct (scan_word unicode_alnum s1) as [w' r1] eqn:E1.
  pose proof (scan_word_words _ _ _ E1) as Hw. apply scan_word_app in E1 as ->.
  destruct (word_underscore_word w') eqn:Hu; [|done].
  destruct r1 as [|q2 [|c r2]]; [done..|].
  destruct (N.eqb_spec q2 DQUOTE) as [->|]; [|done].
  destruct (N.eqb_spec c 58) as [->|]; [|done]. cbn [andb].
  destruct (skip_space_spaces r2) as (ws & Hws & Hsp).
  destruct (skip_space r2) as [|b r3] eqn:E3; [done|].
  destruct (N.eqb_spec b 123) as [->|]; [|done].
  intros [= -> ->]. exists ws. split; [by rewrite Hws | split; [|done]].
  intros Hnil. by rewrite Hnil in Hu.
Qed.

Lemma run_word st w :
  opened st || in_word st = true -> w <> [] -> forallb is_word w = true ->
  in_word (run st w) = true.
Proof.
  revert st. induction w as [|x w IH]; intros st Hst Hne Hw; [done|].
  cbn [forallb] in Hw. apply andb_true_iff in Hw as [Hx Hw].
  cbn [run fold_left]. destruct w as [|y w].
  - cbn [fold_left step in_word]. by rewrite Hx, Hst.
  - apply IH; [|done|done]. cbn [step in_word opened]. by rewrite Hx, Hst, orb_true_r.
Qed.

Lemma run_spaces st ws :
  at_colon st = true -> forallb is_space ws = true -> at_colon (run st ws) = true.
Proof.
  revert st. induction ws as [|x ws IH]; intros st Hst Hws; [done|].
  cbn [forallb] in Hws. apply andb_true_iff in Hws as [Hx Hws].
  cbn [run fold_left]. apply IH; [|done]. cbn [step at_colon].
  by rewrite Hx, Hst, orb_true_r.
Qed.

(** Where the second pattern matches, the scan is not safe. *)
Lemma match_not_safe st s w rest :
  match_locale unicode_alnum s = Some (w, rest) -> safe st s = false.
Proof.
  intros (ws & -> & Hne & Hw & Hws)%match_locale_parts.
  change (DQUOTE :: w ++ DQUOTE :: 58 :: ws ++ 123 :: rest)
    with ([DQUOTE] ++ w ++ [DQUOTE; 58] ++ ws ++ 123 :: rest).
  rewrite !safe_app.
  set (st1 := run st [DQUOTE]).
  assert (in_word (run st1 w) = true) as H2 by (by apply run_word).
  set (st2 := run st1 w) in *.
  assert (at_colon (run st2 [DQUOTE; 58]) = true) as H3.
  { cbn [run fold_left step at_colon closed]. by rewrite H2. }
  set (st3 := run st2 [DQUOTE; 58]) in *.
  assert (at_colon (run st3 ws) = true) as H4 by (by apply run_spaces).
  assert (safe (run st3 ws) (123 :: rest) = false) as ->.
  { cbn [safe]. unfold completes. by rewrite H4. }
  by rewrite !andb_false_r.
Qed.

Lemma sub_locales_safe st s : safe st s = true -> sub_locales unicode_alnum s = s.
Proof.
  unfold sub_locales. revert st. induction s as [|c s IH]; intros st Hs; [done|].
  rewrite re_sub_no_match.
  - f_equal. cbn [safe] in Hs. apply andb_true_iff in Hs as [_ Hs]. by apply (IH (step st c)).
  - destruct (match_locale unicode_alnum (c :: s)) as [[w rest]|] eqn:E; [|done].
    apply (match_not_safe st) in E. congruence.
Qed.

End LocalePattern.

Section Passes.

Import crowdin_to_dart.

Variable unicode_alnum : N -> bool.

Abbreviation step' := (step unicode_alnum).
Abbreviation safe' := (safe unicode_alnum).
Abbreviation run' := (run unicode_alnum).

(** From a state in [P] the scan of [s] is safe and ends in [Q]. *)
Definition passes (P : progress -> Prop) (s : str) (Q : progress -> Prop) : Prop :=
  forall st, P st -> safe' st s = true /\ Q (run' st s).

Lemma passes_nil (P : progress -> Prop) : passes P [] P.
Proof. by intros st H. Qed.

Lemma passes_app (P Q R : progress -> Prop) a b :
  passes P a Q -> passes Q b R -> passes P (a ++ b) R.
Proof.
  intros Ha Hb st H. destruct (Ha st H) as [Hs Hq]. destruct (Hb _ Hq) as [Hs' Hr].
  by rewrite safe_app, run_app, Hs, Hs'.
Qed.

Lemma passes_cons (P Q R : progress -> Prop) x s :
  passes P [x] Q -> passes Q s R -> passes P (x :: s) R.
Proof. apply (passes_app P Q R [x] s). Qed.

Lemma passes_weaken (P P' Q Q' : progress -> Prop) s :
  (forall st, P' st -> P st) -> (forall st, Q st -> Q' st) ->
  passes P s Q -> passes P' s Q'.
Proof. intros HP HQ H st Hst. destruct (H st (HP st Hst)). auto. Qed.

Lemma passes_one (P Q : progress -> Prop) x :
  (forall st, P st -> completes st x = false /\ Q (step' st x)) -> passes P [x] Q.
Proof.
  intros H st Hst. destruct (H st Hst) as [Hc Hq]. cbn [safe run fold_left].
  by rewrite Hc.
Qed.

Definition no_word (st : progress) : Prop := in_word st = false.
Definition calm (st : progress) : Prop := closed st = false /\ at_colon st = false.
Definition idle (st : progress) : Prop := in_word st = false /\ at_colon st = false.
Definition settled (st : progress) : Prop :=
  in_word st = false /\ closed st = false /\ at_colon st = false.

Lemma calm_char x : x <> DQUOTE -> passes calm [x] calm.
Proof.
  intros Hx. apply passes_one. intros st [H1 H2]. unfold completes, calm.
  cbn [step closed at_colon]. rewrite H1, H2.
  destruct (N.eqb_spec x DQUOTE); [done|]. by rewrite !andb_false_r.
Qed.

Lemma calm_chars t : Forall (fun x => x <> DQUOTE) t -> passes calm t calm.
Proof.
  induction 1 as [|x t Hx Ht IH]; [apply passes_nil|].
  eapply passes_cons; [by apply calm_char | done].
Qed.

Lemma calm_escape y t :
  Forall is_hex t -> passes calm (BSLASH :: y :: t) calm.
Proof.
  intros Ht.
  apply (passes_cons _ (fun st => calm st /\ in_word st = false)).
  { apply passes_one. intros st [H1 H2]. unfold completes, calm.
    cbn [step closed at_colon in_word]. rewrite H1, H2. done. }
  apply (passes_cons _ calm).
  { apply passes_one. intros st [[H1 H2] H3]. unfold completes, calm.
    cbn [step closed at_colon]. rewrite H1, H2, H3. by rewrite !andb_false_r. }
  apply calm_chars. eapply Forall_impl; [exact Ht|].
  unfold is_hex, DQUOTE. intros x ?. cbv beta. lia.
Qed.

Lemma calm_body s : passes calm (enc2 s) calm.
Proof.
  induction s as [|c s IH]; [apply passes_nil|]. rewrite enc2_cons.
  eapply passes_app; [|exact IH].
  destruct (enc2_char_cases c) as [[(H1 & _) ->] | [_ (y & t & -> & _ & _ & Ht)]].
  - by apply calm_char.
  - by apply calm_escape.
Qed.

(** A string in either quote. *)
Lemma passes_quoted c s :
  c = DQUOTE \/ c = SQUOTE -> passes no_word (quoted enc2 c s) idle.
Proof.
  intros Hc. unfold quoted.
  apply (passes_cons _ calm).
  { apply passes_one. intros st H. unfold no_word in H. unfold completes, calm.
    cbn [step closed at_colon]. rewrite H.
    destruct Hc as [-> | ->]; by rewrite ?andb_false_r. }
  eapply passes_app; [apply calm_body|].
  apply passes_one. intros st [H1 H2]. unfold completes, idle.
  cbn [step in_word at_colon]. rewrite H1, H2.
  destruct Hc as [-> | ->]; done.
Qed.

Lemma choose_cases s : choose s = DQUOTE \/ choose s = SQUOTE.
Proof. unfold choose. destruct (has_apostrophe s); auto. Qed.

Lemma passes_key_separator : passes idle key_separator no_word.
Proof.
  unfold key_separator. apply (passes_cons _ no_word).
  - apply passes_one. intros st [H1 H2]. unfold completes, no_word.
    cbn [step in_word]. by rewrite H2.
  - apply passes_one. intros st H. unfold completes, no_word. cbn [step in_word]. done.
Qed.

Lemma settled_key_separator : passes settled key_separator idle.
Proof.
  unfold key_separator. apply (passes_cons _ settled).
  - apply passes_one. intros st (H1 & H2 & H3). unfold completes, settled.
    cbn [step in_word closed at_colon]. by rewrite H2, H3.
  - apply passes_one. intros st (H1 & H2 & H3). unfold completes, idle.
    cbn [step in_word at_colon]. by rewrite H3.
Qed.

Lemma idle_no_word st : idle st -> no_word st.
Proof. by intros [? _]. Qed.

Lemma passes_member kv : passes idle (member_text enc2 choose kv) idle.
Proof.
  unfold member_text.
  eapply passes_app.
  { eapply passes_weaken; [apply idle_no_word | | apply passes_quoted, choose_cases]. done. }
  eapply passes_app; [apply passes_key_separator|].
  apply passes_quoted, choose_cases.
Qed.

(** The characters between the strings. *)
Lemma idle_char x :
  x = 44 \/ x = 10 \/ x = 32 \/ x = 123 \/ x = 125 -> passes idle [x] idle.
Proof.
  intros Hx. apply passes_one. intros st [H1 H2]. unfold completes, idle.
  cbn [step in_word at_colon]. rewrite H2.
  destruct Hx as [-> | [-> | [-> | [-> | ->]]]]; by rewrite ?andb_false_r.
Qed.

Lemma idle_newline ind level : passes idle (newline_indent ind level) idle.
Proof.
  destruct ind as [k|]; [|apply passes_nil]. cbn [newline_indent].
  eapply passes_cons; [apply idle_char; auto|].
  induction (k * level)%nat; [apply passes_nil|].
  cbn [List.repeat]. eapply passes_cons; [apply idle_char; auto | done].
Qed.

Lemma idle_separator ind level : passes idle (item_separator ind level) idle.
Proof.
  destruct ind as [k|]; cbn [item_separator].
  - eapply passes_cons; [apply idle_char; auto | apply idle_newline].
  - eapply passes_cons; [apply idle_char; auto | apply idle_char; auto].
Qed.

Lemma passes_members ind level l :
  passes idle (members_tail enc2 choose ind level l) idle.
Proof.
  induction l as [|kv l IH]; [apply passes_nil|]. cbn [members_tail].
  eapply passes_app; [apply idle_separator|].
  eapply passes_app; [apply passes_member | done].
Qed.

Lemma passes_bundle ind level b : passes idle (bundle_text enc2 choose ind level b) idle.
Proof.
  destruct b as [|kv l]; cbn [bundle_text].
  - eapply passes_cons; [apply idle_char; auto | apply idle_char; auto].
  - eapply passes_cons; [apply idle_char; auto|].
    eapply passes_app; [apply idle_newline|].
    eapply passes_app; [apply passes_member|].
    eapply passes_app; [apply passes_members|].
    eapply passes_app; [apply idle_newline | apply idle_char; auto].
Qed.

End Passes.

Section LocaleKeys.

Import crowdin_to_dart.

Variable unicode_alnum : N -> bool.

(** Inside a code, behind its hyphen: no match under way at all. *)
Definition nothing (st : progress) : Prop :=
  opened st = false /\ in_word st = false /\ closed st = false /\ at_colon st = false.

Lemma is_space_code_char x : code_char x = true -> is_space x = false.
Proof.
  intros H%code_char_range. unfold is_space.
  repeat match goal with
         | |- context [N.leb ?a ?b] => destruct (N.leb_spec a b); try lia
         | |- context [N.eqb ?a ?b] => destruct (N.eqb_spec a b); try lia
         end; done.
Qed.

Lemma nothing_code_char x :
  code_char x = true -> passes unicode_alnum nothing [x] nothing.
Proof.
  intros Hx. apply passes_one. intros st (H1 & H2 & H3 & H4).
  unfold completes, nothing. cbn [step opened in_word closed at_colon].
  rewrite H1, H2, H3, H4, (is_space_code_char x Hx).
  apply code_char_kept in Hx as [(Hq & _) _].
  destruct (N.eqb_spec x DQUOTE); [done|]. by rewrite !andb_false_r.
Qed.

Lemma nothing_code l :
  forallb code_char l = true -> passes unicode_alnum nothing l nothing.
Proof.
  induction l as [|x l IH]; [intros _; apply passes_nil|]. cbn [forallb].
  intros [Hx Hl]%andb_true_iff.
  eapply passes_cons; [by apply nothing_code_char | by apply IH].
Qed.

Lemma calm_hyphen : passes unicode_alnum calm [45] nothing.
Proof.
  apply passes_one. intros st [H1 H2]. unfold completes, nothing.
  cbn [step opened in_word closed at_colon]. by rewrite H1, H2.
Qed.

Lemma calm_hyphenated l :
  forallb code_char l = true -> existsb (N.eqb 45) l = true ->
  passes unicode_alnum calm l nothing.
Proof.
  induction l as [|x l IH]; [done|]. cbn [forallb existsb].
  intros [Hx Hl]%andb_true_iff Hh.
  destruct (N.eqb_spec 45 x) as [<-|Hne].
  - eapply passes_cons; [apply calm_hyphen | by apply nothing_code].
  - eapply passes_cons; [|by apply IH].
    apply calm_char. by apply code_char_kept in Hx as [(? & _) _].
Qed.

Lemma passes_locale loc :
  hyphenated loc = true -> passes unicode_alnum no_word (quoted enc2 DQUOTE loc) settled.
Proof.
  intros [Hc Hh]%andb_true_iff. unfold quoted. rewrite code_chars_enc2 by done.
  apply (passes_cons _ _ calm).
  { apply passes_one. intros st H. unfold no_word in H. unfold completes, calm.
    cbn [step closed at_colon]. rewrite H. by rewrite ?andb_false_r. }
  eapply passes_app; [by apply calm_hyphenated|].
  apply passes_one. intros st (H1 & H2 & H3 & H4). unfold completes, settled.
  cbn [step in_word closed at_colon]. by rewrite H2, H3, H4.
Qed.

Lemma passes_entry ind e :
  hyphenated (fst e) = true ->
  passes unicode_alnum idle (entry_text enc2 dq choose ind e) idle.
Proof.
  intros He. unfold entry_text. change (dq (fst e)) with DQUOTE.
  eapply passes_app.
  { eapply passes_weaken; [apply idle_no_word | | by apply passes_locale]. done. }
  eapply passes_app; [apply settled_key_separator | apply passes_bundle].
Qed.

Lemma passes_entries ind l :
  Forall (fun e => hyphenated (fst e) = true) l ->
  passes unicode_alnum idle (entries_tail enc2 dq choose ind l) idle.
Proof.
  induction 1 as [|e l He Hl IH]; [apply passes_nil|]. cbn [entries_tail].
  eapply passes_app; [apply idle_separator|].
  eapply passes_app; [by apply passes_entry | done].
Qed.

Lemma passes_catalog ind cat :
  Forall (fun e => hyphenated (fst e) = true) cat ->
  passes unicode_alnum idle (catalog_text enc2 dq choose ind cat) idle.
Proof.
  intros Hc. destruct cat as [|e l]; cbn [catalog_text].
  - eapply passes_cons; [apply idle_char; auto | apply idle_char; auto].
  - apply Forall_cons in Hc as [He Hl].
    eapply passes_cons; [apply idle_char; auto|].
    eapply passes_app; [apply idle_newline|].
    eapply passes_app; [by apply passes_entry|].
    eapply passes_app; [by apply passes_entries|].
    eapply passes_app; [apply idle_newline | apply idle_char; auto].
Qed.

(** The second pattern matches nowhere in the rewritten text. *)
Lemma sub_locales_catalog ind cat :
  Forall (fun e => hyphenated (fst e) = true) cat ->
  sub_locales unicode_alnum (catalog_text enc2 dq choose ind cat)
  = catalog_text enc2 dq choose ind cat.
Proof.
  intros Hc.
  apply (sub_locales_safe unicode_alnum
           {| opened := false; in_word := false; closed := false; at_colon := false |}).
  by apply (passes_catalog ind cat Hc).
Qed.

End LocaleKeys.

(** *** The sigil escape on the text of a catalog *)

Section EscapeText.

Variables qloc q : str -> N.
Variable ind : option nat.
Hypothesis qloc_plain : forall s, qloc s <> DOLLAR.
Hypothesis q_plain : forall s, q s <> DOLLAR.

Lemma escape_sigil_cons x s : x <> DOLLAR -> escape_sigil (x :: s) = x :: escape_sigil s.
Proof.
  intros H. rewrite !escape_sigil_flat. cbn [flat_map]. unfold escape_char at 1.
  by destruct (N.eqb_spec x DOLLAR).
Qed.

Lemma escape_quoted c s :
  c <> DOLLAR -> escape_sigil (quoted json_escape c s) = quoted enc2 c s.
Proof.
  intros H. unfold quoted. rewrite escape_sigil_cons by done.
  by rewrite escape_sigil_snoc.
Qed.

Lemma escape_newline level :
  escape_sigil (newline_indent ind level) = newline_indent ind level.
Proof.
  apply escape_sigil_plain. destruct ind as [k|]; [|constructor].
  cbn [newline_indent]. constructor; [done|]. induction (k * level)%nat; by constructor.
Qed.

Lemma escape_separator level :
  escape_sigil (item_separator ind level) = item_separator ind level.
Proof.
  destruct ind as [k|] eqn:E; cbn [item_separator]; [|done].
  rewrite escape_sigil_cons by done. f_equal. rewrite <- E. apply escape_newline.
Qed.

Lemma escape_member kv :
  escape_sigil (member_text json_escape q kv) = member_text enc2 q kv.
Proof.
  unfold member_text. rewrite !escape_sigil_app, !escape_quoted by done. done.
Qed.

Lemma escape_members level l :
  escape_sigil (members_tail json_escape q ind level l) = members_tail enc2 q ind level l.
Proof.
  induction l as [|kv l IH]; [done|]. cbn [members_tail].
  by rewrite !escape_sigil_app, escape_separator, escape_member, IH.
Qed.

Lemma escape_bundle level b :
  escape_sigil (bundle_text json_escape q ind level b) = bundle_text enc2 q ind level b.
Proof.
  destruct b as [|kv l]; [done|]. cbn [bundle_text].
  rewrite escape_sigil_cons by done.
  by rewrite !escape_sigil_app, !escape_newline, escape_member, escape_members.
Qed.

Lemma escape_entry e :
  escape_sigil (entry_text json_escape qloc q ind e) = entry_text enc2 qloc q ind e.
Proof.
  unfold entry_text. rewrite !escape_sigil_app, escape_quoted, escape_bundle by done. done.
Qed.

Lemma escape_entries l :
  escape_sigil (entries_tail json_escape qloc q ind l) = entries_tail enc2 qloc q ind l.
Proof.
  induction l as [|e l IH]; [done|]. cbn [entries_tail].
  by rewrite !escape_sigil_app, escape_separator, escape_entry, IH.
Qed.

Lemma escape_catalog cat :
  escape_sigil (catalog_text json_escape qloc q ind cat) = catalog_text enc2 qloc q ind cat.
Proof.
  destruct cat as [|e l]; [done|]. cbn [catalog_text].
  rewrite escape_sigil_cons by done.
  by rewrite !escape_sigil_app, !escape_newline, escape_entry, escape_entries.
Qed.

End EscapeText.

(** ** C5: the quote rewrite of crowdin_to_dart.py *)

Lemma dq_plain (s : str) : dq s <> DOLLAR.
Proof. done. Qed.

Lemma choose_plain (s : str) : choose s <> DOLLAR.
Proof. by destruct (choose_cases s) as [-> | ->]. Qed.

(** Every app-side code of the table of crowdin_to_dart.py is made of
    letters, digits and hyphens, with a hyphen in it. *)
Lemma table_hyphenated lang code :
  crowdin_to_dart.lang_crowdin !! lang = Some code -> hyphenated code = true.
Proof.
  intros H%lookup_entries.
  assert (Forall (fun kv => hyphenated (snd kv) = true) crowdin_to_dart.lang_entries) as Hall
    by (apply (bool_decide_unpack _); vm_compute; exact I).
  rewrite Forall_forall in Hall. apply (Hall _ H).
Qed.

(** The first key of a bundle is not a colon followed by nothing but white
    space that [json.dumps] leaves as it is. *)
Definition first_key_plain (v : pyval) : Prop :=
  match v with
  | PDict ((k, _) :: _) => colon_blank k = false
  | _ => True
  end.

Lemma first_key_flat b : first_key_plain (PDict (flat b)) -> first_key_ok b.
Proof. by destruct b as [|[k v] l]. Qed.

(** On a catalog of hyphenated codes whose bundles open with a plain key
    the rewrite changes the quotes of the keys and values of the bundles,
    and nothing else. *)
Lemma literal_of_catalog unicode_alnum (cat : catalog) :
  Forall entry_ok cat ->
  crowdin_to_dart.literal_of unicode_alnum (items_of cat)
  = escape_sigil (catalog_text json_escape dq choose (Some 2%nat) cat).
Proof.
  intros Hc. unfold crowdin_to_dart.literal_of, crowdin_to_dart.convert_to_single_quotes.
  rewrite json_dumps_catalog.
  rewrite (escape_catalog dq dq (Some 2%nat) dq_plain dq_plain).
  rewrite sub_pairs_catalog by done.
  rewrite sub_locales_catalog.
  - by rewrite (escape_catalog dq choose (Some 2%nat) dq_plain choose_plain).
  - eapply Forall_impl; [exact Hc|]. by intros e [? _].
Qed.

Lemma quotes_ok_choose cat : catalog_quotes_ok dq choose cat.
Proof.
  unfold catalog_quotes_ok, bundle_quotes_ok.
  apply Forall_forall. intros e _. split; [by left|].
  apply Forall_forall. intros kv _. split; apply choose_ok.
Qed.

Definition colon_key_archive : archive :=
  {| namelist := [lit "de/saturn.json"];
     read_pairs := fun _ => [(lit ":", lit "it's")] |}.



Definition apostrophe_archive : archive :=
  {| namelist := [lit "de/saturn.json"];
     read_pairs := fun _ => [(lit "hello", lit "it's"); (lit "bye", lit "Ciao")] |}.


(** * Further properties of the scripts *)

(** ** The order of the locales in the generated table *)

(** The app-side code under which the loop of [generate_dart] files an
    entry of the archive: none for a name without [saturn.json] in it and
    for a vendor code outside the table. *)
Definition code_of (table : gmap str str) (file : str) : option str :=
  if contains MARKER file then table !! split_head SLASH file else None.

(** The elements of [l] in the order of their first occurrences. *)
Fixpoint first_occurrences (l : list str) : list str :=
  match l with
  | [] => []
  | x :: l' => x :: filter (fun y => y <> x) (first_occurrences l')
  end.

Lemma add_mapped_code table z out file :
  add_mapped table z out file
  = match code_of table file with
    | Some code => dict_set code (json_loads (read_pairs z file)) out
    | None => out
    end.
Proof. unfold add_mapped, code_of. by destruct (contains MARKER file). Qed.

(** Assignment to a key of a dictionary leaves a key that is there in its
    place and puts a new one last. *)
Lemma keys_dict_set_order {V} k (v : V) d :
  keys (dict_set k v d) = if decide (k ∈ keys d) then keys d else keys d ++ [k].
Proof.
  induction d as [|[k' v'] d IH]; [done|].
  cbn [dict_set]. unfold str_eqb. case_bool_decide as Hne.
  - subst k'. cbn [keys map fst]. rewrite decide_True; [done | left].
  - change (keys ((k', v') :: dict_set k v d)) with (k' :: keys (dict_set k v d)).
    rewrite IH. change (keys ((k', v') :: d)) with (k' :: keys d).
    destruct (decide (k ∈ keys d)) as [Hin|Hin].
    + rewrite decide_True; [done | by right].
    + rewrite decide_False; [done|]. intros [?|?]%elem_of_cons; by subst.
Qed.

Lemma fold_keys_order table z names out :
  keys (fold_left (add_mapped table z) names out)
  = keys out ++ filter (fun c => c ∉ keys out)
                  (first_occurrences (omap (code_of table) names)).
Proof.
  revert out. induction names as [|file names IH]; intros out.
  - cbn. by rewrite app_nil_r.
  - cbn [fold_left omap list_omap]. rewrite IH, add_mapped_code.
    destruct (code_of table file) as [code|]; [|done].
    cbn [first_occurrences]. rewrite keys_dict_set_order.
    destruct (decide (code ∈ keys out)) as [Hin|Hin].
    + rewrite filter_cons_False by (intros H; by apply H).
      f_equal. rewrite list_filter_filter_l; [done|].
      intros x Hx ->. by apply Hx.
    + rewrite filter_cons_True by done. rewrite <- app_assoc. cbn [app].
      do 2 f_equal. rewrite list_filter_filter. apply list_filter_iff.
      intros x. rewrite elem_of_app, list_elem_of_singleton. tauto.
Qed.

Lemma filter_all {A} (P : A -> Prop) `{forall x, Decision (P x)} (l : list A) :
  (forall x, P x) -> filter P l = l.
Proof.
  intros HP. induction l as [|x l IH]; [done|].
  rewrite filter_cons_True by done. by rewrite IH.
Qed.

Lemma aggregate_keys_order table z names :
  keys (aggregate table z names) = first_occurrences (omap (code_of table) names).
Proof.
  unfold aggregate. rewrite fold_keys_order. cbn [keys map app].
  apply filter_all. intros c. apply not_elem_of_nil.
Qed.

Lemma aggregate_keys_NoDup table z names : NoDup (keys (aggregate table z names)).
Proof.
  destruct (aggregate_is_catalog table z names) as [-> [H _]].
  by rewrite keys_items.
Qed.

(** X1: in crowdin_to_dart.py the locale keys of the aggregate, and so of
    the generated table, are the app-side codes of the entries taken in the
    sorted order of their names, each code at the place of its first entry
    and no code twice. *)
Theorem collect_keys_in_sorted_order (z : archive) :
  keys (crowdin_to_dart.collect z)
  = first_occurrences
      (omap (code_of crowdin_to_dart.lang_crowdin) (sorted (namelist z)))
  /\ NoDup (keys (crowdin_to_dart.collect z)).
Proof.
  rewrite collect_is_aggregate. split.
  - apply aggregate_keys_order.
  - apply aggregate_keys_NoDup.
Qed.

(** X2: in crowdin.py, when every locale code met is in the table, the
    file written holds the aggregate whose locale keys are the app-side
    codes of the entries in the order in which the archive lists them, each
    code at the place of its first entry. *)
Theorem crowdin_keys_in_archive_order (z : archive) :
  Forall (fun file => ~ unmapped crowdin.lang_crowdin file) (namelist z) ->
  exists out,
    crowdin.generate_dart z
    = ([WriteFile crowdin.OUTPUT None (PREFIX ++ crowdin.literal_of out ++ [59])], inr tt)
    /\ keys out = first_occurrences (omap (code_of crowdin.lang_crowdin) (namelist z))
    /\ NoDup (keys out).
Proof.
  intros Hall. exists (aggregate crowdin.lang_crowdin z (namelist z)).
  split; [by apply crowdin_generate_mapped|].
  split; [apply aggregate_keys_order | apply aggregate_keys_NoDup].
Qed.

Lemma crowdin_keys_in_archive_order_witness :
  exists out,
    crowdin.generate_dart (two_locales [lit "fr/saturn.json"; lit "de/saturn.json"])
    = ([WriteFile crowdin.OUTPUT None (PREFIX ++ crowdin.literal_of out ++ [59])], inr tt)
    /\ keys out = [lit "fr-fr"; lit "de-de"]
    /\ NoDup (keys out).
Proof.
  destruct (crowdin_keys_in_archive_order
              (two_locales [lit "fr/saturn.json"; lit "de/saturn.json"]))
    as (out & Hrun & Hkeys & Hnd).
  - repeat constructor; intros [_ H]; vm_compute in H; discriminate.
  - exists out. split; [exact Hrun|]. split; [|exact Hnd].
    rewrite Hkeys. vm_compute. reflexivity.
Defined.

(** ** Which entry of a locale is kept *)

Lemma code_of_Some table file code :
  code_of table file = Some code
  <-> contains MARKER file = true /\ table !! split_head SLASH file = Some code.
Proof.
  unfold code_of. destruct (contains MARKER file); [tauto|].
  split; [done | by intros [? _]].
Qed.

(** The last element of a list with a property. *)
Lemma last_with {A} (P : A -> Prop) `{forall x, Decision (P x)} (l : list A) x :
  x ∈ l -> P x ->
  exists before y after, l = before ++ y :: after /\ P y /\ Forall (fun f => ~ P f) after.
Proof.
  revert x. induction l as [|a l IH]; intros x Hin HP.
  - by apply elem_of_nil in Hin.
  - destruct (decide (Exists P l)) as [Hex|Hno].
    + apply Exists_exists in Hex as (x' & Hin' & HP').
      destruct (IH x' Hin' HP') as (before & y & after & -> & Hy & Hafter).
      by exists (a :: before), y, after.
    + exists [], a, l. split; [done|].
      assert (Forall (fun f => ~ P f) l) as Hall.
      { apply Forall_forall. intros f Hf HPf. apply Hno, Exists_exists. eauto. }
      split; [|done].
      apply elem_of_cons in Hin as [->|Hin]; [done|].
      rewrite Forall_forall in Hall. by destruct (Hall x Hin).
Qed.

Lemma str_le_refl a : str_le a a.
Proof. by destruct (str_leb_total a a). Qed.

(** X3: in crowdin_to_dart.py every entry of the archive whose vendor code
    is in the table has its app-side code in the aggregate, once, and what
    is stored under the code is the object of the entry for that code whose
    name comes last in the sorted order of the names. *)
Theorem collect_keeps_last_sorted_entry (z : archive) (file code : str) :
  file ∈ namelist z ->
  code_of crowdin_to_dart.lang_crowdin file = Some code ->
  exists last,
    last ∈ namelist z
    /\ code_of crowdin_to_dart.lang_crowdin last = Some code
    /\ (forall f, f ∈ namelist z ->
                  code_of crowdin_to_dart.lang_crowdin f = Some code -> str_le f last)
    /\ dict_get code (crowdin_to_dart.collect z) = Some (json_loads (read_pairs z last))
    /\ NoDup (keys (crowdin_to_dart.collect z)).
Proof.
  intros Hin Hcode.
  assert (file ∈ sorted (namelist z)) as Hin' by by rewrite sorted_Permutation.
  destruct (last_with (fun f => code_of crowdin_to_dart.lang_crowdin f = Some code)
              _ _ Hin' Hcode) as (before & last & after & Hs & Hlast & Hafter).
  exists last.
  assert (last ∈ namelist z) as Hl.
  { rewrite <- (sorted_Permutation (namelist z)), Hs.
    apply elem_of_app. right. left. }
  split; [done|]. split; [done|]. split; [|split].
  - intros f Hf Hc.
    assert (f ∈ before ++ last :: after) as Hf'
      by by rewrite <- Hs, sorted_Permutation.
    apply elem_of_app in Hf' as [Hb | Ha].
    + pose proof (Sorted_sorted (namelist z)) as Hsorted. rewrite Hs in Hsorted.
      apply (Sorted_StronglySorted _) in Hsorted.
      eapply StronglySorted_app_1_elem_of; [exact Hsorted | exact Hb | left].
    + apply elem_of_cons in Ha as [->|Ha]; [apply str_le_refl|].
      rewrite Forall_forall in Hafter. by destruct (Hafter f Ha).
  - rewrite collect_is_aggregate, Hs.
    apply code_of_Some in Hlast as [Hm Ht].
    apply aggregate_last; [done | done |].
    intros f Hf Hmf Htf. rewrite Forall_forall in Hafter.
    apply (Hafter f Hf). by apply code_of_Some.
  - rewrite collect_is_aggregate. apply aggregate_keys_NoDup.
Qed.

(** An archive with two entries for German. *)
Definition two_german : archive :=
  {| namelist := [lit "de/x/saturn.json"; lit "de/saturn.json"];
     read_pairs := fun name =>
       if str_eqb name (lit "de/saturn.json") then [(lit "hello", lit "Hallo")]
       else [(lit "hello", lit "Servus")] |}.

Lemma collect_keeps_last_sorted_entry_witness :
  exists last,
    last ∈ namelist two_german
    /\ code_of crowdin_to_dart.lang_crowdin last = Some (lit "de-de")
    /\ (forall f, f ∈ namelist two_german ->
                  code_of crowdin_to_dart.lang_crowdin f = Some (lit "de-de") ->
                  str_le f last)
    /\ dict_get (lit "de-de") (crowdin_to_dart.collect two_german)
       = Some (json_loads (read_pairs two_german last))
    /\ NoDup (keys (crowdin_to_dart.collect two_german)).
Proof.
  apply (collect_keeps_last_sorted_entry two_german (lit "de/saturn.json")).
  - right. left.
  - vm_compute. reflexivity.
Defined.

(** ** What the quote rewrite changes *)

Section RewriteScope.

Import crowdin_to_dart.

(** A relation between a text and its rewrite that holds of the empty
    texts, is kept by a character passed over and by a match replaced,
    holds between every text and its substitution. *)
Lemma re_sub_related (R : str -> str -> Prop) attempt :
  R [] [] ->
  (forall c a b, R a b -> R (c :: a) (c :: b)) ->
  (forall s repl rest, attempt s = Some (repl, rest) ->
     exists m, s = m ++ rest /\ m <> [] /\ forall b, R rest b -> R (m ++ rest) (repl ++ b)) ->
  forall s, R s (re_sub attempt 0 s).
Proof.
  intros Hnil Hcons Hmatch s. remember (length s) as n eqn:Hn. revert s Hn.
  induction n as [n IH] using lt_wf_ind. intros s Hn.
  destruct s as [|c s]; [done|].
  destruct (attempt (c :: s)) as [[repl rest]|] eqn:Ha.
  - destruct (Hmatch _ _ _ Ha) as (m & Hs & Hm & Hrel).
    rewrite Hs in Ha |- *. rewrite (re_sub_match attempt m rest repl) by done.
    apply Hrel. eapply IH; [|done]. subst n. rewrite Hs, length_app.
    destruct m; [done | simpl; lia].
  - rewrite re_sub_no_match by done. apply Hcons.
    eapply IH; [|done]. subst n. simpl. lia.
Qed.

(** The parts of a match of the first pattern. *)
Lemma match_pair_parts s key value rest :
  match_pair s = Some (key, value, rest) ->
  exists ws, s = DQUOTE :: key ++ DQUOTE :: 58 :: ws ++ DQUOTE :: value ++ DQUOTE :: rest
    /\ forallb is_space ws = true.
Proof.
  unfold match_pair. destruct s as [|q1 s1]; [done|].
  destruct (N.eqb_spec q1 DQUOTE) as [->|]; [|done].
  destruct (scan_body s1) as [key' r1] eqn:E1. apply scan_body_app in E1 as ->.
  destruct r1 as [|q2 [|c r2]]; [done..|].
  destruct (N.eqb_spec q2 DQUOTE) as [->|]; [|done].
  destruct (N.eqb_spec c 58) as [->|]; [|done]. cbn [andb].
  destruct (skip_space_spaces r2) as (ws & Hws & Hsp).
  destruct (skip_space r2) as [|q3 r3] eqn:E3; [done|].
  destruct (N.eqb_spec q3 DQUOTE) as [->|]; [|done].
  destruct (scan_body r3) as [value' r4] eqn:E2. apply scan_body_app in E2 as ->.
  destruct r4 as [|q4 rest']; [done|].
  destruct (N.eqb_spec q4 DQUOTE) as [->|]; [|done].
  intros [= -> -> ->]. exists ws. by rewrite Hws.
Qed.

(** The text of a match of the first pattern and its replacement. *)
Lemma attempt_pair_parts s repl rest :
  attempt_pair s = Some (repl, rest) ->
  exists key value ws q1 q2,
    s = (DQUOTE :: key ++ DQUOTE :: 58 :: ws ++ DQUOTE :: value ++ [DQUOTE]) ++ rest
    /\ repl = q1 :: key ++ q1 :: 58 :: 32 :: q2 :: value ++ [q2]
    /\ forallb is_space ws = true
    /\ (q1 = DQUOTE \/ q1 = SQUOTE) /\ (q2 = DQUOTE \/ q2 = SQUOTE).
Proof.
  unfold attempt_pair.
  destruct (match_pair s) as [[[key value] rest']|] eqn:E; [|done].
  intros [= <- <-]. apply match_pair_parts in E as (ws & -> & Hws).
  destruct (requote_shape key) as (q1 & Hq1 & E1).
  destruct (requote_shape value) as (q2 & Hq2 & E2).
  exists key, value, ws, q1, q2. unfold replace_quotes. rewrite E1, E2.
  split; [|split; [|done]].
  - by norm_app.
  - by norm_app.
Qed.

Section Patterns.

Variable unicode_alnum : N -> bool.

(** The text of a match of the second pattern and its replacement. *)
Lemma attempt_locale_parts s repl rest :
  attempt_locale unicode_alnum s = Some (repl, rest) ->
  exists w ws,
    s = (DQUOTE :: w ++ DQUOTE :: 58 :: ws ++ [123]) ++ rest
    /\ repl = SQUOTE :: w ++ [SQUOTE; 58; 32; 123]
    /\ forallb is_space ws = true.
Proof.
  unfold attempt_locale.
  destruct (match_locale unicode_alnum s) as [[w rest']|] eqn:E; [|done].
  intros [= <- <-]. apply match_locale_parts in E as (ws & -> & _ & _ & Hws).
  exists w, ws. split; [|done].
  by norm_app.
Qed.

(** The characters the rewrite may add, drop or exchange. *)
Definition quote_or_space (c : N) : bool :=
  (c =? DQUOTE) || (c =? SQUOTE) || is_space c.

(** The text without them. *)
Definition solid (s : str) : str := List.filter (fun c => negb (quote_or_space c)) s.

Lemma solid_app a b : solid (a ++ b) = solid a ++ solid b.
Proof. apply List.filter_app. Qed.

Lemma solid_quote q s : q = DQUOTE \/ q = SQUOTE -> solid (q :: s) = solid s.
Proof. by intros [-> | ->]. Qed.

Lemma solid_spaces ws s : forallb is_space ws = true -> solid (ws ++ s) = solid s.
Proof.
  induction ws as [|c ws IH]; [done|]. cbn [forallb app].
  intros [Hc Hws]%andb_true_iff. unfold solid at 1. cbn [List.filter].
  unfold quote_or_space at 1. rewrite Hc, orb_true_r. by apply IH.
Qed.

Lemma solid_sub_pairs s : solid (sub_pairs s) = solid s.
Proof.
  symmetry. apply (re_sub_related (fun a b => solid a = solid b)); [done | |].
  - intros c a b H. unfold solid in *. cbn [List.filter]. by rewrite H.
  - intros t repl rest (key & value & ws & q1 & q2 & -> & -> & Hws & Hq1 & Hq2)%attempt_pair_parts.
    eexists. split; [done|]. split; [done|]. intros b Hb.
    rewrite !solid_app, Hb. f_equal.
    rewrite (solid_quote DQUOTE) by auto. rewrite (solid_quote q1) by done.
    rewrite !solid_app. f_equal.
    rewrite (solid_quote DQUOTE) by auto. rewrite (solid_quote q1) by done.
    change (solid (58 :: ?x)) with (58 :: solid x). f_equal.
    rewrite solid_spaces by done.
    change (solid (32 :: ?x)) with (solid x).
    rewrite (solid_quote DQUOTE) by auto. rewrite (solid_quote q2) by done.
    rewrite !solid_app. f_equal.
    by rewrite (solid_quote DQUOTE), (solid_quote q2) by auto.
Qed.

Lemma solid_sub_locales s : solid (sub_locales unicode_alnum s) = solid s.
Proof.
  symmetry. apply (re_sub_related (fun a b => solid a = solid b)); [done | |].
  - intros c a b H. unfold solid in *. cbn [List.filter]. by rewrite H.
  - intros t repl rest (w & ws & -> & -> & Hws)%attempt_locale_parts.
    eexists. split; [done|]. split; [done|]. intros b Hb.
    rewrite !solid_app, Hb. f_equal.
    rewrite (solid_quote DQUOTE), (solid_quote SQUOTE) by auto.
    rewrite !solid_app. f_equal.
    rewrite (solid_quote DQUOTE), (solid_quote SQUOTE) by auto.
    change (solid (58 :: ?x)) with (58 :: solid x). f_equal.
    by rewrite solid_spaces.
Qed.

(** X4: [convert_to_single_quotes] changes nothing but quotation marks and
    white space: on every text, what is left of its result when double
    quotes, apostrophes and white space are taken out is what is left of
    the text itself. *)
Theorem convert_changes_quotes_and_space_only (json_str : str) :
  solid (convert_to_single_quotes unicode_alnum json_str) = solid json_str.
Proof.
  unfold convert_to_single_quotes. by rewrite solid_sub_locales, solid_sub_pairs.
Qed.

Lemma sub_locales_plain s :
  Forall (fun x => x <> DQUOTE) s -> sub_locales unicode_alnum s = s.
Proof.
  unfold sub_locales. induction 1 as [|c s Hc Hs IH]; [done|].
  rewrite re_sub_no_match; [by rewrite IH|].
  unfold match_locale. by destruct (N.eqb_spec c DQUOTE).
Qed.

(** X5: a text without a double quote, the empty text among them, is left
    as it is by [convert_to_single_quotes]. *)
Theorem convert_without_double_quote (json_str : str) :
  Forall (fun x => x <> DQUOTE) json_str ->
  convert_to_single_quotes unicode_alnum json_str = json_str.
Proof.
  intros H. unfold convert_to_single_quotes.
  rewrite <- (app_nil_r json_str) at 1. rewrite sub_pairs_plain by done.
  change (sub_pairs []) with (@nil N). rewrite app_nil_r. by apply sub_locales_plain.
Qed.

(** A property of characters that holds of the quotation marks, the colon,
    the space and the opening brace is kept by the rewrite. *)
Lemma convert_Forall (P : N -> Prop) s :
  P DQUOTE -> P SQUOTE -> P 58 -> P 32 -> P 123 ->
  Forall P s -> Forall P (convert_to_single_quotes unicode_alnum s).
Proof.
  intros Hd Hs H58 H32 H123. unfold convert_to_single_quotes. intros H.
  assert (Forall P (sub_pairs s)) as H1.
  { revert H. apply (re_sub_related (fun a b => Forall P a -> Forall P b)); [done | |].
    - intros c a b Hab [Hc Ha]%Forall_cons. constructor; auto.
    - intros t repl rest
        (key & value & ws & q1 & q2 & -> & -> & Hws & Hq1 & Hq2)%attempt_pair_parts.
      eexists. split; [done|]. split; [done|]. intros b Hb.
      rewrite Forall_app. intros [Hm Hrest].
      assert (P q1) by by destruct Hq1 as [-> | ->].
      assert (P q2) by by destruct Hq2 as [-> | ->].
      apply Forall_cons in Hm as [_ Hm]. apply Forall_app in Hm as [Hkey Hm].
      apply Forall_cons in Hm as [_ Hm]. apply Forall_cons in Hm as [_ Hm].
      apply Forall_app in Hm as [_ Hm]. apply Forall_cons in Hm as [_ Hm].
      apply Forall_app in Hm as [Hvalue _].
      apply Forall_app. split; [|auto].
      constructor; [done|]. apply Forall_app. split; [done|].
      do 4 (constructor; [done|]). apply Forall_app. split; [done|].
      by constructor. }
  revert H1. generalize (sub_pairs s). clear s H. intros s.
  apply (re_sub_related (fun a b => Forall P a -> Forall P b)); [done | |].
  - intros c a b Hab [Hc Ha]%Forall_cons. constructor; auto.
  - intros t repl rest (w & ws & -> & -> & Hws)%attempt_locale_parts.
    eexists. split; [done|]. split; [done|]. intros b Hb.
    rewrite Forall_app. intros [Hm Hrest].
    apply Forall_cons in Hm as [_ Hm]. apply Forall_app in Hm as [Hw _].
    apply Forall_app. split; [|auto].
    constructor; [done|]. apply Forall_app. split; [done|].
    by repeat constructor.
Qed.

End Patterns.

Lemma convert_without_double_quote_witness :
  convert_to_single_quotes (fun _ => false) (lit "{'a': 'b'}") = lit "{'a': 'b'}".
Proof.
  apply (convert_without_double_quote (fun _ => false) (lit "{'a': 'b'}")).
  repeat (constructor; [done|]). constructor.
Defined.

End RewriteScope.

(** ** The entries the forward converters look at *)

Lemma crowdin_add_entry_unmarked z out file :
  contains MARKER file = false -> crowdin.add_entry z out file = mret out.
Proof. unfold crowdin.add_entry. by intros ->. Qed.

Lemma crowdin_add_entry_read z1 z2 out file :
  read_pairs z1 file = read_pairs z2 file ->
  crowdin.add_entry z1 out file = crowdin.add_entry z2 out file.
Proof. unfold crowdin.add_entry. by intros ->. Qed.

Definition marked (file : str) : Prop := contains MARKER file = true.

Lemma foldM_marked z names out :
  foldM (crowdin.add_entry z) out (filter marked names)
  = foldM (crowdin.add_entry z) out names.
Proof.
  revert out. induction names as [|f names IH]; intros out; [done|].
  destruct (decide (marked f)) as [Hm|Hm].
  - rewrite filter_cons_True by done. cbn [foldM].
    destruct (crowdin.add_entry z out f) as [t [e|out']]; [done|].
    rewrite !bind_pure. by rewrite IH.
  - rewrite filter_cons_False by done. cbn [foldM].
    rewrite crowdin_add_entry_unmarked by by apply not_true_is_false.
    by rewrite bind_ret.
Qed.

Lemma foldM_ext_in {S A} (f g : S -> A -> M S) l s :
  (forall x, x ∈ l -> forall a, f a x = g a x) -> foldM f s l = foldM g s l.
Proof.
  revert s. induction l as [|x l IH]; intros s H; [done|]. cbn [foldM].
  rewrite (H x) by left. destruct (g s x) as [t [e|s']]; [done|].
  rewrite !bind_pure. rewrite IH; [done|]. intros y Hy. apply H. by right.
Qed.

Lemma collect_marked z :
  crowdin_to_dart.collect z
  = fold_left (crowdin_to_dart.add_entry z) (sorted (filter marked (namelist z))) [].
Proof.
  unfold crowdin_to_dart.collect. rewrite sorted_filter.
  symmetry. apply fold_left_filter_skip. intros f out Hm.
  unfold crowdin_to_dart.add_entry.
  by rewrite (not_true_is_false _ Hm).
Qed.

(** X6: the forward converters look only at the entries whose name holds
    [saturn.json]: two archives that agree on these names, in their order,
    and on what is read under them give the same result of crowdin.py and
    the same result of crowdin_to_dart.py, whatever else they hold. *)
Theorem forward_depends_on_marked_entries
    (unicode_alnum : N -> bool) (z1 z2 : archive) :
  filter marked (namelist z1) = filter marked (namelist z2) ->
  (forall file, marked file -> read_pairs z1 file = read_pairs z2 file) ->
  crowdin.generate_dart z1 = crowdin.generate_dart z2
  /\ crowdin_to_dart.generate_dart unicode_alnum z1
     = crowdin_to_dart.generate_dart unicode_alnum z2.
Proof.
  intros Hnames Hread. split.
  - unfold crowdin.generate_dart.
    rewrite <- (foldM_marked z1), <- (foldM_marked z2), Hnames.
    rewrite (foldM_ext_in (crowdin.add_entry z1) (crowdin.add_entry z2)); [done|].
    intros f [Hm _]%list_elem_of_filter out.
    by apply crowdin_add_entry_read, Hread.
  - unfold crowdin_to_dart.generate_dart.
    rewrite (collect_marked z1), (collect_marked z2), Hnames.
    rewrite (fold_left_ext_in (crowdin_to_dart.add_entry z1)
               (crowdin_to_dart.add_entry z2)); [done|].
    intros f Hf out. apply add_entry_read, Hread.
    rewrite sorted_Permutation in Hf.
    by apply list_elem_of_filter in Hf as [Hm _].
Qed.

(** An archive with a file that is not a locale file. *)
Definition with_readme : archive :=
  {| namelist := [lit "README.md"; lit "de/saturn.json"];
     read_pairs := fun name =>
       if str_eqb name (lit "README.md") then [(lit "title", lit "Saturn")]
       else [(lit "hello", lit "Hallo")] |}.

Definition without_readme : archive :=
  {| namelist := [lit "de/saturn.json"];
     read_pairs := fun _ => [(lit "hello", lit "Hallo")] |}.

Lemma forward_depends_on_marked_entries_witness :
  crowdin.generate_dart with_readme = crowdin.generate_dart without_readme
  /\ crowdin_to_dart.generate_dart (fun _ => false) with_readme
     = crowdin_to_dart.generate_dart (fun _ => false) without_readme.
Proof.
  apply (forward_depends_on_marked_entries (fun _ => false) with_readme without_readme).
  - vm_compute. reflexivity.
  - intros file Hm. cbn [read_pairs with_readme without_readme].
    unfold str_eqb. case_bool_decide as Hf; [|done].
    subst file. vm_compute in Hm. discriminate.
Defined.

(** ** An archive without locale files *)

Lemma fold_unmarked table z names out :
  Forall (fun file => contains MARKER file = false) names ->
  fold_left (add_mapped table z) names out = out.
Proof.
  induction 1 as [|f names Hf _ IH]; [done|]. cbn [fold_left].
  unfold add_mapped at 2. by rewrite Hf.
Qed.

(** X7: on an archive none of whose names holds [saturn.json], the empty
    archive among them, both forward converters write the empty table,
    [const crowdin = {};], and raise nothing. *)
Theorem forward_without_locale_files (unicode_alnum : N -> bool) (z : archive) :
  Forall (fun file => contains MARKER file = false) (namelist z) ->
  crowdin.generate_dart z
  = ([WriteFile crowdin.OUTPUT None (lit "const crowdin = {};")], inr tt)
  /\ crowdin_to_dart.generate_dart unicode_alnum z
     = ([WriteFile crowdin_to_dart.OUTPUT (Some UTF8) (lit "const crowdin = {};")], inr tt).
Proof.
  intros Hall. split.
  - rewrite crowdin_generate_mapped.
    + unfold aggregate. by rewrite fold_unmarked.
    + eapply Forall_impl; [exact Hall|]. intros f Hf [Hm _]. congruence.
  - unfold crowdin_to_dart.generate_dart. rewrite collect_is_aggregate.
    unfold aggregate. rewrite fold_unmarked.
    + unfold crowdin_to_dart.literal_of.
      change (escape_sigil (json_dumps (Some 2%nat) 0 (PDict []))) with [123; 125].
      rewrite convert_without_double_quote; [done|].
      by repeat constructor.
    + apply Forall_forall. intros f Hf. rewrite sorted_Permutation in Hf.
      rewrite Forall_forall in Hall. by apply Hall.
Qed.

Definition only_readme : archive :=
  {| namelist := [lit "README.md"];
     read_pairs := fun _ => [(lit "title", lit "Saturn")] |}.

Lemma forward_without_locale_files_witness :
  crowdin.generate_dart only_readme
  = ([WriteFile crowdin.OUTPUT None (lit "const crowdin = {};")], inr tt)
  /\ crowdin_to_dart.generate_dart (fun _ => false) only_readme
     = ([WriteFile crowdin_to_dart.OUTPUT (Some UTF8) (lit "const crowdin = {};")], inr tt).
Proof.
  apply (forward_without_locale_files (fun _ => false) only_readme).
  repeat constructor.
Defined.

(** ** The error of crowdin.py *)

(** X8: crowdin.py raises [KeyError] for the vendor code of the first
    entry, in the order of the archive, whose code is not in the table, and
    writes nothing, whatever entries come after it. *)
Theorem crowdin_raises_at_first_unmapped (z : archive) (before : list str)
    (file : str) (after : list str) :
  namelist z = before ++ file :: after ->
  Forall (fun f => ~ unmapped crowdin.lang_crowdin f) before ->
  unmapped crowdin.lang_crowdin file ->
  crowdin.generate_dart z = ([], inl (KeyError (split_head SLASH file))).
Proof.
  intros Hn Hbefore Hfile. unfold crowdin.generate_dart. rewrite Hn. clear Hn.
  assert (forall out, foldM (crowdin.add_entry z) out (before ++ file :: after)
                      = raise (KeyError (split_head SLASH file))) as ->; [|done].
  induction Hbefore as [|f before Hf _ IH]; intros out; cbn [app foldM].
  - destruct (crowdin_add_entry_cases z out file) as [[Hn' _] | [_ ->]]; [done|].
    rewrite bind_raise. reflexivity.
  - destruct (crowdin_add_entry_cases z out f) as [[_ ->] | [Hu _]]; [|done].
    rewrite bind_ret. apply IH.
Qed.

(** An archive with two locale codes that are not in the table. *)
Definition two_unmapped : archive :=
  {| namelist := [lit "de/saturn.json"; lit "xx/saturn.json"; lit "yy/saturn.json"];
     read_pairs := fun _ => [(lit "hello", lit "Hallo")] |}.

Lemma crowdin_raises_at_first_unmapped_witness :
  crowdin.generate_dart two_unmapped = ([], inl (KeyError (lit "xx"))).
Proof.
  apply (crowdin_raises_at_first_unmapped two_unmapped
           [lit "de/saturn.json"] (lit "xx/saturn.json") [lit "yy/saturn.json"]).
  - reflexivity.
  - repeat constructor. intros [_ H]. vm_compute in H. discriminate.
  - split; vm_compute; reflexivity.
Defined.

(** ** Characters below the space in the generated file *)

Section TextChars.

Variable P : N -> Prop.
Variable enc : str -> str.
Variables qloc q : str -> N.
Variable ind : option nat.

Hypothesis enc_ok : forall s, Forall P (enc s).
Hypothesis qloc_ok : forall s, P (qloc s).
Hypothesis q_ok : forall s, P (q s).
Hypothesis newline_ok : forall level, Forall P (newline_indent ind level).
Hypothesis punctuation_ok : Forall P [123; 125; 44; 58; 32].

Lemma punctuation c : c ∈ [123; 125; 44; 58; 32] -> P c.
Proof. rewrite Forall_forall in punctuation_ok. apply punctuation_ok. Qed.

Lemma separator_chars level : Forall P (item_separator ind level).
Proof.
  pose proof (newline_ok level) as Hnl. unfold item_separator. destruct ind.
  - constructor; [apply punctuation; set_solver | exact Hnl].
  - repeat constructor; apply punctuation; set_solver.
Qed.

Lemma quoted_chars c s : P c -> Forall P (quoted enc c s).
Proof.
  intros Hc. unfold quoted. constructor; [done|].
  apply Forall_app. split; [apply enc_ok | by constructor].
Qed.

Lemma member_chars kv : Forall P (member_text enc q kv).
Proof.
  unfold member_text. rewrite !Forall_app.
  split; [by apply quoted_chars|]. split; [|by apply quoted_chars].
  repeat constructor; apply punctuation; set_solver.
Qed.

Lemma members_chars level l : Forall P (members_tail enc q ind level l).
Proof.
  induction l as [|kv l IH]; [constructor|]. cbn [members_tail].
  rewrite !Forall_app. auto using separator_chars, member_chars.
Qed.

Lemma bundle_chars level b : Forall P (bundle_text enc q ind level b).
Proof.
  destruct b as [|kv l]; cbn [bundle_text].
  - repeat constructor; apply punctuation; set_solver.
  - constructor; [apply punctuation; set_solver|]. rewrite !Forall_app.
    split; [apply newline_ok|]. split; [apply member_chars|].
    split; [apply members_chars|]. split; [apply newline_ok|].
    repeat constructor; apply punctuation; set_solver.
Qed.

Lemma entry_chars e : Forall P (entry_text enc qloc q ind e).
Proof.
  unfold entry_text. rewrite !Forall_app.
  split; [by apply quoted_chars|]. split; [|apply bundle_chars].
  repeat constructor; apply punctuation; set_solver.
Qed.

Lemma entries_chars l : Forall P (entries_tail enc qloc q ind l).
Proof.
  induction l as [|e l IH]; [constructor|]. cbn [entries_tail].
  rewrite !Forall_app. auto using separator_chars, entry_chars.
Qed.

Lemma catalog_chars cat : Forall P (catalog_text enc qloc q ind cat).
Proof.
  destruct cat as [|e l]; cbn [catalog_text].
  - repeat constructor; apply punctuation; set_solver.
  - constructor; [apply punctuation; set_solver|]. rewrite !Forall_app.
    split; [apply newline_ok|]. split; [apply entry_chars|].
    split; [apply entries_chars|]. split; [apply newline_ok|].
    repeat constructor; apply punctuation; set_solver.
Qed.

End TextChars.

Lemma hex_digit_printable n : 32 <= hex_digit n.
Proof. unfold hex_digit. destruct (n <? 10); lia. Qed.

Lemma json_escape_printable s : Forall (fun c => 32 <= c) (json_escape s).
Proof.
  unfold json_escape. apply Forall_flat_map, Forall_forall. intros c _.
  unfold json_escape_char.
  repeat (match goal with |- context [if ?b then _ else _] => destruct b eqn:? end);
    try (match goal with H : (_ <? _) = false |- _ => apply N.ltb_ge in H end);
    repeat (constructor; [first [lia | apply hex_digit_printable]|]); constructor.
Qed.

Lemma escape_sigil_chars (P : N -> Prop) s :
  P BSLASH -> Forall P s -> Forall P (escape_sigil s).
Proof.
  intros Hb H. rewrite escape_sigil_flat. apply Forall_flat_map.
  eapply Forall_impl; [exact H|]. intros c Hc. unfold escape_char.
  destruct (c =? DOLLAR) eqn:E; repeat constructor; try done.
  apply N.eqb_eq in E. by subst.
Qed.

(** A line feed or a character from the space on. *)
Definition line_feed_or_printable (c : N) : Prop := c = LF \/ 32 <= c.

(** X9: the content crowdin.py writes holds no character below the space:
    a line feed, a tabulator or another such character of a translation is
    written as its escape, and the whole table is laid out on one line. *)
Theorem crowdin_writes_one_line (z : archive) (path : str)
    (encoding : option str) (content : str) :
  crowdin.generate_dart z = ([WriteFile path encoding content], inr tt) ->
  Forall (fun c => 32 <= c) content.
Proof.
  intros Hrun.
  destruct (decide (Forall (fun file => ~ unmapped crowdin.lang_crowdin file) (namelist z)))
    as [Hall|Hno].
  - rewrite crowdin_generate_mapped in Hrun by done.
    assert (content = PREFIX ++ crowdin.literal_of
                        (aggregate crowdin.lang_crowdin z (namelist z)) ++ [59])
      as -> by congruence.
    destruct (aggregate_is_catalog crowdin.lang_crowdin z (namelist z)) as [-> _].
    unfold crowdin.literal_of. rewrite json_dumps_catalog.
    rewrite !Forall_app. split; [|split].
    + unfold PREFIX. by repeat (constructor; [lia|]).
    + apply escape_sigil_chars; [unfold BSLASH; lia|].
      apply catalog_chars; try (intros; unfold dq, DQUOTE; lia).
      * apply json_escape_printable.
      * intros level. constructor.
      * by repeat (constructor; [lia|]).
    + repeat constructor. lia.
  - apply crowdin_generate_unmapped in Hno as (file & _ & _ & Hraise).
    rewrite Hraise in Hrun. discriminate.
Qed.

Lemma crowdin_writes_one_line_witness :
  Forall (fun c => 32 <= c) (lit "const crowdin = {`de-de`: {`price`: `5 \$`}};").
Proof.
  apply (crowdin_writes_one_line priced crowdin.OUTPUT None).
  vm_compute. reflexivity.
Defined.


(** ** Entries of different locales *)

Lemma crowdin_to_dart_table_injective l1 l2 code :
  crowdin_to_dart.lang_crowdin !! l1 = Some code ->
  crowdin_to_dart.lang_crowdin !! l2 = Some code -> l1 = l2.
Proof.
  intros H1%lookup_entries H2%lookup_entries.
  apply (entries_injective crowdin_to_dart.lang_entries l1 l2 code); [|done..].
  apply (bool_decide_unpack _). vm_compute. exact I.
Qed.

(** X11: in both tables different vendor codes have different app-side
    codes, so that two entries of an archive are filed under the same key
    of the aggregate only when their names begin with the same vendor code:
    the translations of one locale never replace those of another. *)
Theorem entries_share_key_within_locale (f1 f2 code : str) :
  (code_of crowdin.lang_crowdin f1 = Some code ->
   code_of crowdin.lang_crowdin f2 = Some code ->
   split_head SLASH f1 = split_head SLASH f2)
  /\ (code_of crowdin_to_dart.lang_crowdin f1 = Some code ->
      code_of crowdin_to_dart.lang_crowdin f2 = Some code ->
      split_head SLASH f1 = split_head SLASH f2).
Proof.
  split; intros [_ H1]%code_of_Some [_ H2]%code_of_Some.
  - by apply (crowdin_table_injective _ _ code).
  - by apply (crowdin_to_dart_table_injective _ _ code).
Qed.

(** ** Locale keys that are not plain names *)

Section OddKeys.

Import dart_to_crowdin.

Variable literal_eval : str -> option pyval.

Lemma locale_calls_in_trace content d entry :
  parse_stage literal_eval content = mret (PDict d) ->
  entry ∈ d ->
  forall op, op ∈ locale_calls entry ->
             op ∈ trace (process_dart_file literal_eval content).
Proof.
  intros Hparse Hin op Hop. rewrite (process_ok _ _ _ Hparse). cbn [trace fst].
  apply elem_of_app. left. apply list_elem_of_In, in_flat_map.
  exists entry. split; by apply list_elem_of_In.
Qed.

(** X12: the reverse converter joins each locale key to ./saturn with
    [os.path.join], which lets a key that begins with a slash replace the
    whole path: for such a key the directory made is the key itself and the
    file is written under it, outside ./saturn. An empty key gives the
    directory ./saturn/ and the file ./saturn/saturn.json. *)
Theorem reverse_paths_for_odd_locale_keys (content : str) (d : list (str * pyval)) :
  parse_stage literal_eval content = mret (PDict d) ->
  (forall locale v,
     (locale, v) ∈ d -> startswith SLASH locale = true ->
     exists file,
       MakeDirs locale true ∈ trace (process_dart_file literal_eval content)
       /\ WriteFile file (Some UTF8) (json_dumps (Some 2%nat) 0 v)
            ∈ trace (process_dart_file literal_eval content)
       /\ startswith locale file = true
       /\ startswith ROOT file = false)
  /\ (forall v,
        ([], v) ∈ d ->
        MakeDirs (str_of "./saturn/") true ∈ trace (process_dart_file literal_eval content)
        /\ WriteFile (str_of "./saturn/saturn.json") (Some UTF8) (json_dumps (Some 2%nat) 0 v)
             ∈ trace (process_dart_file literal_eval content)).
Proof.
  intros Hparse. split.
  - intros locale v Hin Hs.
    pose proof (locale_calls_in_trace _ _ _ Hparse Hin) as Hcalls.
    unfold locale_calls in Hcalls. cbn [fst snd] in Hcalls.
    assert (path_join ROOT locale = locale) as Hdir
      by (unfold path_join; by rewrite Hs).
    rewrite Hdir in Hcalls.
    exists (path_join locale FILE_NAME).
    split; [apply Hcalls; left|]. split; [apply Hcalls; right; left|].
    destruct locale as [|c locale]; [done|].
    cbn [SLASH startswith] in Hs. apply andb_true_iff in Hs as [Hc%N.eqb_eq _].
    subst c. split.
    + unfold path_join. change (startswith SLASH FILE_NAME) with false.
      destruct (_ || _); apply startswith_app.
    + unfold path_join. change (startswith SLASH FILE_NAME) with false.
      by destruct (_ || _).
  - intros v Hin.
    pose proof (locale_calls_in_trace _ _ _ Hparse Hin) as Hcalls.
    split; apply Hcalls; [left | right; left].
Qed.

End OddKeys.

Lemma reverse_paths_for_odd_locale_keys_witness :
  exists file,
    MakeDirs (lit "/tmp/de") true
      ∈ trace (dart_to_crowdin.process_dart_file ast.literal_eval
                 (lit "const crowdin = {'/tmp/de': {'hello': 'Hallo'}};"))
    /\ WriteFile file (Some UTF8) (lit "{~  `hello`: `Hallo`~}")
         ∈ trace (dart_to_crowdin.process_dart_file ast.literal_eval
                    (lit "const crowdin = {'/tmp/de': {'hello': 'Hallo'}};"))
    /\ startswith (lit "/tmp/de") file = true
    /\ startswith dart_to_crowdin.ROOT file = false.
Proof.
  apply (proj1 (reverse_paths_for_odd_locale_keys ast.literal_eval
                  (lit "const crowdin = {'/tmp/de': {'hello': 'Hallo'}};")
                  [(lit "/tmp/de", PDict [(lit "hello", PStr (lit "Hallo"))])]
                  ltac:(vm_compute; reflexivity))
           (lit "/tmp/de") (PDict [(lit "hello", PStr (lit "Hallo"))])).
  - left.
  - reflexivity.
Defined.

Lemma entries_share_key_within_locale_witness :
  split_head SLASH (lit "de/saturn.json") = split_head SLASH (lit "de/x/saturn.json").
Proof.
  apply (proj2 (entries_share_key_within_locale
                  (lit "de/saturn.json") (lit "de/x/saturn.json") (lit "de-de")));
    vm_compute; reflexivity.
Defined.

(** ** Text around the table in the file read back *)

(** [index] gives an occurrence at or before every occurrence. *)
Lemma index_from_le sub s i k :
  (k <= length s)%nat -> startswith sub (drop k s) = true ->
  exists j, index_from sub s i = Some j /\ (j <= i + k)%nat.
Proof.
  revert i k. induction s as [|c s IH]; intros i k Hk Hs.
  - assert (k = 0%nat) as -> by (simpl in Hk; lia). simpl in *. rewrite Hs.
    exists i. split; [done | lia].
  - cbn [index_from]. destruct (startswith sub (c :: s)) eqn:E.
    + exists i. split; [done | lia].
    + destruct k as [|k]; [simpl in Hs; congruence|].
      destruct (IH (S i) k) as (j & Hj & Hle); [simpl in Hk; lia | done |].
      exists j. split; [done | lia].
Qed.

(** An occurrence that begins inside [a] and ends before the last
    character of [a ++ sub] is an occurrence in [a ++ removelast sub]. *)
Lemma occurs_before sub a b j :
  sub <> [] -> (j < length a)%nat ->
  startswith sub (drop j (a ++ sub ++ b)) = true ->
  occurs sub (a ++ removelast sub).
Proof.
  intros Hne Hj [r Hr]%startswith_true.
  rewrite (app_removelast_last 0 Hne) in Hr at 1.
  rewrite <- app_assoc, app_assoc in Hr.
  set (y := a ++ removelast sub) in *.
  assert (length y = (length a + length sub - 1)%nat) as Hy.
  { unfold y. rewrite length_app. destruct sub as [|c sub]; [done|].
    rewrite (app_removelast_last 0 Hne) at 2. rewrite length_app. simpl. lia. }
  rewrite drop_app_le in Hr by lia.
  assert (length sub <= length (drop j y))%nat as Hlen
    by (rewrite length_drop; lia).
  exists (take j y), (drop (length sub) (drop j y)).
  rewrite <- (take_drop j y) at 1. f_equal.
  rewrite <- (take_drop (length sub) (drop j y)) at 1. f_equal.
  apply (f_equal (take (length sub))) in Hr.
  rewrite take_app_le in Hr by done. rewrite take_app_length in Hr. done.
Qed.

Lemma index_after sub a b :
  sub <> [] -> ~ occurs sub (a ++ removelast sub) ->
  index sub (a ++ sub ++ b) = Some (length a).
Proof.
  intros Hne Hno. unfold index.
  destruct (index_from_le sub (a ++ sub ++ b) 0 (length a)) as (j & Hj & Hle).
  - rewrite length_app. lia.
  - rewrite drop_app_length. apply startswith_app.
  - rewrite Hj. f_equal.
    destruct (decide (j = length a)) as [|Hlt]; [done|]. exfalso. apply Hno.
    apply index_from_Some in Hj as (_ & Hs & _). rewrite Nat.sub_0_r in Hs.
    apply (occurs_before sub a b j); [done | lia | done].
Qed.

Lemma rindex_before sub a b :
  sub <> [] -> ~ occurs sub (tail sub ++ b) ->
  rindex sub (a ++ sub ++ b) = Some (length a).
Proof.
  intros Hne Hno. unfold rindex.
  destruct (rindex_from_ge sub (a ++ sub ++ b) 0 (length a)) as (j & Hj & Hle).
  - rewrite length_app. lia.
  - rewrite drop_app_length. apply startswith_app.
  - rewrite Hj. f_equal.
    destruct (decide (j = length a)) as [|Hlt]; [done|]. exfalso. apply Hno.
    apply rindex_from_Some in Hj as (_ & Hs & Hlen). rewrite Nat.sub_0_r in Hs, Hlen.
    apply startswith_true in Hs as [r Hr].
    replace j with (length a + S (j - length a - 1))%nat in Hr by lia.
    rewrite drop_app_add in Hr.  
    destruct sub as [|c sub]; [done|]. cbn [app drop tail] in *.
    exists (take (j - length a - 1) (sub ++ b)), r.
    rewrite <- (take_drop (j - length a - 1) (sub ++ b)) at 1. f_equal. exact Hr.
Qed.

Section Around.

Import dart_to_crowdin.

Variable literal_eval : str -> option pyval.

(** X13: the reverse converter takes the literal from the first
    [const crowdin = ] up to the brace of the last [};], so that text before
    the assignment and after its end is passed over: for a file made of a
    text [pre], the assignment of [body}] and a text [post], where the
    start marker begins nowhere in [pre] and the end marker occurs nowhere
    after the assignment, what is parsed is [body}] with its sigils
    unescaped. *)
Theorem reverse_passes_over_text_around (pre body post : str) :
  contains START (pre ++ removelast START) = false ->
  contains END_MARK (tail END_MARK ++ post) = false ->
  parse_stage literal_eval (pre ++ START ++ body ++ END_MARK ++ post)
  = or_raise LiteralError (literal_eval (unescape_sigil (body ++ [125]))).
Proof.
  intros Hpre%contains_false Hpost%contains_false. unfold parse_stage.
  rewrite index_after by done. cbn [or_raise]. rewrite bind_ret.
  replace (pre ++ START ++ body ++ END_MARK ++ post)
    with ((pre ++ START ++ body) ++ END_MARK ++ post) by by rewrite <- !app_assoc.
  rewrite rindex_before by done. cbn [or_raise]. rewrite bind_ret.
  do 2 f_equal. unfold slice.
  rewrite <- app_assoc, drop_app_add' by done.
  rewrite <- (app_assoc START), drop_app_length.
  rewrite !length_app.
  replace (length pre + (length START + length body) + 1 - (length pre + length START))%nat
    with (length (body ++ [125])) by (rewrite length_app; cbn [length]; lia).
  change END_MARK with ([125] ++ [59]).
  rewrite <- !app_assoc, (app_assoc body [125]).
  by rewrite take_app_length.
Qed.

End Around.

Lemma reverse_passes_over_text_around_witness :
  dart_to_crowdin.parse_stage ast.literal_eval
    (lit "// generated~const crowdin = {'de-de': {'hello': 'Hallo'}};~// end~")
  = mret (PDict [(lit "de-de", PDict [(lit "hello", PStr (lit "Hallo"))])]).
Proof.
  apply (reverse_passes_over_text_around ast.literal_eval
           (lit "// generated~") (lit "{'de-de': {'hello': 'Hallo'}") (lit "~// end~"));
    vm_compute; reflexivity.
Defined.

(** ** Where the second pattern matches *)

Section LocaleMatch.

Import crowdin_to_dart.

Variable unicode_alnum : N -> bool.

Lemma scan_word_run w r :
  forallb (is_word unicode_alnum) w = true ->
  scan_word unicode_alnum (w ++ DQUOTE :: r) = (w, DQUOTE :: r).
Proof.
  induction w as [|c w IH]; cbn [forallb app scan_word].
  - intros _. by change (is_word unicode_alnum DQUOTE) with false.
  - intros [Hc Hw]%andb_true_iff. by rewrite Hc, IH.
Qed.

Lemma skip_space_run ws r :
  forallb is_space ws = true -> skip_space (ws ++ 123 :: r) = 123 :: r.
Proof.
  induction ws as [|c ws IH]; cbn [forallb app skip_space].
  - intros _. by change (is_space 123) with false.
  - intros [Hc Hws]%andb_true_iff. by rewrite Hc, IH.
Qed.

Lemma underscore_inside a b :
  a <> [] -> b <> [] -> word_underscore_word (a ++ 95 :: b) = true.
Proof.
  intros Ha Hb. unfold word_underscore_word.
  destruct a as [|x a]; [done|]. cbn [app tail].
  rewrite (app_removelast_last 0 Hb), app_comm_cons, app_assoc, removelast_last.
  rewrite existsb_app. cbn [existsb]. rewrite (N.eqb_refl 95).
  by rewrite orb_true_r.
Qed.

(** X14: the second substitution of [convert_to_single_quotes] rewrites a
    double-quoted key made of word characters with an underscore inside it
    that is followed by a colon, white space and an opening brace: the key
    is put in single quotes and the white space becomes one space. *)
Theorem sub_locales_rewrites_underscore_key (a b ws rest : str) :
  a <> [] -> b <> [] ->
  forallb (is_word unicode_alnum) (a ++ 95 :: b) = true ->
  forallb is_space ws = true ->
  sub_locales unicode_alnum (DQUOTE :: (a ++ 95 :: b) ++ DQUOTE :: 58 :: ws ++ 123 :: rest)
  = SQUOTE :: (a ++ 95 :: b) ++ [SQUOTE; 58; 32; 123] ++ sub_locales unicode_alnum rest.
Proof.
  intros Ha Hb Hw Hws. unfold sub_locales.
  set (w := a ++ 95 :: b) in *.
  replace (DQUOTE :: w ++ DQUOTE :: 58 :: ws ++ 123 :: rest)
    with ((DQUOTE :: w ++ DQUOTE :: 58 :: ws ++ [123]) ++ rest) by by norm_app.
  rewrite (re_sub_match _ _ rest (replace_locale_quotes w)); [|done|].
  - unfold replace_locale_quotes. by norm_app.
  - replace ((DQUOTE :: w ++ DQUOTE :: 58 :: ws ++ [123]) ++ rest)
      with (DQUOTE :: w ++ DQUOTE :: 58 :: ws ++ 123 :: rest) by by norm_app.
    unfold match_locale. rewrite (N.eqb_refl DQUOTE), scan_word_run by done.
    unfold w at 1. rewrite underscore_inside by done.
    rewrite (N.eqb_refl DQUOTE), (N.eqb_refl 58). cbn [andb].
    rewrite skip_space_run by done. by rewrite (N.eqb_refl 123).
Qed.

End LocaleMatch.

Lemma sub_locales_rewrites_underscore_key_witness :
  crowdin_to_dart.sub_locales (fun _ => false) (lit "`en_US`:  {~  `a`: 1~}")
  = lit "'en_US': {" ++ crowdin_to_dart.sub_locales (fun _ => false) (lit "~  `a`: 1~}").
Proof.
  apply (sub_locales_rewrites_underscore_key (fun _ => false)
           (lit "en") (lit "US") (lit "  ") (lit "~  `a`: 1~}")); done.
Defined.
